(** * aelf-block-scan: the Scanner of src/index.js

    A shallow embedding of the scanning engine (class [Scanner]) and the
    properties of its phases: missing-height backfill, gap backfill, the
    polling loop, the merge of unconfirmed blocks and the two batch
    fetchers.

    Numbers: heights are JavaScript numbers holding integers and are
    modelled as [Z].  [interval], [minedSpeed] and [loopCoef] may be
    fractional: a configuration holds them as the rationals [Q] they are
    written as, and the threshold of the polling loop is computed from
    them as the code computes it, in IEEE 754 binary64 arithmetic
    ([SpecFloat]), every operation rounded to nearest-even.  [null] is
    [None]; the coercions the code relies on ([null] to [0], truthiness)
    are written out. *)

From Stdlib Require Import ZArith QArith Qround Lia SpecFloat.
From stdpp Require Import base option list sorting gmap strings.

Local Open Scope Z_scope.

(** ** Data model *)

(** Modelled from the spec: [constants.QUERY_TYPE] (src/common/constants.js
    is not part of the sources); the spec lists the phases INIT, MISSING,
    GAP, LOOP and ERROR. *)
Inductive QueryType := INIT | MISSING | GAP | LOOP | ERROR.

Record BlockHeader := { Height : Z }.

(** A block as returned by the chain: the scanner only reads
    [Header.Height]; [BlockHash] stands for the rest of the payload. *)
Record Block := { Header : BlockHeader; BlockHash : string }.

Record Transaction := { TransactionId : string }.

(** One element of a [txs] array: the transactions of a block, or
    [undefined] when an array is read out of range. *)
Abbreviation TxsEntry := (option (list Transaction)).
Abbreviation undefined := (@None (list Transaction)).

(** The object returned by [queryAllBlocksAndTxs] and [mergeResult];
    [type], [LIBHeight] and [bestHeight] are absent on the initial
    [lastLoopResult]. *)
Record AllResult := {
  blocks : list Block;
  txs : list TxsEntry;
  type : option QueryType;
  LIBHeight : option Z;
  bestHeight : option Z
}.

Record Listener := { tag : string; filter_id : string }.

Record TaggedTransaction := { txId : string; txScanTags : list string }.

Record TaggedBlock := { tbHeight : Z; tbHash : string; scanTags : list string }.

(** An element of a bucket: [{...block, transactionList}]. *)
Record BucketEntry := { entryBlock : TaggedBlock; transactionList : list TaggedTransaction }.

(** The object returned by [queryBlockAndTxsWithBloom]; [results] maps a
    listener tag to the [blocks] array of its bucket. *)
Record BloomResult := {
  largestHeight : Z;
  results : gmap string (list BucketEntry);
  btype : QueryType;
  bLIBHeight : option Z;
  bbestHeight : option Z
}.

Inductive FetchResult :=
| AllR (r : AllResult)
| BloomR (r : BloomResult).

Record Config := {
  interval : Q;
  txResultsPageSize : Z;
  concurrentQueryLimit : Z;
  startHeight : Z;
  missingHeightList : list Z;
  scanMode : string;
  listeners : list Listener;
  maxInsert : Z;
  unconfirmedBlockBuffer : Z;
  minedSpeed : Q;
  loopCoef : Q
}.

Definition defaultOptions : Config := {|
  interval := 4000;
  txResultsPageSize := 100;
  concurrentQueryLimit := 40;
  startHeight := 1;
  missingHeightList := [];
  scanMode := "all";
  listeners := [];
  maxInsert := 200;
  unconfirmedBlockBuffer := 60;
  minedSpeed := 2;
  loopCoef := 6 # 10
|}.

(** The fields of [this] that the phases read and write. *)
Record Scanner := {
  config : Config;
  currentPhase : QueryType;
  currentQueries : Z;
  lastBestHeight : option Z;
  lastLoopResult : AllResult;
  loopTimes : nat
}.

(** ** JavaScript coercions used by the code *)

(** [ToNumber] on a height that may be [null]. *)
Definition toNumber (v : option Z) : Z := default 0 v.

(** Truthiness of a height that may be [null]: [null] and [0] are falsy. *)
Definition truthy (v : option Z) : bool :=
  match v with
  | None => false
  | Some n => negb (n =? 0)
  end.

(** *** Doubles

    A JavaScript number is an IEEE 754 binary64 value: precision [53],
    exponents below [1024]. *)
Definition prec : Z := 53.
Definition emax : Z := 1024.

(** The double that a number of the configuration is: the rational
    rounded to nearest-even, as a numeric literal is read ([0.6] is
    [5404319552844595 * 2^-53]); a rational that is a double is its own
    image. *)
Definition toDouble (q : Q) : spec_float :=
  match Qnum q with
  | Z0 => S754_zero false
  | Zpos n => SFdiv prec emax (S754_finite false n 0) (S754_finite false (Qden q) 0)
  | Zneg n => SFdiv prec emax (S754_finite true n 0) (S754_finite false (Qden q) 0)
  end.

(** [x * y] and [x / y] on doubles. *)
Definition mulDouble (x y : spec_float) : spec_float := SFmul prec emax x y.
Definition divDouble (x y : spec_float) : spec_float := SFdiv prec emax x y.

(** The value of [Math.ceil(x)]: an integer, or [x] itself when [x] is
    not finite. *)
Inductive Ceil := CeilInt (z : Z) | CeilPosInf | CeilNegInf | CeilNaN.

Definition Math_ceil (x : spec_float) : Ceil :=
  match x with
  | S754_zero _ => CeilInt 0
  | S754_infinity false => CeilPosInf
  | S754_infinity true => CeilNegInf
  | S754_nan => CeilNaN
  | S754_finite s m e =>
      let z := if s then Z.neg m else Z.pos m in
      CeilInt (if 0 <=? e then z * 2 ^ e else - (- z / 2 ^ (- e)))
  end.

(** [d <= t] for an integer [d]: every comparison with [NaN] is false. *)
Definition leCeil (d : Z) (t : Ceil) : bool :=
  match t with
  | CeilInt z => d <=? z
  | CeilPosInf => true
  | CeilNegInf | CeilNaN => false
  end.

(** [Array.prototype.slice(from, to)] for integer arguments. *)
Definition relIndex {A} (l : list A) (i : Z) : nat :=
  if i <? 0 then Z.to_nat (Z.max 0 (Z.of_nat (length l) + i))
  else Z.to_nat (Z.min i (Z.of_nat (length l))).

Definition slice {A} (l : list A) (from to : Z) : list A :=
  let k := relIndex l from in
  let final := relIndex l to in
  take (final - k)%nat (drop k l).

(** ** ResultMerger: [mergeResult] *)

Definition retained (LIB : Z) (lastBest : option Z) (block : Block) : bool :=
  (LIB <? Height (Header block)) && (Height (Header block) <=? toNumber lastBest).

(** The [forEach] over [lastLoopResult.blocks]: a retained block is pushed
    together with [lastLoopResult.txs[index]]. *)
Fixpoint retainLast (LIB : Z) (lastBest : option Z) (index : nat)
    (bs : list Block) (lastTxs : list TxsEntry) : list Block * list TxsEntry :=
  match bs with
  | [] => ([], [])
  | block :: rest =>
      let '(lastResultBlocks, lastResultTxs) := retainLast LIB lastBest (S index) rest lastTxs in
      if retained LIB lastBest block
      then (block :: lastResultBlocks, default undefined (lastTxs !! index) :: lastResultTxs)
      else (lastResultBlocks, lastResultTxs)
  end.

Definition mergeResult (this : Scanner) (results : AllResult)
    (preHeightsLength afterHeightsLength : nat) (LIB : Z) (lastBest : option Z) : AllResult :=
  if (length (blocks (lastLoopResult this)) =? 0)%nat then results
  else
    let preResultBlocks := take preHeightsLength (blocks results) in
    let afterResultBlocks := drop preHeightsLength (blocks results) in
    let preResultTxs := take preHeightsLength (txs results) in
    let afterResultTxs := drop preHeightsLength (txs results) in
    let '(lastResultBlocks, lastResultTxs) :=
      retainLast LIB lastBest 0 (blocks (lastLoopResult this)) (txs (lastLoopResult this)) in
    {| blocks := preResultBlocks ++ lastResultBlocks ++ afterResultBlocks;
       txs := preResultTxs ++ lastResultTxs ++ afterResultTxs;
       type := type results;
       LIBHeight := None;
       bestHeight := None |}.

(** ** Collaborators, events and the effect monad *)

Inductive JsError :=
| ConfigError (msg : string)
| InvalidScanMode
| RangeError
| TypeError
| CollaboratorError (msg : string).

Record ChainStatus := { BestChainHeight : Z; LastIrreversibleBlockHeight : Z }.

(** What the scanner does to its collaborators, in the order it does it.
    [EvFetch] marks a call of [queryBlockAndTxs] with its height list;
    [EvQueryBatch] is one [Promise.all] over a chunk of heights. *)
Inductive Event :=
| EvInit
| EvChainStatus (status : ChainStatus)
| EvFetch (heights : list Z)
| EvQueryBatch (heights : list Z)
| EvInsert (r : FetchResult)
| EvSetCallback
| EvStartTimer
| EvEndTimer
| EvDestroy.

(** The collaborators' answers.  The first argument is the clock: the
    number of collaborator calls made before this one, so that the chain
    and the sink may answer differently (or fail) from call to call. *)
Record Env := {
  chainStatus : nat -> JsError + ChainStatus;
  queryTransactionsByHeight : nat -> Z -> JsError + (Block * list Transaction);
  queryBlocksAndTxsByBloom :
    nat -> Z -> list Listener -> JsError + option (TaggedBlock * list TaggedTransaction);
  dbInit : nat -> option JsError;
  dbInsert : nat -> FetchResult -> option JsError
}.

Record World := { this : Scanner; clock : nat; trace : list Event }.

(** A computation returns, throws (a rejected promise that is awaited), or
    is still running when the fuel of a loop is used up. *)
Inductive Outcome (A : Type) :=
| Done (a : A) (w : World)
| Thrown (e : JsError) (w : World)
| OutOfFuel.
Arguments Done {A} a w.
Arguments Thrown {A} e w.
Arguments OutOfFuel {A}.

Definition M (A : Type) : Type := World -> Outcome A.

Definition ret {A} (a : A) : M A := fun w => Done a w.

Definition bind {A B} (m : M A) (k : A -> M B) : M B := fun w =>
  match m w with
  | Done a w' => k a w'
  | Thrown e w' => Thrown e w'
  | OutOfFuel => OutOfFuel
  end.

Definition throw {A} (e : JsError) : M A := fun w => Thrown e w.

Definition tryCatch {A} (m : M A) (handler : JsError -> M A) : M A := fun w =>
  match m w with
  | Done a w' => Done a w'
  | Thrown e w' => handler e w'
  | OutOfFuel => OutOfFuel
  end.

Declare Scope js_scope.
Delimit Scope js_scope with js.
Notation "x <- c1 ;; c2" := (bind c1 (fun x => c2))
  (at level 100, c1 at next level, right associativity) : js_scope.
Notation "c1 ;; c2" := (bind c1 (fun _ => c2))
  (at level 100, right associativity) : js_scope.
Local Open Scope js_scope.

Definition getThis : M Scanner := fun w => Done (this w) w.

Definition setThis (f : Scanner -> Scanner) : M unit := fun w =>
  Done tt {| this := f (this w); clock := clock w; trace := trace w |}.

Definition logEvent (e : Event) : M unit := fun w =>
  Done tt {| this := this w; clock := clock w; trace := trace w ++ [e] |}.

(** The clock value of a collaborator call; the call advances the clock. *)
Definition callClock : M nat := fun w =>
  Done (clock w) {| this := this w; clock := S (clock w); trace := trace w |}.

Definition liftResult {A} (r : JsError + A) : M A :=
  match r with
  | inl e => throw e
  | inr a => ret a
  end.

Definition set_currentPhase (p : QueryType) (s : Scanner) : Scanner :=
  {| config := config s; currentPhase := p; currentQueries := currentQueries s;
     lastBestHeight := lastBestHeight s; lastLoopResult := lastLoopResult s;
     loopTimes := loopTimes s |}.

Definition set_currentQueries (h : Z) (s : Scanner) : Scanner :=
  {| config := config s; currentPhase := currentPhase s; currentQueries := h;
     lastBestHeight := lastBestHeight s; lastLoopResult := lastLoopResult s;
     loopTimes := loopTimes s |}.

Definition set_lastBestHeight (h : option Z) (s : Scanner) : Scanner :=
  {| config := config s; currentPhase := currentPhase s; currentQueries := currentQueries s;
     lastBestHeight := h; lastLoopResult := lastLoopResult s;
     loopTimes := loopTimes s |}.

Definition set_lastLoopResult (r : AllResult) (s : Scanner) : Scanner :=
  {| config := config s; currentPhase := currentPhase s; currentQueries := currentQueries s;
     lastBestHeight := lastBestHeight s; lastLoopResult := r;
     loopTimes := loopTimes s |}.

Definition incr_loopTimes (s : Scanner) : Scanner :=
  {| config := config s; currentPhase := currentPhase s; currentQueries := currentQueries s;
     lastBestHeight := lastBestHeight s; lastLoopResult := lastLoopResult s;
     loopTimes := S (loopTimes s) |}.

(** [r.LIBHeight = lib; r.bestHeight = best] on either shape of result. *)
Definition tagAll (lib best : Z) (a : AllResult) : AllResult :=
  {| blocks := blocks a; txs := txs a; type := type a;
     LIBHeight := Some lib; bestHeight := Some best |}.

Definition tagHeights (lib best : Z) (r : FetchResult) : FetchResult :=
  match r with
  | AllR a => AllR (tagAll lib best a)
  | BloomR b => BloomR {| largestHeight := largestHeight b; results := results b;
                          btype := btype b; bLIBHeight := Some lib; bbestHeight := Some best |}
  end.

(** [new Array(n)]: a [RangeError] unless [0 <= n <= 2^32 - 1]; the array
    is then filled and mapped over its indices. *)
Definition newArrayMap {A} (n : Z) (f : Z -> A) : JsError + list A :=
  if (n <? 0) || (4294967295 <? n) then inl RangeError
  else inr (map (fun index => f (Z.of_nat index)) (seq 0 (Z.to_nat n))).

Section Phases.

Context (env : Env).

(** ** Collaborator calls *)

Definition getHeight : M (Z * Z) :=
  t <- callClock ;;
  status <- liftResult (chainStatus env t) ;;
  logEvent (EvChainStatus status) ;;
  ret (BestChainHeight status, LastIrreversibleBlockHeight status).

Definition dbOperator_init : M unit :=
  t <- callClock ;;
  logEvent EvInit ;;
  match dbInit env t with
  | Some e => throw e
  | None => ret tt
  end.

Definition dbOperator_insert (r : FetchResult) : M unit :=
  t <- callClock ;;
  logEvent (EvInsert r) ;;
  match dbInsert env t r with
  | Some e => throw e
  | None => ret tt
  end.

Definition dbOperator_destroy : M unit := logEvent EvDestroy.

(** Modelled from the spec: the Scheduler (src/scheduler/index.js is not
    part of the sources).  [setCallback] installs the tick body,
    [startTimer] begins invoking it on [interval] spacing and returns,
    [endTimer] cancels future invocations; none of them fails. *)
Definition scheduler_setCallback : M unit := logEvent EvSetCallback.
Definition scheduler_startTimer : M unit := logEvent EvStartTimer.
Definition scheduler_endTimer : M unit := logEvent EvEndTimer.

(** [Promise.all(heights.map(query))]: every query of the chunk is issued
    at once; the result is the list of answers, or the first failure. *)
Fixpoint allSettled {A} (answers : list (JsError + A)) : JsError + list A :=
  match answers with
  | [] => inr []
  | inl e :: _ => inl e
  | inr a :: rest =>
      match allSettled rest with
      | inl e => inl e
      | inr l => inr (a :: l)
      end
  end.

Definition promiseAll {A} (query : nat -> Z -> JsError + A) (heights : list Z) : M (list A) :=
  t <- callClock ;;
  logEvent (EvQueryBatch heights) ;;
  liftResult (allSettled (map (query t) heights)).

(** ** BatchFetcher, ALL mode: [queryAllBlocksAndTxs] *)

(** The [for (let i = 0; i < heights.length; i += concurrentQueryLimit)]
    loop; [results] collects one array per chunk. *)
Fixpoint queryAllLoop (fuel : nat) (limit : Z) (heights : list Z) (i : Z)
    (results : list (list (Block * list Transaction)))
    : M (list (list (Block * list Transaction))) :=
  match fuel with
  | O => fun _ => OutOfFuel
  | S fuel' =>
      if i <? Z.of_nat (length heights) then
        let heightsLimited := slice heights i (i + limit) in
        txs <- promiseAll (queryTransactionsByHeight env) heightsLimited ;;
        queryAllLoop fuel' limit heights (i + limit) (results ++ [txs])
      else ret results
  end.

Definition queryAllBlocksAndTxs (fuel : nat) (heights : list Z) (type : QueryType) : M AllResult :=
  s <- getThis ;;
  results <- queryAllLoop fuel (concurrentQueryLimit (config s)) heights 0 [] ;;
  let flat := concat results in
  ret {| blocks := map fst flat;
         txs := map (fun r => Some (snd r)) flat;
         type := Some type;
         LIBHeight := None;
         bestHeight := None |}.

(** ** BatchFetcher, LISTENER mode: [queryBlockAndTxsWithBloom] *)

Fixpoint queryBloomLoop (fuel : nat) (limit : Z) (listeners : list Listener) (heights : list Z)
    (i : Z) (results : list (option (TaggedBlock * list TaggedTransaction)))
    : M (list (option (TaggedBlock * list TaggedTransaction))) :=
  match fuel with
  | O => fun _ => OutOfFuel
  | S fuel' =>
      if i <? Z.of_nat (length heights) then
        let heightsLimited := slice heights i (i + limit) in
        blocksAndTxs <-
          promiseAll (fun t v => queryBlocksAndTxsByBloom env t v listeners) heightsLimited ;;
        queryBloomLoop fuel' limit listeners heights (i + limit) (results ++ blocksAndTxs)
      else ret results
  end.

(** [tags.reduce((acc, tag) => ({...acc, [tag]: {blocks: []}}), {})] *)
Definition tagsObj (tags : list string) : gmap string (list BucketEntry) :=
  foldl (fun acc tag => <[tag := []]> acc) ∅ tags.

(** The [for (const tag of scanTags)] loop: [acc[tag].blocks.push(...)];
    reading [.blocks] of a missing key is a [TypeError]. *)
Fixpoint pushBlock (acc : gmap string (list BucketEntry)) (block : TaggedBlock)
    (transactions : list TaggedTransaction) (tags : list string)
    : JsError + gmap string (list BucketEntry) :=
  match tags with
  | [] => inr acc
  | tag :: rest =>
      match acc !! tag with
      | None => inl TypeError
      | Some bucket =>
          let entry := {| entryBlock := block;
                          transactionList :=
                            filter (fun tx => tag ∈ txScanTags tx) transactions |} in
          pushBlock (<[tag := bucket ++ [entry]]> acc) block transactions rest
      end
  end.

(** [results.filter(v => v && v.block).reduce(..., tagsObj)] *)
Fixpoint bucketize (acc : gmap string (list BucketEntry))
    (results : list (option (TaggedBlock * list TaggedTransaction)))
    : JsError + gmap string (list BucketEntry) :=
  match results with
  | [] => inr acc
  | None :: rest => bucketize acc rest
  | Some (block, transactions) :: rest =>
      match pushBlock acc block transactions (scanTags block) with
      | inl e => inl e
      | inr acc' => bucketize acc' rest
      end
  end.

Definition queryBlockAndTxsWithBloom (fuel : nat) (heights : list Z) (type : QueryType)
    : M BloomResult :=
  s <- getThis ;;
  let listeners := listeners (config s) in
  results <- queryBloomLoop fuel (concurrentQueryLimit (config s)) listeners heights 0 [] ;;
  let tags := map tag listeners in
  buckets <- liftResult (bucketize (tagsObj tags) results) ;;
  ret {| largestHeight :=
           match last heights with
           | Some h => h
           | None => startHeight (config s) - 1
           end;
         results := buckets;
         btype := type;
         bLIBHeight := None;
         bbestHeight := None |}.

Definition queryBlockAndTxs (fuel : nat) (heights : list Z) (type : QueryType) : M FetchResult :=
  logEvent (EvFetch heights) ;;
  s <- getThis ;;
  if String.eqb (scanMode (config s)) "all" then
    r <- queryAllBlocksAndTxs fuel heights type ;; ret (AllR r)
  else if String.eqb (scanMode (config s)) "listener" then
    r <- queryBlockAndTxsWithBloom fuel heights type ;; ret (BloomR r)
  else throw InvalidScanMode.

(** ** PhaseController: missing-height backfill *)

(** [for (let i = 0; i <= missingHeightList.length; i += maxInsert)] *)
Fixpoint missingLoop (n fuel : nat) (i : Z) : M unit :=
  match n with
  | O => fun _ => OutOfFuel
  | S n' =>
      s <- getThis ;;
      if i <=? Z.of_nat (length (missingHeightList (config s))) then
        let heights := slice (missingHeightList (config s)) i (i + maxInsert (config s)) in
        maxInsertResults <- queryBlockAndTxs fuel heights MISSING ;;
        dbOperator_insert maxInsertResults ;;
        missingLoop n' fuel (i + maxInsert (config s))
      else ret tt
  end.

Definition queryMissingHeight (fuel : nat) : M unit := missingLoop fuel fuel 0.

(** ** PhaseController: gap backfill *)

(** [for (let i = 0; i <= leftHeights; i += maxInsert)]; the loop returns
    the last value of [currentHeight]. *)
Fixpoint gapLoop (n fuel : nat) (bestHeight : Z) (i currentHeight leftHeights : Z) : M Z :=
  match n with
  | O => fun _ => OutOfFuel
  | S n' =>
      if i <=? leftHeights then
        s <- getThis ;;
        allHeights <- liftResult
          (newArrayMap (maxInsert (config s)) (fun index => startHeight (config s) + i + index)) ;;
        let maxInsertHeights := filter (fun v => v <= currentHeight) allHeights in
        maxInsertResults <- queryBlockAndTxs fuel maxInsertHeights GAP ;;
        dbOperator_insert (tagHeights currentHeight bestHeight maxInsertResults) ;;
        st <- getHeight ;;
        let currentHeight' := snd st in
        s' <- getThis ;;
        gapLoop n' fuel bestHeight (i + maxInsert (config s')) currentHeight'
          (currentHeight' - startHeight (config s'))
      else ret currentHeight
  end.

Definition queryGapHeight (fuel : nat) : M unit :=
  st <- getHeight ;;
  let bestHeight := fst st in
  let currentHeight := snd st in
  s <- getThis ;;
  if currentHeight <=? startHeight (config s) then ret tt
  else
    let leftHeights := currentHeight - startHeight (config s) in
    currentHeight' <- gapLoop fuel fuel bestHeight 0 currentHeight leftHeights ;;
    setThis (set_currentQueries currentHeight') ;;
    setThis (set_lastBestHeight (Some bestHeight)).

(** ** HeightPlanner and the polling loop *)

(** [Math.ceil(interval * minedSpeed * loopCoef / 1000)], evaluated from
    left to right on doubles. *)
Definition skipThreshold (c : Config) : Ceil :=
  Math_ceil
    (divDouble
       (mulDouble (mulDouble (toDouble (interval c)) (toDouble (minedSpeed c)))
          (toDouble (loopCoef c)))
       (toDouble 1000)).

(** The guard of the [jump this loop] branch. *)
Definition skipTick (s : Scanner) (currentHeight : Z) : bool :=
  truthy (lastBestHeight s)
  && leCeil (currentHeight - toNumber (lastBestHeight s)) (skipThreshold (config s)).

(** [currentHeight - this.currentQueries || 0] *)
Definition heightsLength (s : Scanner) (currentHeight : Z) : Z :=
  let d := currentHeight - currentQueries s in
  if d =? 0 then 0 else d.

(** [new Array(heightsLength < 0 ? 0 : heightsLength).fill(1)
      .map((_, index) => this.currentQueries + index + 1)] *)
Definition loopHeights (s : Scanner) (currentHeight : Z) : JsError + list Z :=
  let n := heightsLength s currentHeight in
  newArrayMap (if n <? 0 then 0 else n) (fun index => currentQueries s + index + 1).

Definition LIBHeights (LIB : Z) (heights : list Z) : list Z :=
  filter (fun height => height <= LIB) heights.

Definition bestHeights (s : Scanner) (LIB : Z) (heights : list Z) : list Z :=
  filter (fun height => height > Z.max (toNumber (lastBestHeight s)) LIB) heights.

(** The part of the callback after the skip test. *)
Definition tickBody (fuel : nat) (currentHeight LIB : Z) : M unit :=
  s <- getThis ;;
  heights <- liftResult (loopHeights s currentHeight) ;;
  (if String.eqb (scanMode (config s)) "all" then
     let libHeights := LIBHeights LIB heights in
     let freshHeights := bestHeights s LIB heights in
     r <- queryBlockAndTxs fuel (libHeights ++ freshHeights) LOOP ;;
     match r with
     | AllR loopHeightsResult =>
         s1 <- getThis ;;
         let merged :=
           mergeResult s1 loopHeightsResult (length libHeights) (length freshHeights)
             LIB (lastBestHeight s1) in
         let tagged := tagAll LIB currentHeight merged in
         dbOperator_insert (AllR tagged) ;;
         setThis (set_lastLoopResult tagged)
     | BloomR _ =>
         (* not reached: queryBlockAndTxs answers [AllR] when scanMode is all *)
         throw TypeError
     end
   else if String.eqb (scanMode (config s)) "listener" then
     loopHeightsResult <- queryBlockAndTxs fuel heights LOOP ;;
     dbOperator_insert (tagHeights LIB currentHeight loopHeightsResult)
   else throw InvalidScanMode) ;;
  setThis (set_currentQueries LIB) ;;
  setThis (set_lastBestHeight (Some currentHeight)).

(** The callback given to [scheduler.setCallback]. *)
Definition tick (fuel : nat) : M unit :=
  setThis incr_loopTimes ;;
  st <- getHeight ;;
  let currentHeight := fst st in
  let LIB := snd st in
  s <- getThis ;;
  if skipTick s currentHeight then ret tt
  else tickBody fuel currentHeight LIB.

(** [queryInLoop] installs the callback and starts the timer; it does not
    wait for any tick. *)
Definition queryInLoop : M unit :=
  scheduler_setCallback ;;
  scheduler_startTimer.

(** ** PhaseController: [start] *)

Definition start (fuel : nat) : M unit :=
  tryCatch
    (dbOperator_init ;;
     setThis (set_currentPhase MISSING) ;;
     queryMissingHeight fuel ;;
     setThis (set_currentPhase GAP) ;;
     queryGapHeight fuel ;;
     setThis (set_currentPhase LOOP) ;;
     queryInLoop)
    (fun e =>
       setThis (set_currentPhase ERROR) ;;
       scheduler_endTimer ;;
       dbOperator_destroy ;;
       throw e).

(** The [try] block of [start], on its own. *)
Definition tryBlock (fuel : nat) : M unit :=
  dbOperator_init ;;
  setThis (set_currentPhase MISSING) ;;
  queryMissingHeight fuel ;;
  setThis (set_currentPhase GAP) ;;
  queryGapHeight fuel ;;
  setThis (set_currentPhase LOOP) ;;
  queryInLoop.

(** A tick is an [async] callback that the scheduler runs from its timer
    after [start] has returned: what a tick throws is a rejected promise
    handed to the scheduler, never to the [try] of [start].  A tick is
    therefore run on its own, as [tick fuel w]. *)
Definition scanPhase (w : World) : QueryType := currentPhase (this w).

End Phases.

(** ** Construction: [makeConfig] *)

(** An options object: any of the recognised keys may be absent. *)
Record Options := {
  o_interval : option Q;
  o_txResultsPageSize : option Z;
  o_concurrentQueryLimit : option Z;
  o_startHeight : option Z;
  o_missingHeightList : option (list Z);
  o_scanMode : option string;
  o_listeners : option (list Listener);
  o_maxInsert : option Z;
  o_unconfirmedBlockBuffer : option Z;
  o_minedSpeed : option Q;
  o_loopCoef : option Q
}.

(** [{}] *)
Definition noOptions : Options :=
  {| o_interval := None; o_txResultsPageSize := None; o_concurrentQueryLimit := None;
     o_startHeight := None; o_missingHeightList := None; o_scanMode := None;
     o_listeners := None; o_maxInsert := None; o_unconfirmedBlockBuffer := None;
     o_minedSpeed := None; o_loopCoef := None |}.

Definition optionsOf (c : Config) : Options :=
  {| o_interval := Some (interval c); o_txResultsPageSize := Some (txResultsPageSize c);
     o_concurrentQueryLimit := Some (concurrentQueryLimit c);
     o_startHeight := Some (startHeight c);
     o_missingHeightList := Some (missingHeightList c); o_scanMode := Some (scanMode c);
     o_listeners := Some (listeners c); o_maxInsert := Some (maxInsert c);
     o_unconfirmedBlockBuffer := Some (unconfirmedBlockBuffer c);
     o_minedSpeed := Some (minedSpeed c); o_loopCoef := Some (loopCoef c) |}.

(** One key of [{...defaultOptions, ...this.config, ...options}]. *)
Definition spread {A} (dflt : A) (thisConfig options : option A) : A :=
  default (default dflt thisConfig) options.

Definition mergeConfig (thisConfig options : Options) : Config :=
  {| interval := spread (interval defaultOptions) (o_interval thisConfig) (o_interval options);
     txResultsPageSize := spread (txResultsPageSize defaultOptions)
       (o_txResultsPageSize thisConfig) (o_txResultsPageSize options);
     concurrentQueryLimit := spread (concurrentQueryLimit defaultOptions)
       (o_concurrentQueryLimit thisConfig) (o_concurrentQueryLimit options);
     startHeight := spread (startHeight defaultOptions)
       (o_startHeight thisConfig) (o_startHeight options);
     missingHeightList := spread (missingHeightList defaultOptions)
       (o_missingHeightList thisConfig) (o_missingHeightList options);
     scanMode := spread (scanMode defaultOptions) (o_scanMode thisConfig) (o_scanMode options);
     listeners := spread (listeners defaultOptions)
       (o_listeners thisConfig) (o_listeners options);
     maxInsert := spread (maxInsert defaultOptions) (o_maxInsert thisConfig) (o_maxInsert options);
     unconfirmedBlockBuffer := spread (unconfirmedBlockBuffer defaultOptions)
       (o_unconfirmedBlockBuffer thisConfig) (o_unconfirmedBlockBuffer options);
     minedSpeed := spread (minedSpeed defaultOptions)
       (o_minedSpeed thisConfig) (o_minedSpeed options);
     loopCoef := spread (loopCoef defaultOptions) (o_loopCoef thisConfig) (o_loopCoef options) |}.

(** [Array.from(new Set(values))]: the values in order of first
    occurrence; [seen] holds the values already in the set. *)
Fixpoint arrayFromSet (seen values : list string) : list string :=
  match values with
  | [] => []
  | v :: rest =>
      if bool_decide (v ∈ seen) then arrayFromSet seen rest
      else v :: arrayFromSet (v :: seen) rest
  end.

(** The guard of [throw new Error('duplicated listener names are not allowed')]. *)
Definition duplicatedListeners (c : Config) : bool :=
  String.eqb (scanMode c) "listener"
  && (length (arrayFromSet [] (map tag (listeners c))) <? length (listeners c))%nat.

(** The sink handed to the constructor; only [instanceof DBBaseOperation]
    is looked at here. *)
Record DbOperator := { instanceofDBBaseOperation : bool }.

(** [makeConfig]: the scanner it leaves in [this], or the error it throws.
    [thisConfig] is [this.config] before the call. *)
Definition makeConfig (thisConfig : Options) (dbOperator : DbOperator) (options : Options)
    : JsError + Scanner :=
  let config := mergeConfig thisConfig options in
  if duplicatedListeners config then
    inl (ConfigError "duplicated listener names are not allowed")
  else if negb (instanceofDBBaseOperation dbOperator) then
    inl (ConfigError "You should give an instance of DBBaseOperation sub-class")
  else
    inr {| config := config;
           currentPhase := INIT;
           currentQueries := startHeight config;
           lastBestHeight := None;
           lastLoopResult := {| blocks := []; txs := []; type := None;
                                LIBHeight := None; bestHeight := None |};
           loopTimes := 0 |}.

(** [new Scanner(dbOperator, options)] *)
Definition newScanner (dbOperator : DbOperator) (options : Options) : JsError + Scanner :=
  makeConfig noOptions dbOperator options.

(** The synchronous part of [restart]: [makeConfig] over the old
    [this.config]; [start()] is then called without being awaited. *)
Definition restart (s : Scanner) (dbOperator : DbOperator) (options : Options)
    : JsError + Scanner :=
  makeConfig (optionsOf (config s)) dbOperator options.

(** * Vocabulary of the properties *)

Definition heightOf (b : Block) : Z := Height (Header b).

(** [hs[i] < hs[i+1]] for all valid [i]. *)
Definition ascending (hs : list Z) : Prop :=
  ∀ (i : nat) (x y : Z), hs !! i = Some x → hs !! S i = Some y → x < y.

(** The indices of the blocks of the previous result that are retained. *)
Definition keptIndex (LIB : Z) (lastBest : option Z) (bs : list Block) (i : nat) : bool :=
  match bs !! i with
  | Some b => retained LIB lastBest b
  | None => false
  end.

Definition keptIndices (LIB : Z) (lastBest : option Z) (bs : list Block) : list nat :=
  filter (fun i => keptIndex LIB lastBest bs i = true) (seq 0 (length bs)).

(** Every query of the ALL-mode collaborator answers, whatever the clock. *)
Definition allAnswers (env : Env) (heights : list Z) : Prop :=
  ∀ (t : nat) (h : Z), h ∈ heights → ∃ r, queryTransactionsByHeight env t h = inr r.

(** [rs] holds, position by position, an answer of the chain for the
    height at that position. *)
Definition answersFor (env : Env) (heights : list Z)
    (rs : list (Block * list Transaction)) : Prop :=
  Forall2 (fun h r => ∃ t, queryTransactionsByHeight env t h = inr r) heights rs.

(** The chain answers a query for height [h] with the block of height [h]. *)
Definition answersAtHeight (env : Env) : Prop :=
  ∀ (t : nat) (h : Z) (b : Block) (ts : list Transaction),
    queryTransactionsByHeight env t h = inr (b, ts) → heightOf b = h.

(** Every query of the LISTENER-mode collaborator answers, and a block it
    returns carries only tags of the configured listeners. *)
Definition bloomAnswers (env : Env) (ls : list Listener) (heights : list Z) : Prop :=
  ∀ (t : nat) (h : Z), h ∈ heights →
    ∃ r, queryBlocksAndTxsByBloom env t h ls = inr r
         ∧ ∀ b ts, r = Some (b, ts) → ∀ x, x ∈ scanTags b → x ∈ map tag ls.

Definition bloomAnswersFor (env : Env) (ls : list Listener) (heights : list Z)
    (rs : list (option (TaggedBlock * list TaggedTransaction))) : Prop :=
  Forall2 (fun h r => ∃ t, queryBlocksAndTxsByBloom env t h ls = inr r) heights rs.

(** The entry pushed into the bucket of [t] for a block. *)
Definition entryFor (t : string) (b : TaggedBlock) (ts : list TaggedTransaction)
    : BucketEntry :=
  {| entryBlock := b; transactionList := filter (fun tx => t ∈ txScanTags tx) ts |}.

(** What one answer contributes to the bucket of [t]: one entry for each
    occurrence of [t] in the block's [scanTags]. *)
Definition entriesOf (t : string) (r : option (TaggedBlock * list TaggedTransaction))
    : list BucketEntry :=
  match r with
  | None => []
  | Some (b, ts) => map (fun _ => entryFor t b ts) (filter (fun x => x = t) (scanTags b))
  end.

(** [frame P Q w w']: from [w] to [w'] the scanner moved along [Q] and the
    trace grew by events that all satisfy [P]. *)
Definition frame (P : Event → Prop) (Q : Scanner → Scanner → Prop) (w w' : World) : Prop :=
  Q (this w) (this w') ∧ ∃ evs, trace w' = trace w ++ evs ∧ Forall P evs.

(** [m] keeps to the frame whenever it terminates, normally or not. *)
Definition preserves {A} (P : Event → Prop) (Q : Scanner → Scanner → Prop) (m : M A) : Prop :=
  ∀ w, match m w with
       | Done _ w' => frame P Q w w'
       | Thrown _ w' => frame P Q w w'
       | OutOfFuel => True
       end.

(** The events of a fetch. *)
Definition isQueryEvent (e : Event) : Prop :=
  match e with
  | EvFetch _ | EvQueryBatch _ => True
  | _ => False
  end.

Definition validScanMode (c : Config) : Prop :=
  scanMode c = "all" ∨ scanMode c = "listener".

(** The collaborator of the configured scan mode answers for [heights]. *)
Definition chainAnswers (env : Env) (c : Config) (heights : list Z) : Prop :=
  (scanMode c = "all" → allAnswers env heights)
  ∧ (scanMode c = "listener" → bloomAnswers env (listeners c) heights).

(** [r] is a result built from the chain's answers for [heights], in the
    order of [heights]. *)
Definition resultFor (env : Env) (c : Config) (ty : QueryType) (heights : list Z)
    (r : FetchResult) : Prop :=
  match r with
  | AllR a =>
      scanMode c = "all"
      ∧ ∃ rs, answersFor env heights rs
              ∧ a = {| blocks := map fst rs; txs := map (fun x => Some (snd x)) rs;
                       type := Some ty; LIBHeight := None; bestHeight := None |}
  | BloomR b =>
      scanMode c = "listener"
      ∧ ∃ rs buckets,
          bloomAnswersFor env (listeners c) heights rs
          ∧ bucketize (tagsObj (map tag (listeners c))) rs = inr buckets
          ∧ b = {| largestHeight := default (startHeight c - 1) (last heights);
                   results := buckets; btype := ty;
                   bLIBHeight := None; bbestHeight := None |}
  end.

Definition sinkAccepts (env : Env) : Prop := ∀ t r, dbInsert env t r = None.

(** The results handed to [dbOperator.insert], in order. *)
Fixpoint inserts (evs : list Event) : list FetchResult :=
  match evs with
  | [] => []
  | EvInsert r :: rest => r :: inserts rest
  | _ :: rest => inserts rest
  end.

(** The height lists of the calls of [queryBlockAndTxs], in order. *)
Fixpoint fetches (evs : list Event) : list (list Z) :=
  match evs with
  | [] => []
  | EvFetch hs :: rest => hs :: fetches rest
  | _ :: rest => fetches rest
  end.

(** The [k] slices [list.slice(i, i + m)], [list.slice(i + m, i + 2m)], ... *)
Fixpoint missingChunks (k : nat) (missing : list Z) (m i : Z) : list (list Z) :=
  match k with
  | O => []
  | S k' => slice missing i (i + m) :: missingChunks k' missing m (i + m)
  end.

(** One round of a backfill loop: a fetch of [chunk], its batches, and the
    insert of a result built from [chunk]. *)
Definition fetchInsertRound (env : Env) (c : Config) (ty : QueryType)
    (chunk : list Z) (seg : list Event) : Prop :=
  ∃ (batches : list (list Z)) (r : FetchResult),
    seg = EvFetch chunk :: map EvQueryBatch batches ++ [EvInsert r]
    ∧ concat batches = chunk
    ∧ resultFor env c ty chunk r.

(** The heights a tick fetches: in ALL mode the finalized and the fresh
    ones, otherwise the whole range. *)
Definition plannedHeights (s : Scanner) (LIB : Z) (heights : list Z) : list Z :=
  if String.eqb (scanMode (config s)) "all"
  then LIBHeights LIB heights ++ bestHeights s LIB heights
  else heights.

(** The world in which the tick goes on after its status read. *)
Definition afterStatus (w : World) (st : ChainStatus) : World :=
  {| this := incr_loopTimes (this w); clock := S (clock w);
     trace := trace w ++ [EvChainStatus st] |}.

(** Events other than the two cleanup calls of the error path. *)
Definition notCleanup (e : Event) : Prop :=
  match e with
  | EvEndTimer | EvDestroy => False
  | _ => True
  end.

Definition samePhase (s s' : Scanner) : Prop :=
  currentPhase s' = currentPhase s ∧ config s' = config s.

Definition sameConfig (s s' : Scanner) : Prop := config s' = config s.

(** The [LIBHeight] and [bestHeight] a result carries. *)
Definition tagsOf (r : FetchResult) : option Z * option Z :=
  match r with
  | AllR a => (LIBHeight a, bestHeight a)
  | BloomR b => (bLIBHeight b, bbestHeight b)
  end.

Definition libOf (st : ChainStatus) : Z := LastIrreversibleBlockHeight st.

(** The LIB height of the last status read in [evs], [lib] if there is none. *)
Fixpoint lastLIB (lib : Z) (evs : list Event) : Z :=
  match evs with
  | [] => lib
  | EvChainStatus st :: rest => lastLIB (libOf st) rest
  | _ :: rest => lastLIB lib rest
  end.

(** Every result inserted in [evs] carries [best] and the LIB height of
    the latest status read before its insert ([lib] before the first). *)
Fixpoint gapTagged (best lib : Z) (evs : list Event) : Prop :=
  match evs with
  | [] => True
  | EvChainStatus st :: rest => gapTagged best (libOf st) rest
  | EvInsert r :: rest => tagsOf r = (Some lib, Some best) ∧ gapTagged best lib rest
  | _ :: rest => gapTagged best lib rest
  end.

Fixpoint countEvent (p : Event → bool) (evs : list Event) : nat :=
  match evs with
  | [] => O
  | e :: rest => ((if p e then 1 else 0) + countEvent p rest)%nat
  end.

Definition isEndTimer (e : Event) : bool :=
  match e with EvEndTimer => true | _ => false end.

Definition isDestroy (e : Event) : bool :=
  match e with EvDestroy => true | _ => false end.

Definition duplicatedError : JsError :=
  ConfigError "duplicated listener names are not allowed".

(** The heights [a], [a + 1], ..., [a + n - 1]. *)
Definition heightRange (a : Z) (n : nat) : list Z :=
  map (fun k => a + Z.of_nat k) (seq 0 n).

(** The height lists of [k] rounds of the gap loop from index [i], when
    the LIB height stays at [L]. *)
Fixpoint gapChunks (k : nat) (start m i L : Z) : list (list Z) :=
  match k with
  | O => []
  | S k' =>
      heightRange (start + i) (Z.to_nat (Z.min m (L - start - i + 1)))
      :: gapChunks k' start m (i + m) L
  end.

(** Every status read answers, with LIB height [L]. *)
Definition steadyLIB (env : Env) (L : Z) : Prop :=
  ∀ t, ∃ st, chainStatus env t = inr st ∧ libOf st = L.

(** One round of the gap loop at LIB height [L]: fetch, insert of the
    tagged result, status read. *)
Definition gapRound (env : Env) (c : Config) (L best : Z)
    (chunk : list Z) (seg : list Event) : Prop :=
  ∃ (batches : list (list Z)) (r : FetchResult) (st : ChainStatus),
    seg = EvFetch chunk :: map EvQueryBatch batches
          ++ [EvInsert (tagHeights L best r); EvChainStatus st]
    ∧ resultFor env c GAP chunk r
    ∧ libOf st = L.

(** * Concrete inputs *)

Definition blockAt (h : Z) : Block :=
  {| Header := {| Height := h |}; BlockHash := "" |}.

(** A chain whose status reads are given by [statuses] and which returns,
    for height [h], the block of height [h] without transactions; the sink
    accepts everything. *)
Definition chainOf (statuses : nat → JsError + ChainStatus) : Env :=
  {| chainStatus := statuses;
     queryTransactionsByHeight := fun _ h => inr (blockAt h, []);
     queryBlocksAndTxsByBloom := fun _ _ _ => inr None;
     dbInit := fun _ => None;
     dbInsert := fun _ _ => None |}.

Definition status (best lib : Z) : ChainStatus :=
  {| BestChainHeight := best; LastIrreversibleBlockHeight := lib |}.

Definition theSink : DbOperator := {| instanceofDBBaseOperation := true |}.

(** The scanner as the constructor leaves it for configuration [c]. *)
Definition scannerOf (c : Config) : Scanner :=
  {| config := c; currentPhase := INIT; currentQueries := startHeight c;
     lastBestHeight := None;
     lastLoopResult := {| blocks := []; txs := []; type := None;
                          LIBHeight := None; bestHeight := None |};
     loopTimes := 0 |}.

Definition worldOf (s : Scanner) : World := {| this := s; clock := 0; trace := [] |}.

(** The default options with [maxInsert = 10]. *)
Definition smallBatches : Config :=
  {| interval := 4000; txResultsPageSize := 100; concurrentQueryLimit := 40;
     startHeight := 1; missingHeightList := []; scanMode := "all"; listeners := [];
     maxInsert := 10; unconfirmedBlockBuffer := 60; minedSpeed := 2; loopCoef := 6 # 10 |}.

(** The heights of the blocks of an inserted result. *)
Definition insertedHeights (r : FetchResult) : list Z :=
  match r with
  | AllR a => map heightOf (blocks a)
  | BloomR b => []
  end.

(** The LIB height is [5] at the first status read and [20] afterwards. *)
Definition advancingLIB : Env :=
  chainOf (fun t => inr (if (t =? 0)%nat then status 25 5 else status 25 20)).

Fixpoint statusReads (evs : list Event) : list ChainStatus :=
  match evs with
  | [] => []
  | EvChainStatus st :: rest => st :: statusReads rest
  | _ :: rest => statusReads rest
  end.

(** The chain answers the calls made by [start] and fails from the first
    tick on. *)
Definition failsInLoop : Env :=
  chainOf (fun t => if (t <? 3)%nat then inr (status 1 1)
                    else inl (CollaboratorError "chain unreachable")).

(** The best height is [30] at the first status read and [40] afterwards. *)
Definition risingBest : Env :=
  chainOf (fun t => inr (if (t =? 0)%nat then status 30 15 else status 40 15)).

(** A scanner in the loop with the given cursor. *)
Definition inLoop (c : Config) (queries : Z) (lastBest : option Z) : Scanner :=
  {| config := c; currentPhase := LOOP; currentQueries := queries;
     lastBestHeight := lastBest;
     lastLoopResult := {| blocks := []; txs := []; type := None;
                          LIBHeight := None; bestHeight := None |};
     loopTimes := 0 |}.

(** The default options with [interval = 10000], [minedSpeed = 5] and
    [loopCoef = 1.1]. *)
Definition roundedUp : Config :=
  {| interval := 10000; txResultsPageSize := 100; concurrentQueryLimit := 40;
     startHeight := 1; missingHeightList := []; scanMode := "all"; listeners := [];
     maxInsert := 200; unconfirmedBlockBuffer := 60; minedSpeed := 5; loopCoef := 11 # 10 |}.

Definition twoListenersOneTag : list Listener :=
  [ {| tag := "transfer"; filter_id := "f1" |}; {| tag := "transfer"; filter_id := "f2" |} ].

Definition optionsWithListeners (mode : option string) (ls : list Listener) : Options :=
  {| o_interval := None; o_txResultsPageSize := None; o_concurrentQueryLimit := None;
     o_startHeight := None; o_missingHeightList := None; o_scanMode := mode;
     o_listeners := Some ls; o_maxInsert := None; o_unconfirmedBlockBuffer := None;
     o_minedSpeed := None; o_loopCoef := None |}.

Definition withTxs (hs : list Z) : AllResult :=
  {| blocks := map blockAt hs; txs := map (fun _ => Some []) hs; type := Some LOOP;
     LIBHeight := None; bestHeight := None |}.

(** The previous cycle kept the heights 98, 100, 102, 104 and 105. *)
Definition mergingScanner : Scanner :=
  {| config := defaultOptions; currentPhase := LOOP; currentQueries := 100;
     lastBestHeight := Some 105;
     lastLoopResult := withTxs [98; 100; 102; 104; 105];
     loopTimes := 1 |}.

(** Batches of two. *)
Definition twoAtATime : Config :=
  {| interval := 4000; txResultsPageSize := 100; concurrentQueryLimit := 2;
     startHeight := 1; missingHeightList := [5; 6; 7; 8]; scanMode := "all";
     listeners := []; maxInsert := 2; unconfirmedBlockBuffer := 60; minedSpeed := 2;
     loopCoef := 6 # 10 |}.

Definition quietChain : Env := chainOf (fun _ => inr (status 40 30)).

Definition tagA : string := "A".
Definition tagB : string := "B".

Definition twoListeners : Config :=
  {| interval := 4000; txResultsPageSize := 100; concurrentQueryLimit := 40;
     startHeight := 1; missingHeightList := []; scanMode := "listener";
     listeners := [ {| tag := tagA; filter_id := "fa" |}; {| tag := tagB; filter_id := "fb" |} ];
     maxInsert := 200; unconfirmedBlockBuffer := 60; minedSpeed := 2; loopCoef := 6 # 10 |}.

Definition blockAB (h : Z) : TaggedBlock :=
  {| tbHeight := h; tbHash := ""; scanTags := [tagA; tagB] |}.
Definition txOnlyA : TaggedTransaction := {| txId := "ta"; txScanTags := [tagA] |}.
Definition txOnlyB : TaggedTransaction := {| txId := "tb"; txScanTags := [tagB] |}.

(** Every block is tagged [A] and [B] and holds one transaction tagged
    [A] and one tagged [B]. *)
Definition taggedChain : Env :=
  {| chainStatus := fun _ => inr (status 40 30);
     queryTransactionsByHeight := fun _ h => inr (blockAt h, []);
     queryBlocksAndTxsByBloom := fun _ h _ => inr (Some (blockAB h, [txOnlyA; txOnlyB]));
     dbInit := fun _ => None;
     dbInsert := fun _ _ => None |}.

(** A chain without blocks (best height [0]) that then reaches height [3]:
    the status reads of [start] and of the first tick say [0], the later
    ones [3]. *)
Definition youngChain : Env :=
  chainOf (fun t => inr (if (t <? 5)%nat then status 0 0 else status 3 0)).

(** * Vocabulary of the further properties *)

(** The default options with [concurrentQueryLimit = 0]. *)
Definition noConcurrency : Config :=
  {| interval := 4000; txResultsPageSize := 100; concurrentQueryLimit := 0;
     startHeight := 1; missingHeightList := []; scanMode := "all"; listeners := [];
     maxInsert := 200; unconfirmedBlockBuffer := 60; minedSpeed := 2; loopCoef := 6 # 10 |}.

(** The default options with [maxInsert = 0]. *)
Definition noBatch : Config :=
  {| interval := 4000; txResultsPageSize := 100; concurrentQueryLimit := 40;
     startHeight := 1; missingHeightList := []; scanMode := "all"; listeners := [];
     maxInsert := 0; unconfirmedBlockBuffer := 60; minedSpeed := 2; loopCoef := 6 # 10 |}.

(** The default options with a scan mode that is neither [all] nor
    [listener], and two missing heights. *)
Definition unknownMode : Config :=
  {| interval := 4000; txResultsPageSize := 100; concurrentQueryLimit := 40;
     startHeight := 1; missingHeightList := [7; 9]; scanMode := "bloom"; listeners := [];
     maxInsert := 200; unconfirmedBlockBuffer := 60; minedSpeed := 2; loopCoef := 6 # 10 |}.

(** The heights of the blocks of a result. *)
Definition blockHeights (r : AllResult) : list Z := map heightOf (blocks r).

(** [blocks[i]] and [txs[i]] exist for the same indices. *)
Definition aligned (r : AllResult) : Prop := length (txs r) = length (blocks r).

(** A scanner deep in the loop of a long chain. *)
Definition midChain : Scanner :=
  {| config := defaultOptions; currentPhase := LOOP; currentQueries := 100;
     lastBestHeight := Some 105;
     lastLoopResult := {| blocks := []; txs := []; type := None;
                          LIBHeight := None; bestHeight := None |};
     loopTimes := 3 |}.

(** A sink that refuses every insert. *)
Definition refusingSink : Env :=
  {| chainStatus := fun _ => inr (status 40 35);
     queryTransactionsByHeight := fun _ h => inr (blockAt h, []);
     queryBlocksAndTxsByBloom := fun _ _ _ => inr None;
     dbInit := fun _ => None;
     dbInsert := fun _ _ => Some (CollaboratorError "sink down") |}.

(** The LIB height is [103] and the best height [112]. *)
Definition laterChain : Env := chainOf (fun _ => inr (status 112 103)).

(** The events of the backfill phases and of a tick. *)
Definition isPhaseEvent (e : Event) : Prop :=
  match e with
  | EvChainStatus _ | EvFetch _ | EvQueryBatch _ | EvInsert _ => True
  | _ => False
  end.

(** One listener, for tag [A] only. *)
Definition onlyListenerA : Config :=
  {| interval := 4000; txResultsPageSize := 100; concurrentQueryLimit := 40;
     startHeight := 1; missingHeightList := []; scanMode := "listener";
     listeners := [ {| tag := tagA; filter_id := "fa" |} ];
     maxInsert := 200; unconfirmedBlockBuffer := 60; minedSpeed := 2; loopCoef := 6 # 10 |}.

(** An answered block carries a tag that no listener has. *)
Definition foreignTag (ls : list Listener)
    (rs : list (option (TaggedBlock * list TaggedTransaction))) : Prop :=
  ∃ b ts x, Some (b, ts) ∈ rs ∧ x ∈ scanTags b ∧ x ∉ map tag ls.

(** [w'] is reached from [w] by ticks run one after the other, each of
    which returns or fails (a tick that fails is not caught anywhere:
    the timer goes on). *)
Inductive afterTicks (env : Env) (fuel : nat) : World → World → Prop :=
  | afterTicks_refl (w : World) : afterTicks env fuel w w
  | afterTicks_returns (w w1 w2 : World) :
      tick env fuel w = Done tt w1 → afterTicks env fuel w1 w2 → afterTicks env fuel w w2
  | afterTicks_fails (w w1 w2 : World) (e : JsError) :
      tick env fuel w = Thrown e w1 → afterTicks env fuel w1 w2 → afterTicks env fuel w w2.

(** An event that is not a fetch of a height at or below [c]. *)
Definition fetchAbove (c : Z) (e : Event) : Prop :=
  match e with
  | EvFetch hs => Forall (fun h => c < h) hs
  | _ => True
  end.

(** The LIB height is [1] and the best height [5], but the second status
    read fails. *)
Definition failsOnce : Env :=
  chainOf (fun t => if (t =? 1)%nat then inl (CollaboratorError "chain unreachable")
                    else inr (status 5 1)).

(** * Properties *)

(** ** ResultMerger *)

Lemma retained_spec LIB lastBest b :
  retained LIB lastBest b = true ↔ LIB < heightOf b ≤ toNumber lastBest.
Proof. unfold retained, heightOf. rewrite andb_true_iff, Z.ltb_lt, Z.leb_le. tauto. Qed.

Lemma retainLast_blocks LIB lastBest index bs lastTxs :
  (retainLast LIB lastBest index bs lastTxs).1
  = filter (fun b => LIB < heightOf b ≤ toNumber lastBest) bs.
Proof.
  revert index. induction bs as [|b bs IH]; intros index; simpl; [done|].
  specialize (IH (S index)).
  destruct (retainLast LIB lastBest (S index) bs lastTxs) as [bs' ts'] eqn:E. simpl in IH.
  rewrite filter_cons. destruct (retained LIB lastBest b) eqn:R.
  - rewrite decide_True by (by apply retained_spec). simpl. by f_equal.
  - rewrite decide_False; [done|]. rewrite <- retained_spec. congruence.
Qed.

Lemma retainLast_txs LIB lastBest front bs lastTxs :
  (retainLast LIB lastBest (length front) bs lastTxs).2
  = map (fun i => default undefined (lastTxs !! i))
      (filter (fun i => keptIndex LIB lastBest (front ++ bs) i = true)
         (seq (length front) (length bs))).
Proof.
  revert front. induction bs as [|b bs IH]; intros front; simpl; [done|].
  specialize (IH (front ++ [b])).
  rewrite length_app, Nat.add_1_r, <- app_assoc in IH. simpl in IH.
  destruct (retainLast LIB lastBest (S (length front)) bs lastTxs) as [bs' ts'] eqn:E.
  simpl in IH. rewrite filter_cons.
  assert (K : keptIndex LIB lastBest (front ++ b :: bs) (length front)
              = retained LIB lastBest b).
  { unfold keptIndex. by rewrite list_lookup_middle. }
  rewrite K. destruct (retained LIB lastBest b).
  - rewrite decide_True by done. simpl. by f_equal.
  - rewrite decide_False by done. done.
Qed.

Lemma ascending_StronglySorted hs : ascending hs ↔ StronglySorted Z.lt hs.
Proof.
  split.
  - intros H. apply Sorted_StronglySorted; [apply _|].
    induction hs as [|x hs IH]; [constructor|].
    constructor.
    + apply IH. intros i a b Ha Hb. exact (H (S i) a b Ha Hb).
    + destruct hs as [|y hs]; constructor. exact (H 0%nat x y eq_refl eq_refl).
  - intros H. induction H as [|x hs Hs IH Hx]; intros i a b Ha Hb.
    + done.
    + destruct i as [|i]; simpl in *.
      * injection Ha as <-. rewrite Forall_forall in Hx. apply Hx.
        by eapply list_elem_of_lookup_2.
      * by eapply IH.
Qed.

Lemma StronglySorted_lt_NoDup hs : StronglySorted Z.lt hs → NoDup hs.
Proof.
  induction 1 as [|x hs Hs IH Hx]; constructor; [|done].
  intros Hin. rewrite Forall_forall in Hx. specialize (Hx x Hin). lia.
Qed.

Lemma zip_take {A B} (n : nat) (l : list A) (k : list B) :
  zip (take n l) (take n k) = take n (zip l k).
Proof. revert l k. induction n; intros [|??] [|??]; simpl; f_equal; auto. Qed.

Lemma zip_drop {A B} (n : nat) (l : list A) (k : list B) :
  zip (drop n l) (drop n k) = drop n (zip l k).
Proof.
  revert l k. induction n; intros [|??] [|??]; simpl; auto.
  by rewrite zip_with_nil_r.
Qed.

Lemma retainLast_zip LIB lastBest frontT bs ts :
  length ts = length bs →
  zip (retainLast LIB lastBest (length frontT) bs (frontT ++ ts)).1
      (retainLast LIB lastBest (length frontT) bs (frontT ++ ts)).2
  = filter (fun p => LIB < heightOf p.1 ≤ toNumber lastBest) (zip bs ts)
  ∧ length (retainLast LIB lastBest (length frontT) bs (frontT ++ ts)).1
    = length (retainLast LIB lastBest (length frontT) bs (frontT ++ ts)).2.
Proof.
  revert frontT ts. induction bs as [|b bs IH]; intros frontT [|t ts] Hlen;
    simplify_eq/=; [done|].
  specialize (IH (frontT ++ [t]) ts Hlen).
  rewrite length_app, Nat.add_1_r, <- app_assoc in IH. simpl in IH.
  destruct (retainLast LIB lastBest (S (length frontT)) bs (frontT ++ t :: ts))
    as [bs' ts'] eqn:E.
  simpl in IH. destruct IH as [IHz IHl]. rewrite filter_cons. simpl.
  destruct (retained LIB lastBest b) eqn:R.
  - rewrite decide_True by (by apply retained_spec). simpl.
    rewrite list_lookup_middle by done. simpl. split; by f_equal.
  - rewrite decide_False; [done|]. rewrite <- retained_spec. congruence.
Qed.

(** C1. When the previous result holds a block, [mergeResult] returns the
    first [preHeightsLength] fresh blocks, then the blocks of the previous
    result with [LIB < height <= lastBestHeight] in their order, then the
    other fresh blocks; [txs] is built by the same selection of indices
    (so block/txs pairs stay together when both inputs are aligned); and
    when the prefix is ascending and at most [LIB], the previous result is
    ascending and the suffix is ascending and above
    [max(lastBestHeight, LIB)], the merged heights are strictly ascending
    and without duplicates. *)
Theorem mergeResult_three_segments (s : Scanner) (fresh : AllResult)
    (preHeightsLength afterHeightsLength : nat) (LIB : Z) (lastBest : option Z) :
  blocks (lastLoopResult s) ≠ [] →
  let prev := lastLoopResult s in
  let merged := mergeResult s fresh preHeightsLength afterHeightsLength LIB lastBest in
  let keep := fun b => LIB < heightOf b ≤ toNumber lastBest in
  blocks merged
    = take preHeightsLength (blocks fresh) ++ filter keep (blocks prev)
      ++ drop preHeightsLength (blocks fresh)
  ∧ txs merged
    = take preHeightsLength (txs fresh)
      ++ map (fun i => default undefined (txs prev !! i))
           (keptIndices LIB lastBest (blocks prev))
      ++ drop preHeightsLength (txs fresh)
  ∧ (length (txs fresh) = length (blocks fresh) →
     length (txs prev) = length (blocks prev) →
     zip (blocks merged) (txs merged)
     = take preHeightsLength (zip (blocks fresh) (txs fresh))
       ++ filter (fun p => keep p.1) (zip (blocks prev) (txs prev))
       ++ drop preHeightsLength (zip (blocks fresh) (txs fresh)))
  ∧ (ascending (map heightOf (take preHeightsLength (blocks fresh))) →
     Forall (fun b => heightOf b ≤ LIB) (take preHeightsLength (blocks fresh)) →
     ascending (map heightOf (blocks prev)) →
     ascending (map heightOf (drop preHeightsLength (blocks fresh))) →
     Forall (fun b => Z.max (toNumber lastBest) LIB < heightOf b)
       (drop preHeightsLength (blocks fresh)) →
     ascending (map heightOf (blocks merged))
     ∧ NoDup (map heightOf (blocks merged))).
Proof.
  intros Hne prev merged keep.
  assert (Hb : blocks merged
    = take preHeightsLength (blocks fresh) ++ filter keep (blocks prev)
      ++ drop preHeightsLength (blocks fresh)).
  { subst merged. unfold mergeResult.
    destruct (blocks (lastLoopResult s)) as [|b0 bs0] eqn:Eb; [done|].
    rewrite <- Eb. replace (length (blocks (lastLoopResult s)) =? 0)%nat with false
      by (rewrite Eb; done).
    pose proof (retainLast_blocks LIB lastBest 0 (blocks (lastLoopResult s))
                  (txs (lastLoopResult s))) as Hr.
    destruct (retainLast LIB lastBest 0 _ _) as [lb lt]. simpl in *. by rewrite Hr. }
  assert (Ht : txs merged
    = take preHeightsLength (txs fresh)
      ++ (retainLast LIB lastBest 0 (blocks prev) (txs prev)).2
      ++ drop preHeightsLength (txs fresh)).
  { subst merged prev. unfold mergeResult.
    destruct (blocks (lastLoopResult s)) as [|b0 bs0] eqn:Eb; [done|].
    rewrite <- Eb. replace (length (blocks (lastLoopResult s)) =? 0)%nat with false
      by (rewrite Eb; done).
    destruct (retainLast LIB lastBest 0 _ _) as [lb lt]. done. }
  split; [exact Hb|]. split; [|split].
  - rewrite Ht. do 2 f_equal.
    exact (retainLast_txs LIB lastBest [] (blocks prev) (txs prev)).
  - intros Hf Hp. rewrite Hb, Ht.
    destruct (retainLast_zip LIB lastBest [] (blocks prev) (txs prev) Hp) as [Hz Hl].
    simpl in Hz, Hl. rewrite <- (retainLast_blocks LIB lastBest 0 _ (txs prev)).
    rewrite zip_with_app by (rewrite !length_take; lia).
    rewrite zip_with_app by exact Hl.
    by rewrite zip_take, zip_drop, Hz.
  - intros Hpre Hprele Hprev Hsuf Hsufgt.
    assert (Hs : StronglySorted Z.lt (map heightOf (blocks merged))).
    { rewrite Hb, !map_app. apply ascending_StronglySorted in Hpre, Hprev, Hsuf.
      assert (Hmid : StronglySorted Z.lt (map heightOf (filter keep (blocks prev)))).
      { clear -Hprev. induction (blocks prev) as [|b bs IH]; [constructor|].
        simpl in Hprev. apply StronglySorted_cons in Hprev as [Hall Hs].
        rewrite filter_cons. destruct (decide (keep b)); [|by apply IH].
        simpl. apply StronglySorted_cons. split; [|by apply IH].
        rewrite Forall_forall in Hall. apply Forall_forall. intros x Hx.
        apply Hall. apply list_elem_of_fmap in Hx as (b' & -> & Hb').
        apply list_elem_of_fmap. exists b'. split; [done|].
        by apply list_elem_of_filter in Hb' as [_ ?]. }
      rewrite Forall_forall in Hprele. rewrite Forall_forall in Hsufgt.
      apply StronglySorted_app. split; [|split; [done|]].
      - intros x y Hx Hy. apply list_elem_of_fmap in Hx as (bx & -> & Hbx).
        specialize (Hprele bx Hbx). apply elem_of_app in Hy as [Hy|Hy].
        + apply list_elem_of_fmap in Hy as (b' & -> & Hb').
          apply list_elem_of_filter in Hb' as [Hk _]. unfold keep in Hk. lia.
        + apply list_elem_of_fmap in Hy as (b' & -> & Hb').
          specialize (Hsufgt b' Hb'). lia.
      - apply StronglySorted_app. split; [|done].
        intros x y Hx Hy. apply list_elem_of_fmap in Hx as (bx & -> & Hbx).
        apply list_elem_of_filter in Hbx as [Hk _]. unfold keep in Hk.
        apply list_elem_of_fmap in Hy as (b' & -> & Hb').
        specialize (Hsufgt b' Hb'). lia. }
    split; [by apply ascending_StronglySorted | by apply StronglySorted_lt_NoDup].
Qed.

(** ** BatchFetcher *)

Lemma slice_chunk {A} (done rest : list A) (limit : Z) :
  0 < limit →
  slice (done ++ rest) (Z.of_nat (length done)) (Z.of_nat (length done) + limit)
  = take (Z.to_nat limit) rest.
Proof.
  intros Hl. unfold slice, relIndex. rewrite length_app.
  destruct (Z.ltb_spec (Z.of_nat (length done)) 0); [lia|].
  destruct (Z.ltb_spec (Z.of_nat (length done) + limit) 0); [lia|].
  replace (Z.to_nat (Z.of_nat (length done) `min` Z.of_nat (length done + length rest)))
    with (length done) by lia.
  rewrite drop_app_length.
  destruct (decide (Z.to_nat limit ≤ length rest)%nat) as [Hle|Hgt].
  - f_equal. lia.
  - rewrite !take_ge by lia. done.
Qed.

Lemma allSettled_ok {A} (f : Z → JsError + A) (hs : list Z) :
  (∀ h, h ∈ hs → ∃ r, f h = inr r) →
  ∃ rs, allSettled (map f hs) = inr rs ∧ Forall2 (fun h r => f h = inr r) hs rs.
Proof.
  induction hs as [|h hs IH]; intros Hok; simpl.
  - exists []. by split.
  - destruct (Hok h) as [r Hr]; [left|]. rewrite Hr.
    destruct IH as (rs & -> & HF); [intros; apply Hok; by right|].
    exists (r :: rs). split; [done|]. by constructor.
Qed.

Lemma queryAllLoop_ok (env : Env) (limit : Z) (fuel : nat) :
  0 < limit →
  ∀ (done rest : list Z) (i : Z) (results : list (list (Block * list Transaction)))
    (w : World),
    allAnswers env rest →
    (length rest < fuel)%nat →
    Z.of_nat (length done) ≤ i →
    (rest ≠ [] → i = Z.of_nat (length done)) →
    ∃ (chunks : list (list Z)) (rs : list (list (Block * list Transaction))) (w' : World),
      queryAllLoop env fuel limit (done ++ rest) i results w = Done (results ++ rs) w'
      ∧ concat chunks = rest
      ∧ Forall (fun c => (0 < length c)%nat ∧ Z.of_nat (length c) ≤ limit) chunks
      ∧ trace w' = trace w ++ map EvQueryBatch chunks
      ∧ this w' = this w
      ∧ clock w' = (clock w + length chunks)%nat
      ∧ answersFor env rest (concat rs).
Proof.
  intros Hlimit. induction fuel as [|fuel IH];
    intros done rest i results w Hok Hfuel Hi Hne; [lia|].
  simpl. rewrite length_app.
  destruct rest as [|h rest'].
  - exists [], [], w.
    destruct (Z.ltb_spec i (Z.of_nat (length done + length (@nil Z)))) as [Hbad|_];
      [simpl in Hbad; lia|].
    rewrite !app_nil_r. repeat split; try done; try constructor.
  - set (rest := h :: rest') in *. rewrite (Hne ltac:(done)).
    destruct (Z.ltb_spec (Z.of_nat (length done))
                (Z.of_nat (length done + length rest))) as [_|Hbad];
      [|simpl in Hbad; lia].
    rewrite slice_chunk by done.
    set (chunk := take (Z.to_nat limit) rest).
    destruct (allSettled_ok (queryTransactionsByHeight env (clock w)) chunk)
      as (answers & Hans & HF2).
    { intros x Hx. apply Hok. eapply subseteq_take; exact Hx. }
    unfold bind at 1. unfold promiseAll, bind, callClock, logEvent. simpl.
    rewrite Hans. simpl.
    assert (Hsplit : done ++ rest = (done ++ chunk) ++ drop (Z.to_nat limit) rest).
    { rewrite <- app_assoc. f_equal. subst chunk. by rewrite take_drop. }
    assert (Hclen : (0 < length chunk)%nat ∧ Z.of_nat (length chunk) ≤ limit).
    { subst chunk. rewrite length_take. subst rest. simpl. lia. }
    rewrite Hsplit.
    edestruct (IH (done ++ chunk) (drop (Z.to_nat limit) rest)
                 (Z.of_nat (length done) + limit) (results ++ [answers]))
      as (chunks & rs & w' & Hrun & Hcat & Hall & Htr & Hth & Hcl & Hfor).
    { intros t x Hx. apply Hok. eapply subseteq_drop; exact Hx. }
    { rewrite length_drop. subst rest. simpl in *. lia. }
    { rewrite length_app. lia. }
    { intros Hd. rewrite length_app. subst chunk. rewrite length_take.
      destruct (decide (Z.to_nat limit < length rest)%nat); [lia|].
      rewrite drop_ge in Hd by lia. done. }
    rewrite Hrun. exists (chunk :: chunks), (answers :: rs), w'.
    rewrite <- app_assoc. simpl in *. repeat split; try done.
    + rewrite Hcat. subst chunk. apply take_drop.
    + by constructor.
    + rewrite Htr, <- app_assoc. done.
    + lia.
    + unfold answersFor. rewrite <- (take_drop (Z.to_nat limit) rest).
      apply Forall2_app; [|exact Hfor].
      eapply Forall2_impl; [exact HF2|]. intros x r Hr. by exists (clock w).
Qed.

(** C7. With a positive [concurrentQueryLimit] and a chain that answers,
    [queryAllBlocksAndTxs] cuts the heights into consecutive non-empty
    chunks of at most [concurrentQueryLimit] heights, issues one batch per
    chunk, one after the other, and returns [blocks] and [txs] of the
    length of the input where position [i] of both holds the answer for
    [heights[i]]; the block heights are then the input heights, ascending
    when the input is. *)
Theorem queryAllBlocksAndTxs_chunks (env : Env) (fuel : nat) (heights : list Z)
    (ty : QueryType) (w : World) :
  0 < concurrentQueryLimit (config (this w)) →
  allAnswers env heights →
  (length heights < fuel)%nat →
  ∃ (chunks : list (list Z)) (rs : list (Block * list Transaction))
    (r : AllResult) (w' : World),
    queryAllBlocksAndTxs env fuel heights ty w = Done r w'
    ∧ concat chunks = heights
    ∧ Forall (fun c => (0 < length c)%nat
                       ∧ Z.of_nat (length c) ≤ concurrentQueryLimit (config (this w))) chunks
    ∧ trace w' = trace w ++ map EvQueryBatch chunks
    ∧ this w' = this w
    ∧ answersFor env heights rs
    ∧ blocks r = map fst rs
    ∧ txs r = map (fun a => Some (snd a)) rs
    ∧ type r = Some ty
    ∧ (∀ (i : nat) (h : Z), heights !! i = Some h →
         ∃ (t : nat) (b : Block) (ts : list Transaction),
           queryTransactionsByHeight env t h = inr (b, ts)
           ∧ blocks r !! i = Some b ∧ txs r !! i = Some (Some ts))
    ∧ (answersAtHeight env →
         map heightOf (blocks r) = heights
         ∧ (ascending heights → ascending (map heightOf (blocks r)))).
Proof.
  intros Hlimit Hok Hfuel.
  destruct (queryAllLoop_ok env (concurrentQueryLimit (config (this w))) fuel Hlimit
              [] heights 0 [] w Hok Hfuel) as (chunks & rs & w' & Hrun & Hcat & Hall & Htr & Hth & _ & Hfor);
    [simpl; lia | done |].
  simpl in Hrun.
  exists chunks, (concat rs).
  eexists. exists w'. unfold queryAllBlocksAndTxs, bind, getThis. simpl. rewrite Hrun. simpl.
  split; [reflexivity|]. simpl. repeat split; try done.
  - intros i h Hi. unfold answersFor in Hfor.
    destruct (Forall2_lookup_l _ _ _ _ _ Hfor Hi) as ([b ts] & Hr & t & Ht).
    exists t, b, ts. split; [done|]. rewrite !list_lookup_fmap, Hr. done.
  - clear -Hfor H. unfold answersFor in Hfor.
    induction Hfor as [|h [b ts] hs rs' (t & Ht) _ IH]; simpl; [done|].
    f_equal; [|exact IH]. by eapply H.
  - intros Hasc. clear -Hfor H Hasc. unfold answersFor in Hfor.
    replace (map heightOf (map fst (concat rs))) with heights; [done|].
    induction Hfor as [|h [b ts] hs rs' (t & Ht) _ IH]; simpl; [done|].
    f_equal; [symmetry; by eapply H|].
    apply IH. intros i x y Hx Hy. exact (Hasc (S i) x y Hx Hy).
Qed.

(** A [concurrentQueryLimit] of [0] never advances the loop index: the
    fetch of a non-empty height list does not return. *)
Lemma queryAllLoop_zero_limit (env : Env) (heights : list Z)
    (results : list (list (Block * list Transaction))) (fuel : nat) (w : World) :
  heights ≠ [] →
  queryAllLoop env fuel 0 heights 0 results w = OutOfFuel.
Proof.
  intros Hne. revert results w. induction fuel as [|fuel IH]; intros results w; [done|].
  simpl. destruct heights as [|h hs]; [done|].
  replace (0 <? Z.of_nat (length (h :: hs))) with true
    by (symmetry; apply Z.ltb_lt; simpl; lia).
  unfold bind at 1. unfold promiseAll, bind, callClock, logEvent. simpl.
  apply IH.
Qed.

Lemma queryBloomLoop_ok (env : Env) (ls : list Listener) (limit : Z) (fuel : nat) :
  0 < limit →
  ∀ (done rest : list Z) (i : Z)
    (results : list (option (TaggedBlock * list TaggedTransaction))) (w : World),
    bloomAnswers env ls rest →
    (length rest < fuel)%nat →
    Z.of_nat (length done) ≤ i →
    (rest ≠ [] → i = Z.of_nat (length done)) →
    ∃ (chunks : list (list Z)) (rs : list (option (TaggedBlock * list TaggedTransaction)))
      (w' : World),
      queryBloomLoop env fuel limit ls (done ++ rest) i results w = Done (results ++ rs) w'
      ∧ concat chunks = rest
      ∧ Forall (fun c => (0 < length c)%nat ∧ Z.of_nat (length c) ≤ limit) chunks
      ∧ trace w' = trace w ++ map EvQueryBatch chunks
      ∧ this w' = this w
      ∧ clock w' = (clock w + length chunks)%nat
      ∧ bloomAnswersFor env ls rest rs.
Proof.
  intros Hlimit. induction fuel as [|fuel IH];
    intros done rest i results w Hok Hfuel Hi Hne; [lia|].
  simpl. rewrite length_app.
  destruct rest as [|h rest'].
  - exists [], [], w.
    destruct (Z.ltb_spec i (Z.of_nat (length done + length (@nil Z)))) as [Hbad|_];
      [simpl in Hbad; lia|].
    rewrite !app_nil_r. repeat split; try done; try constructor.
  - set (rest := h :: rest') in *. rewrite (Hne ltac:(done)).
    destruct (Z.ltb_spec (Z.of_nat (length done))
                (Z.of_nat (length done + length rest))) as [_|Hbad];
      [|simpl in Hbad; lia].
    rewrite slice_chunk by done.
    set (chunk := take (Z.to_nat limit) rest).
    destruct (allSettled_ok (fun v => queryBlocksAndTxsByBloom env (clock w) v ls) chunk)
      as (answers & Hans & HF2).
    { intros x Hx. destruct (Hok (clock w) x) as (r & Hr & _); [|by exists r].
      eapply subseteq_take; exact Hx. }
    unfold bind at 1. unfold promiseAll, bind, callClock, logEvent. simpl.
    rewrite Hans. simpl.
    assert (Hsplit : done ++ rest = (done ++ chunk) ++ drop (Z.to_nat limit) rest).
    { rewrite <- app_assoc. f_equal. subst chunk. by rewrite take_drop. }
    assert (Hclen : (0 < length chunk)%nat ∧ Z.of_nat (length chunk) ≤ limit).
    { subst chunk. rewrite length_take. subst rest. simpl. lia. }
    rewrite Hsplit.
    edestruct (IH (done ++ chunk) (drop (Z.to_nat limit) rest)
                 (Z.of_nat (length done) + limit) (results ++ answers))
      as (chunks & rs & w' & Hrun & Hcat & Hall & Htr & Hth & Hcl & Hfor).
    { intros t x Hx. apply Hok. eapply subseteq_drop; exact Hx. }
    { rewrite length_drop. subst rest. simpl in *. lia. }
    { rewrite length_app. lia. }
    { intros Hd. rewrite length_app. subst chunk. rewrite length_take.
      destruct (decide (Z.to_nat limit < length rest)%nat); [lia|].
      rewrite drop_ge in Hd by lia. done. }
    rewrite Hrun. exists (chunk :: chunks), (answers ++ rs), w'.
    rewrite <- app_assoc. simpl in *. repeat split; try done.
    + rewrite Hcat. subst chunk. apply take_drop.
    + by constructor.
    + rewrite Htr, <- app_assoc. done.
    + lia.
    + unfold bloomAnswersFor. rewrite <- (take_drop (Z.to_nat limit) rest).
      apply Forall2_app; [|exact Hfor].
      eapply Forall2_impl; [exact HF2|]. intros x r Hr. by exists (clock w).
Qed.

Lemma elem_of_concat {A} (x : A) (ls : list (list A)) :
  x ∈ concat ls ↔ ∃ l, x ∈ l ∧ l ∈ ls.
Proof.
  induction ls as [|l ls IH]; simpl.
  - split; [intros []%elem_of_nil | intros (l & _ & []%elem_of_nil)].
  - rewrite elem_of_app, IH. split.
    + intros [Hx|(l' & Hx & Hl)]; [exists l; split; [done|by left]|].
      exists l'. split; [done|by right].
    + intros (l' & Hx & [->|Hl]%elem_of_cons); [by left|]. right. by exists l'.
Qed.

Lemma tagsObj_lookup (tags : list string) (t : string) :
  tagsObj tags !! t = if decide (t ∈ tags) then Some [] else None.
Proof.
  unfold tagsObj.
  assert (G : ∀ acc : gmap string (list BucketEntry),
             foldl (fun acc tag => <[tag := []]> acc) acc tags !! t
             = if decide (t ∈ tags) then Some [] else acc !! t).
  { induction tags as [|x tags IH]; intros acc; cbn [foldl].
    - rewrite decide_False; [done|]. apply not_elem_of_nil.
    - rewrite IH. destruct (decide (t ∈ tags)) as [Hin|Hnin].
      + rewrite decide_True; [done|]. by right.
      + destruct (decide (x = t)) as [->|Hne].
        * rewrite lookup_insert_eq, decide_True; [done|]. by left.
        * rewrite lookup_insert_ne by done. rewrite decide_False; [done|].
          intros [?|?]%elem_of_cons; congruence. }
  rewrite G. by rewrite lookup_empty.
Qed.

Lemma pushBlock_spec (b : TaggedBlock) (ts : list TaggedTransaction) (tags : list string) :
  ∀ acc : gmap string (list BucketEntry),
    (∀ x, x ∈ tags → is_Some (acc !! x)) →
    ∃ acc', pushBlock acc b ts tags = inr acc'
            ∧ ∀ t, acc' !! t
                   = (fun l => l ++ map (fun _ => entryFor t b ts)
                                      (filter (fun x => x = t) tags)) <$> acc !! t.
Proof.
  induction tags as [|x tags IH]; intros acc Hdom; simpl.
  - exists acc. split; [done|]. intros t. destruct (acc !! t); simpl; [|done].
    by rewrite app_nil_r.
  - destruct (Hdom x) as [bucket Hb]; [by left|]. rewrite Hb.
    destruct (IH (<[x := bucket ++ [entryFor x b ts]]> acc)) as (acc' & Hrun & Hlook).
    { intros y Hy. destruct (decide (x = y)) as [->|Hne].
      - rewrite lookup_insert_eq. by eexists.
      - rewrite lookup_insert_ne by done. apply Hdom. by right. }
    exists acc'. split; [exact Hrun|]. intros t. rewrite Hlook, filter_cons.
    destruct (decide (x = t)) as [->|Hne].
    + rewrite lookup_insert_eq, Hb. simpl. by rewrite <- app_assoc.
    + by rewrite lookup_insert_ne.
Qed.

Lemma bucketize_spec (tags : list string)
    (rs : list (option (TaggedBlock * list TaggedTransaction))) :
  Forall (fun r => ∀ b ts, r = Some (b, ts) → ∀ x, x ∈ scanTags b → x ∈ tags) rs →
  ∀ acc : gmap string (list BucketEntry),
    (∀ x, x ∈ tags → is_Some (acc !! x)) →
    ∃ acc', bucketize acc rs = inr acc'
            ∧ ∀ t, acc' !! t = (fun l => l ++ concat (map (entriesOf t) rs)) <$> acc !! t.
Proof.
  induction 1 as [|r rs Hr _ IH]; intros acc Hdom; simpl.
  - exists acc. split; [done|]. intros t. destruct (acc !! t); simpl; [|done].
    by rewrite app_nil_r.
  - destruct r as [[b ts]|].
    + destruct (pushBlock_spec b ts (scanTags b) acc) as (acc1 & Hp & Hl1).
      { intros x Hx. apply Hdom. by eapply Hr. }
      rewrite Hp. destruct (IH acc1) as (acc' & Hrun & Hlook).
      { intros x Hx. rewrite Hl1. destruct (Hdom x Hx) as [l ->]. by eexists. }
      exists acc'. split; [exact Hrun|]. intros t. rewrite Hlook, Hl1.
      destruct (acc !! t); simpl; [|done]. by rewrite <- app_assoc.
    + destruct (IH acc Hdom) as (acc' & Hrun & Hlook).
      exists acc'. split; [exact Hrun|]. intros t. by rewrite Hlook.
Qed.

(** C8. In LISTENER mode the bucket of every listener tag [t] holds, in
    fetch order, one entry per fetched block whose [scanTags] list [t],
    annotated with exactly the transactions whose [scanTags] include [t];
    there are no other buckets.  So a block tagged [{A, B}] with a
    transaction tagged [{A}] and one tagged [{B}] is in bucket [A] with
    the first transaction only and in bucket [B] with the second only, and
    every entry of a bucket comes from a block that carries the bucket's
    tag: a block without tags is in no bucket, a transaction without the
    tag in no [transactionList] of that bucket. *)
Theorem queryBlockAndTxsWithBloom_buckets (env : Env) (fuel : nat) (heights : list Z)
    (ty : QueryType) (w : World) :
  0 < concurrentQueryLimit (config (this w)) →
  bloomAnswers env (listeners (config (this w))) heights →
  (length heights < fuel)%nat →
  ∃ (rs : list (option (TaggedBlock * list TaggedTransaction)))
    (r : BloomResult) (w' : World),
    queryBlockAndTxsWithBloom env fuel heights ty w = Done r w'
    ∧ bloomAnswersFor env (listeners (config (this w))) heights rs
    ∧ (∀ t, results r !! t
            = if decide (t ∈ map tag (listeners (config (this w))))
              then Some (concat (map (entriesOf t) rs)) else None)
    ∧ (∀ (b : TaggedBlock) (txA txB : TaggedTransaction) (A B : string),
         Some (b, [txA; txB]) ∈ rs →
         A ≠ B →
         (∀ x, x ∈ scanTags b ↔ x = A ∨ x = B) →
         txScanTags txA = [A] →
         txScanTags txB = [B] →
         ∃ bucketA bucketB,
           results r !! A = Some bucketA
           ∧ results r !! B = Some bucketB
           ∧ {| entryBlock := b; transactionList := [txA] |} ∈ bucketA
           ∧ {| entryBlock := b; transactionList := [txB] |} ∈ bucketB)
    ∧ (∀ (t : string) (bucket : list BucketEntry) (e : BucketEntry),
         results r !! t = Some bucket →
         e ∈ bucket →
         t ∈ scanTags (entryBlock e)
         ∧ ∃ ts, Some (entryBlock e, ts) ∈ rs
                 ∧ transactionList e = filter (fun tx => t ∈ txScanTags tx) ts).
Proof.
  intros Hlimit Hok Hfuel.
  set (ls := listeners (config (this w))) in *.
  destruct (queryBloomLoop_ok env ls (concurrentQueryLimit (config (this w))) fuel Hlimit
              [] heights 0 [] w Hok Hfuel)
    as (chunks & rs & w' & Hrun & Hcat & Hall & Htr & Hth & _ & Hfor);
    [simpl; lia | done |].
  simpl in Hrun.
  assert (Htags : Forall (fun r => ∀ b ts, r = Some (b, ts) →
                            ∀ x, x ∈ scanTags b → x ∈ map tag ls) rs).
  { apply Forall_forall. intros r Hr b ts -> x Hx.
    apply list_elem_of_lookup in Hr as [i Hi].
    destruct (Forall2_lookup_r _ _ _ _ _ Hfor Hi) as (h & Hh & t & Ht).
    destruct (Hok t h) as (r' & Hr' & Hsub); [by eapply list_elem_of_lookup_2|].
    rewrite Ht in Hr'. injection Hr' as <-. by eapply Hsub. }
  destruct (bucketize_spec (map tag ls) rs Htags (tagsObj (map tag ls)))
    as (buckets & Hbk & Hlook).
  { intros x Hx. rewrite tagsObj_lookup, decide_True by done. by eexists. }
  assert (Hres : ∀ t, buckets !! t
            = if decide (t ∈ map tag ls) then Some (concat (map (entriesOf t) rs)) else None).
  { intros t. rewrite Hlook, tagsObj_lookup. by destruct (decide (t ∈ map tag ls)). }
  assert (Hin : ∀ t b ts, Some (b, ts) ∈ rs → t ∈ scanTags b →
            buckets !! t = Some (concat (map (entriesOf t) rs))
            ∧ entryFor t b ts ∈ concat (map (entriesOf t) rs)).
  { intros t b ts Hr Ht. rewrite Hres, decide_True.
    2:{ rewrite Forall_forall in Htags. by eapply Htags. }
    split; [done|]. apply elem_of_concat. exists (entriesOf t (Some (b, ts))).
    split; [|apply list_elem_of_fmap; by eexists].
    simpl. apply list_elem_of_fmap. exists t. split; [done|].
    by apply list_elem_of_filter. }
  exists rs. eexists. exists w'.
  unfold queryBlockAndTxsWithBloom, bind, getThis. simpl. fold ls. rewrite Hrun. simpl.
  fold ls. rewrite Hbk. simpl.
  split; [reflexivity|]. simpl. split; [exact Hfor|]. split; [exact Hres|]. split.
  - intros b txA txB A B Hr HAB Htg HA HB.
    destruct (Hin A b [txA; txB] Hr) as [HbA HeA]; [apply Htg; by left|].
    destruct (Hin B b [txA; txB] Hr) as [HbB HeB]; [apply Htg; by right|].
    exists (concat (map (entriesOf A) rs)), (concat (map (entriesOf B) rs)).
    repeat split; try done.
    + replace {| entryBlock := b; transactionList := [txA] |}
        with (entryFor A b [txA; txB]); [done|].
      unfold entryFor. f_equal. rewrite !filter_cons, filter_nil, HA, HB.
      rewrite decide_True by (by left).
      rewrite decide_False; [done|]. intros ?%list_elem_of_singleton. congruence.
    + replace {| entryBlock := b; transactionList := [txB] |}
        with (entryFor B b [txA; txB]); [done|].
      unfold entryFor. f_equal. rewrite !filter_cons, filter_nil, HA, HB.
      rewrite decide_False by (intros ?%list_elem_of_singleton; congruence).
      rewrite decide_True; [done|]. by left.
  - intros t bucket e Hb He. rewrite Hres in Hb.
    destruct (decide (t ∈ map tag ls)); [|done]. injection Hb as <-.
    apply elem_of_concat in He as (l & He & Hl).
    apply list_elem_of_fmap in Hl as (r & -> & Hr).
    destruct r as [[b ts]|]; simpl in He; [|by apply elem_of_nil in He].
    apply list_elem_of_fmap in He as (x & -> & Hx).
    apply list_elem_of_filter in Hx as [-> Hx]. simpl. split; [done|].
    exists ts. by split.
Qed.

Lemma pushBlock_foreign_tag (acc : gmap string (list BucketEntry)) (b : TaggedBlock)
    (ts : list TaggedTransaction) (t : string) (rest : list string) :
  acc !! t = None → pushBlock acc b ts (t :: rest) = inl TypeError.
Proof. intros H. simpl. by rewrite H. Qed.

(** ** Frame rules: what a computation may change *)

Section Frame.

Context (P : Event → Prop) (Q : Scanner → Scanner → Prop).
Context `{!Reflexive Q} `{!Transitive Q}.

Lemma frame_refl w : frame P Q w w.
Proof. split; [done|]. exists []. by rewrite app_nil_r. Qed.

Lemma frame_trans w1 w2 w3 : frame P Q w1 w2 → frame P Q w2 w3 → frame P Q w1 w3.
Proof.
  intros [Hq1 (e1 & Ht1 & Hp1)] [Hq2 (e2 & Ht2 & Hp2)]. split; [by etrans|].
  exists (e1 ++ e2). rewrite Ht2, Ht1, app_assoc. split; [done|]. by apply Forall_app.
Qed.

Lemma preserves_ret {A} (a : A) : preserves P Q (ret a).
Proof. intros w. apply frame_refl. Qed.

Lemma preserves_throw {A} (e : JsError) : preserves P Q (@throw A e).
Proof. intros w. apply frame_refl. Qed.

Lemma preserves_bind {A B} (m : M A) (k : A → M B) :
  preserves P Q m → (∀ a, preserves P Q (k a)) → preserves P Q (bind m k).
Proof.
  intros Hm Hk w. unfold bind. specialize (Hm w). destruct (m w) as [a w1|e w1|]; [|done..].
  specialize (Hk a w1). destruct (k a w1); [| |done]; by eapply frame_trans.
Qed.

Lemma preserves_tryCatch {A} (m : M A) (h : JsError → M A) :
  preserves P Q m → (∀ e, preserves P Q (h e)) → preserves P Q (tryCatch m h).
Proof.
  intros Hm Hh w. unfold tryCatch. specialize (Hm w).
  destruct (m w) as [a w1|e w1|]; [done| |done].
  specialize (Hh e w1). destruct (h e w1); [| |done]; by eapply frame_trans.
Qed.

Lemma preserves_getThis : preserves P Q getThis.
Proof. intros w. apply frame_refl. Qed.

Lemma preserves_callClock : preserves P Q callClock.
Proof. intros w. split; [done|]. exists []. by rewrite app_nil_r. Qed.

Lemma preserves_liftResult {A} (r : JsError + A) : preserves P Q (liftResult r).
Proof. destruct r; [apply preserves_throw | apply preserves_ret]. Qed.

Lemma preserves_logEvent (e : Event) : P e → preserves P Q (logEvent e).
Proof. intros He w. split; [done|]. exists [e]. split; [done|]. by constructor. Qed.

Lemma preserves_setThis (f : Scanner → Scanner) :
  (∀ s, Q s (f s)) → preserves P Q (setThis f).
Proof. intros Hf w. split; [apply Hf|]. exists []. by rewrite app_nil_r. Qed.

End Frame.

Lemma preserves_weaken {A} (P P' : Event → Prop) (Q Q' : Scanner → Scanner → Prop) (m : M A) :
  (∀ e, P e → P' e) → (∀ s s', Q s s' → Q' s s') →
  preserves P Q m → preserves P' Q' m.
Proof.
  intros HP HQ Hm w. specialize (Hm w).
  destruct (m w) as [a w'|e w'|]; [| |done];
    destruct Hm as [Hq (evs & Ht & Hf)]; (split; [by apply HQ|]);
    exists evs; (split; [done|]); eapply Forall_impl; eauto.
Qed.

Ltac frame_step :=
  first
    [ apply preserves_bind; [try apply _ .. | | intros ?]
    | apply preserves_ret; try apply _
    | apply preserves_throw; try apply _
    | apply preserves_getThis; try apply _
    | apply preserves_callClock; try apply _
    | apply preserves_liftResult; try apply _
    | apply preserves_logEvent; simpl; try tauto; try done ].

Lemma preserves_promiseAll {A} (query : nat → Z → JsError + A) (hs : list Z) :
  preserves isQueryEvent eq (promiseAll query hs).
Proof. unfold promiseAll. repeat frame_step. Qed.

Lemma preserves_queryAllLoop env fuel limit heights i results :
  preserves isQueryEvent eq (queryAllLoop env fuel limit heights i results).
Proof.
  revert i results. induction fuel as [|fuel IH]; intros i results; simpl; [by intros w|].
  destruct (i <? Z.of_nat (length heights)); [|frame_step].
  frame_step; [apply preserves_promiseAll | apply IH].
Qed.

Lemma preserves_queryBloomLoop env fuel limit ls heights i results :
  preserves isQueryEvent eq (queryBloomLoop env fuel limit ls heights i results).
Proof.
  revert i results. induction fuel as [|fuel IH]; intros i results; simpl; [by intros w|].
  destruct (i <? Z.of_nat (length heights)); [|frame_step].
  frame_step; [apply preserves_promiseAll | apply IH].
Qed.

Lemma preserves_queryBlockAndTxs env fuel heights ty :
  preserves isQueryEvent eq (queryBlockAndTxs env fuel heights ty).
Proof.
  unfold queryBlockAndTxs. repeat frame_step.
  destruct (String.eqb _ "all").
  { unfold queryAllBlocksAndTxs. repeat frame_step. apply preserves_queryAllLoop. }
  destruct (String.eqb _ "listener").
  { unfold queryBlockAndTxsWithBloom. repeat frame_step. apply preserves_queryBloomLoop. }
  frame_step.
Qed.

(** ** Fetches that complete *)

Lemma queryBlockAndTxs_ok (env : Env) (fuel : nat) (heights : list Z) (ty : QueryType)
    (w : World) :
  validScanMode (config (this w)) →
  0 < concurrentQueryLimit (config (this w)) →
  chainAnswers env (config (this w)) heights →
  (length heights < fuel)%nat →
  ∃ (chunks : list (list Z)) (r : FetchResult) (w' : World),
    queryBlockAndTxs env fuel heights ty w = Done r w'
    ∧ this w' = this w
    ∧ clock w' = (clock w + length chunks)%nat
    ∧ trace w' = trace w ++ EvFetch heights :: map EvQueryBatch chunks
    ∧ concat chunks = heights
    ∧ Forall (fun c => (0 < length c)%nat
                       ∧ Z.of_nat (length c) ≤ concurrentQueryLimit (config (this w))) chunks
    ∧ resultFor env (config (this w)) ty heights r.
Proof.
  intros Hmode Hlimit [Hall Hbloom] Hfuel.
  unfold queryBlockAndTxs, bind, logEvent, getThis. simpl.
  set (w1 := {| this := this w; clock := clock w; trace := trace w ++ [EvFetch heights] |}).
  destruct (String.eqb_spec (scanMode (config (this w))) "all") as [Ha|Hna].
  - destruct (queryAllLoop_ok env (concurrentQueryLimit (config (this w))) fuel Hlimit
                [] heights 0 [] w1 (Hall Ha) Hfuel)
      as (chunks & rs & w' & Hrun & Hcat & Hch & Htr & Hth & Hcl & Hfor);
      [simpl; lia | done |].
    simpl in Hrun. exists chunks. eexists. exists w'.
    unfold queryAllBlocksAndTxs, bind, getThis, ret. simpl. rewrite Hrun.
    split; [reflexivity|]. repeat split; try done.
    + rewrite Htr. simpl. by rewrite <- app_assoc.
    + by exists (concat rs).
  - destruct Hmode as [?|Hl]; [done|].
    rewrite Hl. simpl.
    set (ls := listeners (config (this w))) in *.
    destruct (queryBloomLoop_ok env ls (concurrentQueryLimit (config (this w))) fuel Hlimit
                [] heights 0 [] w1 (Hbloom Hl) Hfuel)
      as (chunks & rs & w' & Hrun & Hcat & Hch & Htr & Hth & Hcl & Hfor);
      [simpl; lia | done |].
    simpl in Hrun.
    assert (Htags : Forall (fun r => ∀ b ts, r = Some (b, ts) →
                              ∀ x, x ∈ scanTags b → x ∈ map tag ls) rs).
    { apply Forall_forall. intros r Hr b ts -> x Hx.
      apply list_elem_of_lookup in Hr as [i Hi].
      destruct (Forall2_lookup_r _ _ _ _ _ Hfor Hi) as (h & Hh & t & Ht).
      destruct (Hbloom Hl t h) as (r' & Hr' & Hsub); [by eapply list_elem_of_lookup_2|].
      fold ls in Hr'. rewrite Ht in Hr'. injection Hr' as <-. by eapply Hsub. }
    destruct (bucketize_spec (map tag ls) rs Htags (tagsObj (map tag ls)))
      as (buckets & Hbk & _).
    { intros x Hx. rewrite tagsObj_lookup, decide_True by done. by eexists. }
    exists chunks. eexists. exists w'.
    unfold queryBlockAndTxsWithBloom, bind, getThis, ret. simpl. fold ls.
    rewrite Hrun. simpl. rewrite Hbk. simpl.
    split; [reflexivity|]. repeat split; try done.
    + rewrite Htr. simpl. by rewrite <- app_assoc.
    + exists rs, buckets. repeat split; done.
Qed.

(** ** Missing-height backfill *)

Lemma slice_from {A} (l : list A) (i m : Z) :
  0 ≤ i ≤ Z.of_nat (length l) → 0 < m →
  slice l i (i + m) = take (Z.to_nat m) (drop (Z.to_nat i) l).
Proof.
  intros Hi Hm.
  pose proof (slice_chunk (take (Z.to_nat i) l) (drop (Z.to_nat i) l) m Hm) as H.
  rewrite take_drop, length_take in H.
  replace (Z.of_nat (Z.to_nat i `min` length l)) with i in H by lia. exact H.
Qed.

Lemma slice_subseteq {A} (l : list A) (i m : Z) :
  0 ≤ i ≤ Z.of_nat (length l) → 0 < m → slice l i (i + m) ⊆ l.
Proof.
  intros Hi Hm. rewrite slice_from by done.
  etrans; [apply subseteq_take | apply subseteq_drop].
Qed.

Lemma chainAnswers_subseteq env c (hs hs' : list Z) :
  hs' ⊆ hs → chainAnswers env c hs → chainAnswers env c hs'.
Proof.
  intros Hsub [Ha Hb]. split; intros Hm t h Hh; [apply (Ha Hm) | apply (Hb Hm)]; auto.
Qed.

Lemma missingLoop_ok (env : Env) (fuel : nat) (s : Scanner) :
  let missing := missingHeightList (config s) in
  let m := maxInsert (config s) in
  let L := Z.of_nat (length missing) in
  0 < m →
  0 < concurrentQueryLimit (config s) →
  validScanMode (config s) →
  chainAnswers env (config s) missing →
  sinkAccepts env →
  (length missing < fuel)%nat →
  ∀ (k n : nat) (i : Z) (w : World),
    this w = s →
    0 ≤ i →
    (i ≤ L → k = (Z.to_nat ((L - i) / m) + 1)%nat) →
    (L < i → k = O) →
    (k < n)%nat →
    ∃ (w' : World) (segs : list (list Event)),
      missingLoop env n fuel i w = Done tt w'
      ∧ this w' = s
      ∧ trace w' = trace w ++ concat segs
      ∧ Forall2 (fetchInsertRound env (config s) MISSING) (missingChunks k missing m i) segs.
Proof.
  intros missing m L Hm Hlimit Hmode Hchain Hsink Hfuel.
  induction k as [|k IH]; intros n i w Hs Hi Hk1 Hk2 Hn;
    (destruct n as [|n]; [lia|]); simpl; unfold bind at 1, getThis at 1; rewrite Hs;
    fold missing; fold m; fold L.
  - destruct (Z.leb_spec i L) as [Hle|Hgt]; [specialize (Hk1 Hle); lia|].
    exists w, []. simpl. rewrite app_nil_r. repeat split; done.
  - destruct (Z.leb_spec i L) as [Hle|Hgt]; [|specialize (Hk2 Hgt); lia].
    specialize (Hk1 Hle).
    set (chunk := slice missing i (i + m)).
    assert (Hsub : chunk ⊆ missing) by (apply slice_subseteq; lia).
    assert (Hlen : (length chunk ≤ length missing)%nat).
    { subst chunk. rewrite slice_from by lia. rewrite length_take, length_drop. lia. }
    destruct (queryBlockAndTxs_ok env fuel chunk MISSING w)
      as (batches & r & w1 & Hrun & Hth & Hcl & Htr & Hcat & _ & Hres);
      try (rewrite Hs; done).
    { rewrite Hs. by eapply chainAnswers_subseteq. }
    { lia. }
    unfold bind at 1. rewrite Hrun.
    unfold bind at 1. unfold dbOperator_insert, bind, callClock, logEvent. simpl.
    rewrite Hsink. simpl.
    set (w2 := {| this := this w1; clock := S (clock w1);
                  trace := trace w1 ++ [EvInsert r] |}).
    destruct (IH n (i + m) w2) as (w' & segs & Hloop & Hth' & Htr' & Hall).
    { simpl. congruence. }
    { lia. }
    { intros Hle'. replace (L - (i + m)) with ((L - i) + (-1) * m) by lia.
      rewrite Z.div_add by lia.
      assert (1 ≤ (L - i) / m) by (apply Z.div_le_lower_bound; lia). lia. }
    { intros Hgt'. rewrite Z.div_small in Hk1 by lia. simpl in Hk1. lia. }
    { lia. }
    rewrite Hloop. exists w', ((EvFetch chunk :: map EvQueryBatch batches ++ [EvInsert r]) :: segs).
    repeat split; try done.
    + rewrite Htr'. subst w2. simpl. rewrite Htr. rewrite <- !app_assoc. done.
    + constructor; [|exact Hall]. exists batches, r. rewrite Hs in Hres. done.
Qed.

Lemma missingChunks_concat (missing : list Z) (m : Z) :
  0 < m →
  ∀ (k : nat) (i : Z),
    0 ≤ i →
    (i ≤ Z.of_nat (length missing) →
     k = (Z.to_nat ((Z.of_nat (length missing) - i) / m) + 1)%nat) →
    (Z.of_nat (length missing) < i → k = O) →
    concat (missingChunks k missing m i) = drop (Z.to_nat i) missing.
Proof.
  intros Hm. induction k as [|k IH]; intros i Hi Hk1 Hk2; simpl.
  - rewrite drop_ge; [done|]. destruct (Z.le_gt_cases i (Z.of_nat (length missing))); [|lia].
    specialize (Hk1 ltac:(done)). lia.
  - destruct (Z.le_gt_cases i (Z.of_nat (length missing))) as [Hle|Hgt];
      [|specialize (Hk2 Hgt); lia].
    specialize (Hk1 Hle). rewrite slice_from by lia. rewrite IH; [|lia|..].
    + replace (Z.to_nat (i + m)) with (Z.to_nat i + Z.to_nat m)%nat by lia.
      rewrite <- drop_drop. apply take_drop.
    + intros Hle'.
      replace (Z.of_nat (length missing) - (i + m))
        with ((Z.of_nat (length missing) - i) + (-1) * m) by lia.
      rewrite Z.div_add by lia.
      assert (1 ≤ (Z.of_nat (length missing) - i) / m)
        by (apply Z.div_le_lower_bound; lia).
      lia.
    + intros Hgt'. rewrite Z.div_small in Hk1 by lia. simpl in Hk1. lia.
Qed.

Lemma missingChunks_last (missing : list Z) (m : Z) (k : nat) (i : Z) :
  last (missingChunks (S k) missing m i)
  = Some (slice missing (i + Z.of_nat k * m) (i + Z.of_nat k * m + m)).
Proof.
  revert i. induction k as [|k IH]; intros i.
  - simpl. do 2 f_equal; lia.
  - change (missingChunks (S (S k)) missing m i)
      with (slice missing i (i + m) :: missingChunks (S k) missing m (i + m)).
    rewrite last_cons, IH. simpl. do 2 f_equal; lia.
Qed.

Lemma inserts_app (e1 e2 : list Event) : inserts (e1 ++ e2) = inserts e1 ++ inserts e2.
Proof. induction e1 as [|[] e1 IH]; simpl; by rewrite ?IH. Qed.

Lemma fetches_app (e1 e2 : list Event) : fetches (e1 ++ e2) = fetches e1 ++ fetches e2.
Proof. induction e1 as [|[] e1 IH]; simpl; by rewrite ?IH. Qed.

Lemma inserts_batches (cs : list (list Z)) : inserts (map EvQueryBatch cs) = [].
Proof. by induction cs. Qed.

Lemma fetches_batches (cs : list (list Z)) : fetches (map EvQueryBatch cs) = [].
Proof. by induction cs. Qed.

Lemma rounds_fetches_inserts env c ty (chunks : list (list Z)) (segs : list (list Event)) :
  Forall2 (fetchInsertRound env c ty) chunks segs →
  fetches (concat segs) = chunks
  ∧ Forall2 (resultFor env c ty) chunks (inserts (concat segs)).
Proof.
  induction 1 as [|chunk seg chunks segs (batches & r & -> & _ & Hr) _ [IHf IHi]]; simpl.
  - split; [done|constructor].
  - rewrite <- app_assoc, fetches_app, inserts_app, fetches_batches, inserts_batches.
    simpl. rewrite IHf. split; [done|]. by constructor.
Qed.

Lemma Forall2_last_rel {A B} (R : A → B → Prop) (l : list A) (k : list B) (x : A) :
  Forall2 R l k → last l = Some x → ∃ y, last k = Some y ∧ R x y.
Proof.
  induction 1 as [|a b l k Hab Hlk IH]; [done|].
  destruct Hlk as [|a' b' l k Hab' Hlk].
  - simpl. intros [= <-]. by exists b.
  - intros Hl. apply IH. exact Hl.
Qed.

(** C9. With [maxInsert = m > 0] and collaborators that answer,
    [queryMissingHeight] makes [floor(L / m) + 1] rounds of fetch and
    insert: round [j] fetches [missingHeightList.slice(j m, j m + m)] and
    inserts the result built from that slice, so the slices, in order,
    make up the whole list, each element in exactly one of them; when [m]
    divides [L] the last round fetches and inserts for the empty list. *)
Theorem queryMissingHeight_rounds (env : Env) (fuel : nat) (w : World) :
  let c := config (this w) in
  let missing := missingHeightList c in
  let m := maxInsert c in
  let L := Z.of_nat (length missing) in
  let chunks := missingChunks (Z.to_nat (L / m) + 1) missing m 0 in
  0 < m →
  0 < concurrentQueryLimit c →
  validScanMode c →
  chainAnswers env c missing →
  sinkAccepts env →
  (length missing + 1 < fuel)%nat →
  ∃ (w' : World) (evs : list Event) (segs : list (list Event)),
    queryMissingHeight env fuel w = Done tt w'
    ∧ this w' = this w
    ∧ trace w' = trace w ++ evs
    ∧ evs = concat segs
    ∧ Forall2 (fetchInsertRound env c MISSING) chunks segs
    ∧ length (inserts evs) = (Z.to_nat (L / m) + 1)%nat
    ∧ fetches evs = chunks
    ∧ Forall2 (resultFor env c MISSING) chunks (inserts evs)
    ∧ concat chunks = missing
    ∧ (L mod m = 0 → last chunks = Some [] ∧ ∃ r, last (inserts evs) = Some r
                                               ∧ resultFor env c MISSING [] r).
Proof.
  intros c missing m L chunks Hm Hlimit Hmode Hchain Hsink Hfuel.
  assert (HL : 0 ≤ L / m ≤ L).
  { split; [apply Z.div_pos; lia|]. apply Z.div_le_upper_bound; [lia|]. nia. }
  assert (Hfuel' : (length (missingHeightList (config (this w))) < fuel)%nat)
    by (unfold missing, c in Hfuel; lia).
  destruct (missingLoop_ok env fuel (this w) Hm Hlimit Hmode Hchain Hsink Hfuel'
              (Z.to_nat (L / m) + 1)%nat fuel 0 w eq_refl ltac:(lia))
    as (w' & segs & Hrun & Hth & Htr & Hall).
  { intros _. fold missing m L. by rewrite Z.sub_0_r. }
  { fold missing L. lia. }
  { fold missing m L. lia. }
  fold missing m L in Hall. fold c in Hall. fold chunks in Hall.
  destruct (rounds_fetches_inserts _ _ _ _ _ Hall) as [Hf Hi].
  exists w', (concat segs), segs. unfold queryMissingHeight.
  split; [done|]. split; [done|]. split; [done|]. split; [done|]. split; [done|].
  split; [|split; [done|split; [done|split]]].
  - apply Forall2_length in Hi. rewrite <- Hi. subst chunks.
    clear. generalize 0. induction (Z.to_nat (L / m) + 1)%nat; intros; simpl; auto.
  - subst chunks. rewrite (missingChunks_concat missing m Hm); [done|lia|..].
    + intros _. fold L. by rewrite Z.sub_0_r.
    + fold L. lia.
  - intros Hmod. assert (Hlast : last chunks = Some []).
    { subst chunks. rewrite Nat.add_1_r, missingChunks_last. f_equal.
      rewrite Z2Nat.id by lia.
      replace (0 + L / m * m) with L by (rewrite (Z.div_mod L m) at 1; lia).
      rewrite slice_from by (fold L; lia). rewrite drop_ge by lia. by rewrite take_nil. }
    split; [exact Hlast|]. by eapply Forall2_last_rel.
Qed.

(** ** The polling loop *)

Lemma tick_unfold (env : Env) (fuel : nat) (w : World) (st : ChainStatus) :
  chainStatus env (clock w) = inr st →
  tick env fuel w
  = if skipTick (incr_loopTimes (this w)) (BestChainHeight st)
    then Done tt (afterStatus w st)
    else tickBody env fuel (BestChainHeight st) (LastIrreversibleBlockHeight st)
           (afterStatus w st).
Proof.
  intros Hst. unfold tick, bind, setThis, getHeight, bind, callClock, liftResult. simpl.
  rewrite Hst. simpl. unfold afterStatus.
  by destruct (skipTick (incr_loopTimes (this w)) (BestChainHeight st)).
Qed.

Lemma tick_status_fails (env : Env) (fuel : nat) (w : World) (e : JsError) :
  chainStatus env (clock w) = inl e →
  tick env fuel w
  = Thrown e {| this := incr_loopTimes (this w); clock := S (clock w); trace := trace w |}.
Proof.
  intros Hst. unfold tick, bind, setThis, getHeight, bind, callClock, liftResult. simpl.
  by rewrite Hst.
Qed.

Lemma skipTick_spec (s : Scanner) (currentHeight : Z) :
  skipTick s currentHeight = true
  ↔ ∃ l, lastBestHeight s = Some l ∧ l ≠ 0
         ∧ leCeil (currentHeight - l) (skipThreshold (config s)) = true.
Proof.
  unfold skipTick, truthy, toNumber. destruct (lastBestHeight s) as [l|]; cbn [default].
  - rewrite andb_true_iff, negb_true_iff, Z.eqb_neq. split.
    + intros [? ?]. by exists l.
    + intros (l' & [= <-] & ? & ?). done.
  - split; [done|]. by intros (l & ? & _).
Qed.

Lemma loopHeights_empty (s : Scanner) (currentHeight : Z) :
  currentHeight ≤ currentQueries s → loopHeights s currentHeight = inr [].
Proof.
  intros Hle. unfold loopHeights, heightsLength.
  destruct (Z.eqb_spec (currentHeight - currentQueries s) 0) as [_|Hne]; [done|].
  destruct (Z.ltb_spec (currentHeight - currentQueries s) 0); [done|lia].
Qed.

Ltac run_step :=
  unfold bind, getThis, setThis, logEvent, callClock, liftResult, ret, throw; simpl.

(** C10. A tick that is not skipped and sees a best height at or below
    [currentQueries] plans the empty height list; with a valid scan mode
    and a sink that accepts, it ends without error after one fetch over
    the empty list and one insert, and moves the cursor. *)
Theorem tick_empty_plan (env : Env) (fuel : nat) (w : World) (st : ChainStatus) :
  chainStatus env (clock w) = inr st →
  skipTick (incr_loopTimes (this w)) (BestChainHeight st) = false →
  BestChainHeight st ≤ currentQueries (this w) →
  validScanMode (config (this w)) →
  sinkAccepts env →
  (0 < fuel)%nat →
  loopHeights (incr_loopTimes (this w)) (BestChainHeight st) = inr []
  ∧ plannedHeights (incr_loopTimes (this w)) (LastIrreversibleBlockHeight st) [] = []
  ∧ ∃ (r : FetchResult) (w' : World),
      tick env fuel w = Done tt w'
      ∧ trace w' = trace w ++ [EvChainStatus st; EvFetch []; EvInsert r]
      ∧ currentQueries (this w') = LastIrreversibleBlockHeight st
      ∧ lastBestHeight (this w') = Some (BestChainHeight st)
      ∧ currentPhase (this w') = currentPhase (this w).
Proof.
  intros Hst Hskip Hle Hmode Hsink Hfuel.
  assert (Hplan : loopHeights (incr_loopTimes (this w)) (BestChainHeight st) = inr [])
    by (by apply loopHeights_empty).
  split; [exact Hplan|]. split.
  { unfold plannedHeights. by destruct (String.eqb _ _). }
  rewrite (tick_unfold env fuel w st Hst), Hskip.
  destruct fuel as [|fuel]; [lia|].
  unfold tickBody. unfold bind at 1, getThis at 1. cbn [this afterStatus].
  rewrite Hplan. unfold bind at 1, liftResult at 1, ret at 1.
  cbn [config incr_loopTimes].
  destruct Hmode as [Ha|Hl].
  - rewrite Ha. simpl. unfold queryBlockAndTxs. run_step. rewrite Ha. simpl.
    unfold queryAllBlocksAndTxs, dbOperator_insert. run_step. rewrite Hsink.
    eexists. eexists. split; [reflexivity|]. simpl.
    rewrite <- !app_assoc. done.
  - rewrite Hl. simpl. unfold queryBlockAndTxs. run_step. rewrite Hl. simpl.
    unfold queryBlockAndTxsWithBloom, dbOperator_insert. run_step. rewrite Hsink.
    eexists. eexists. split; [reflexivity|]. simpl.
    rewrite <- !app_assoc. done.
Qed.

(** ** What the phases leave alone *)

#[local] Instance samePhase_refl : Reflexive samePhase.
Proof. by intros s. Qed.

#[local] Instance samePhase_trans : Transitive samePhase.
Proof. intros s1 s2 s3 [? ?] [? ?]. split; congruence. Qed.

#[local] Instance sameConfig_refl : Reflexive sameConfig.
Proof. by intros s. Qed.

#[local] Instance sameConfig_trans : Transitive sameConfig.
Proof. unfold sameConfig. intros s1 s2 s3 ? ?. congruence. Qed.

Lemma isQueryEvent_notCleanup e : isQueryEvent e → notCleanup e.
Proof. by destruct e. Qed.

Lemma quiet_queryBlockAndTxs env fuel heights ty :
  preserves notCleanup samePhase (queryBlockAndTxs env fuel heights ty).
Proof.
  eapply preserves_weaken; [apply isQueryEvent_notCleanup| |apply preserves_queryBlockAndTxs].
  by intros s s' ->.
Qed.

Lemma quiet_insert env r : preserves notCleanup samePhase (dbOperator_insert env r).
Proof. unfold dbOperator_insert. repeat frame_step. destruct (dbInsert _ _ _); frame_step. Qed.

Lemma quiet_getHeight env : preserves notCleanup samePhase (getHeight env).
Proof. unfold getHeight. repeat frame_step. Qed.

Lemma quiet_setThis (f : Scanner → Scanner) :
  (∀ s, samePhase s (f s)) → preserves notCleanup samePhase (setThis f).
Proof. apply preserves_setThis. Qed.

Ltac quiet_step :=
  first
    [ apply quiet_queryBlockAndTxs
    | apply quiet_insert
    | apply quiet_getHeight
    | apply quiet_setThis; by intros []
    | frame_step ].

Lemma quiet_missingLoop env n fuel i : preserves notCleanup samePhase (missingLoop env n fuel i).
Proof.
  revert i. induction n as [|n IH]; intros i; simpl; [by intros w|].
  repeat quiet_step. destruct (_ <=? _); repeat quiet_step. apply IH.
Qed.

Lemma quiet_gapLoop env n fuel best i cur left :
  preserves notCleanup samePhase (gapLoop env n fuel best i cur left).
Proof.
  revert i cur left. induction n as [|n IH]; intros i cur left; simpl; [by intros w|].
  destruct (_ <=? _); repeat quiet_step. apply IH.
Qed.

Lemma quiet_queryGapHeight env fuel : preserves notCleanup samePhase (queryGapHeight env fuel).
Proof.
  unfold queryGapHeight. repeat quiet_step.
  destruct (_ <=? _); repeat quiet_step. apply quiet_gapLoop.
Qed.

Lemma quiet_tickBody env fuel cur LIB : preserves notCleanup samePhase (tickBody env fuel cur LIB).
Proof.
  unfold tickBody. repeat quiet_step.
  destruct (String.eqb _ "all").
  { repeat quiet_step. match goal with |- context [match ?r with _ => _ end] => destruct r end;
      repeat quiet_step. }
  destruct (String.eqb _ "listener"); repeat quiet_step.
Qed.

Lemma quiet_tick env fuel : preserves notCleanup samePhase (tick env fuel).
Proof.
  unfold tick. repeat quiet_step. destruct (skipTick _ _); [quiet_step|apply quiet_tickBody].
Qed.

Lemma bind_assoc {A B C} (m : M A) (f : A → M B) (g : B → M C) (w : World) :
  bind (bind m f) g w = bind m (fun a => bind (f a) g) w.
Proof. unfold bind. by destruct (m w). Qed.

Lemma first_event {A} (P : Event → Prop) (Q : Scanner → Scanner → Prop)
    (e : Event) (k : unit → M A) (w : World) :
  preserves P Q (k tt) →
  match bind (logEvent e) k w with
  | Done _ w' | Thrown _ w' => ∃ evs, trace w' = trace w ++ e :: evs
  | OutOfFuel => True
  end.
Proof.
  intros Hk. unfold bind, logEvent.
  specialize (Hk {| this := this w; clock := clock w; trace := trace w ++ [e] |}).
  destruct (k tt _) as [a w'|err w'|]; [| |done];
    destruct Hk as [_ (evs & Ht & _)]; exists evs; rewrite Ht; simpl;
    by rewrite <- app_assoc.
Qed.

Lemma quiet_dispatch env fuel heights ty :
  preserves notCleanup samePhase
    (s <- getThis ;;
     if String.eqb (scanMode (config s)) "all" then
       r <- queryAllBlocksAndTxs env fuel heights ty ;; ret (AllR r)
     else if String.eqb (scanMode (config s)) "listener" then
       r <- queryBlockAndTxsWithBloom env fuel heights ty ;; ret (BloomR r)
     else throw InvalidScanMode).
Proof.
  apply preserves_weaken with (P := isQueryEvent) (Q := eq);
    [apply isQueryEvent_notCleanup|by intros ?? ->|].
  apply preserves_bind; [apply _|apply preserves_getThis; apply _|intros s].
  destruct (String.eqb _ "all").
  { unfold queryAllBlocksAndTxs. repeat frame_step. apply preserves_queryAllLoop. }
  destruct (String.eqb _ "listener").
  { unfold queryBlockAndTxsWithBloom. repeat frame_step. apply preserves_queryBloomLoop. }
  frame_step.
Qed.

(** A tick that goes on with a valid scan mode first issues the fetch of
    the planned heights, whatever happens afterwards. *)
Lemma tickBody_fetch_first (env : Env) (fuel : nat) (cur LIB : Z) (w : World)
    (hs : list Z) :
  validScanMode (config (this w)) →
  loopHeights (this w) cur = inr hs →
  match tickBody env fuel cur LIB w with
  | Done _ w' | Thrown _ w' =>
      ∃ evs, trace w' = trace w ++ EvFetch (plannedHeights (this w) LIB hs) :: evs
  | OutOfFuel => True
  end.
Proof.
  intros Hmode Hplan. unfold tickBody, plannedHeights.
  unfold bind at 1, getThis at 1. rewrite Hplan.
  unfold bind at 1, liftResult at 1, ret at 1.
  destruct Hmode as [Ha|Hl].
  - rewrite Ha. simpl String.eqb. cbv iota. unfold queryBlockAndTxs.
    rewrite bind_assoc. rewrite bind_assoc.
    apply (first_event notCleanup samePhase). cbv beta.
    apply preserves_bind; [apply _|apply quiet_dispatch|intros r].
    apply preserves_bind; [apply _| |intros ?].
    + destruct r; [|apply preserves_throw; apply _].
      apply preserves_bind; [apply _|apply preserves_getThis; apply _|intros s1].
      apply preserves_bind; [apply _|apply quiet_insert|intros ?].
      apply quiet_setThis. by intros [].
    + apply preserves_bind; [apply _| |intros ?]; apply quiet_setThis; by intros [].
  - rewrite Hl. simpl String.eqb. cbv iota. unfold queryBlockAndTxs.
    rewrite bind_assoc. rewrite bind_assoc.
    apply (first_event notCleanup samePhase). cbv beta.
    apply preserves_bind; [apply _|apply quiet_dispatch|intros r].
    apply preserves_bind; [apply _|apply quiet_insert|intros ?].
    apply preserves_bind; [apply _| |intros ?]; apply quiet_setThis; by intros [].
Qed.

(** The threshold depends on the three numbers only through the doubles
    they are. *)
Lemma skipThreshold_doubles (c : Config) (i m l : Q) :
  toDouble (interval c) = toDouble i →
  toDouble (minedSpeed c) = toDouble m →
  toDouble (loopCoef c) = toDouble l →
  skipThreshold c
  = Math_ceil (divDouble (mulDouble (mulDouble (toDouble i) (toDouble m)) (toDouble l))
                 (toDouble 1000)).
Proof. intros Hi Hm Hl. unfold skipThreshold. by rewrite Hi, Hm, Hl. Qed.

Lemma leCeil_CeilInt (d z : Z) : leCeil d (CeilInt z) = true ↔ d ≤ z.
Proof. apply Z.leb_le. Qed.

(** C4 (as the code has it).  A tick whose status read answers is skipped
    exactly when [lastBestHeight] is set and not [0] and the best height
    minus [lastBestHeight] is at most the threshold
    [Math.ceil(interval * minedSpeed * loopCoef / 1000)], computed on
    doubles as the code computes it: the tick then ends with no fetch and
    no insert, and leaves [currentQueries], [lastBestHeight] and
    [lastLoopResult] as they were.  Otherwise ([lastBestHeight] is [null]
    or [0], or the difference is above the threshold) the tick runs the
    fetch-and-insert body, and with a valid scan mode its first act is the
    fetch of the planned heights.  For [interval = 4000], [minedSpeed = 2],
    [loopCoef = 0.6] the threshold is [5].  The threshold is not always
    the exact ceiling: for [interval = 10000], [minedSpeed = 5],
    [loopCoef = 1.1] it is [56], because [50000 * 1.1] is a double above
    [55000]. *)
Theorem tick_skip_rule (env : Env) (fuel : nat) (w : World) (st : ChainStatus) :
  chainStatus env (clock w) = inr st →
  let s := this w in
  let cur := BestChainHeight st in
  let threshold := skipThreshold (config s) in
  ((∃ l, lastBestHeight s = Some l ∧ l ≠ 0 ∧ leCeil (cur - l) threshold = true) →
     ∃ w', tick env fuel w = Done tt w'
           ∧ trace w' = trace w ++ [EvChainStatus st]
           ∧ currentQueries (this w') = currentQueries s
           ∧ lastBestHeight (this w') = lastBestHeight s
           ∧ lastLoopResult (this w') = lastLoopResult s)
  ∧ ((lastBestHeight s = None ∨ lastBestHeight s = Some 0
      ∨ ∃ l, lastBestHeight s = Some l ∧ leCeil (cur - l) threshold = false) →
     tick env fuel w
     = tickBody env fuel cur (LastIrreversibleBlockHeight st) (afterStatus w st)
     ∧ (validScanMode (config s) →
        ∀ hs, loopHeights (incr_loopTimes s) cur = inr hs →
              match tick env fuel w with
              | Done _ w' | Thrown _ w' =>
                  ∃ evs, trace w' = trace w ++ EvChainStatus st
                           :: EvFetch (plannedHeights (incr_loopTimes s)
                                         (LastIrreversibleBlockHeight st) hs) :: evs
              | OutOfFuel => True
              end))
  ∧ (toDouble (interval (config s)) = toDouble 4000 →
     toDouble (minedSpeed (config s)) = toDouble 2 →
     toDouble (loopCoef (config s)) = toDouble (6 # 10) →
     threshold = CeilInt 5)
  ∧ (toDouble (interval (config s)) = toDouble 10000 →
     toDouble (minedSpeed (config s)) = toDouble 5 →
     toDouble (loopCoef (config s)) = toDouble (11 # 10) →
     threshold = CeilInt 56).
Proof.
  intros Hst s cur threshold. split; [|split; [|split]].
  - intros Hskip. apply (skipTick_spec (incr_loopTimes s) cur) in Hskip.
    rewrite (tick_unfold env fuel w st Hst). fold cur s. rewrite Hskip.
    exists (afterStatus w st). by repeat split.
  - intros Hgo.
    assert (Hno : skipTick (incr_loopTimes s) cur = false).
    { destruct (skipTick (incr_loopTimes s) cur) eqn:E; [|done].
      apply skipTick_spec in E as (l & Hl & Hne & Hle). simpl in Hl, Hle.
      fold threshold in Hle.
      destruct Hgo as [Hn|[Hz|(l' & Hl' & Hgt)]]; [congruence|congruence|].
      rewrite Hl in Hl'. injection Hl' as <-. congruence. }
    rewrite (tick_unfold env fuel w st Hst). fold cur s. rewrite Hno.
    split; [done|]. intros Hmode hs Hplan.
    pose proof (tickBody_fetch_first env fuel cur (LastIrreversibleBlockHeight st)
                  (afterStatus w st) hs Hmode Hplan) as H.
    destruct (tickBody env fuel cur _ (afterStatus w st)) as [a w'|e w'|]; [| |done];
      destruct H as (evs & Ht); exists evs; rewrite Ht; simpl;
      by rewrite <- app_assoc.
  - intros Hi Hm Hl. subst threshold.
    rewrite (skipThreshold_doubles _ _ _ _ Hi Hm Hl). vm_compute. reflexivity.
  - intros Hi Hm Hl. subst threshold.
    rewrite (skipThreshold_doubles _ _ _ _ Hi Hm Hl). vm_compute. reflexivity.
Qed.

(** ** Gap backfill *)

Lemma lastLIB_app lib e1 e2 : lastLIB lib (e1 ++ e2) = lastLIB (lastLIB lib e1) e2.
Proof. revert lib. induction e1 as [|[] e1 IH]; intros lib; simpl; auto. Qed.

Lemma gapTagged_app best lib e1 e2 :
  gapTagged best lib (e1 ++ e2)
  ↔ gapTagged best lib e1 ∧ gapTagged best (lastLIB lib e1) e2.
Proof.
  revert lib. induction e1 as [|[] e1 IH]; intros lib; simpl; rewrite ?IH; tauto.
Qed.

Lemma queryEvents_untagged best lib evs :
  Forall isQueryEvent evs → gapTagged best lib evs ∧ lastLIB lib evs = lib.
Proof. induction 1 as [|[] evs He _ IH]; simpl in *; tauto. Qed.

Lemma tagsOf_tagHeights lib best r : tagsOf (tagHeights lib best r) = (Some lib, Some best).
Proof. by destruct r. Qed.

Lemma bind_Done {A B} (m : M A) (k : A → M B) (w w' : World) (b : B) :
  bind m k w = Done b w' → ∃ a w1, m w = Done a w1 ∧ k a w1 = Done b w'.
Proof. unfold bind. destruct (m w) as [a w1|e w1|]; [|done..]. intros H. by exists a, w1. Qed.

Lemma queryBlockAndTxs_Done env fuel heights ty w r w' :
  queryBlockAndTxs env fuel heights ty w = Done r w' →
  this w' = this w ∧ ∃ evs, trace w' = trace w ++ evs ∧ Forall isQueryEvent evs.
Proof.
  intros H. pose proof (preserves_queryBlockAndTxs env fuel heights ty w) as Hp.
  rewrite H in Hp. destruct Hp as [Hq Hev]. split; [by symmetry|exact Hev].
Qed.

Lemma insert_Done env r w w' :
  dbOperator_insert env r w = Done tt w' →
  this w' = this w ∧ trace w' = trace w ++ [EvInsert r].
Proof.
  unfold dbOperator_insert. run_step. destruct (dbInsert env (clock w) r); [done|].
  by intros [= <-].
Qed.

Lemma getHeight_Done env w w' best lib :
  getHeight env w = Done (best, lib) w' →
  ∃ st, chainStatus env (clock w) = inr st
        ∧ best = BestChainHeight st ∧ lib = libOf st
        ∧ this w' = this w ∧ trace w' = trace w ++ [EvChainStatus st].
Proof.
  unfold getHeight. run_step. destruct (chainStatus env (clock w)) as [e|st]; [done|].
  simpl. intros [= <- <- <-]. by exists st.
Qed.

Lemma gapLoop_Done env fuel best :
  ∀ (n : nat) (i cur left : Z) (w w' : World) (cur' : Z),
    gapLoop env n fuel best i cur left w = Done cur' w' →
    this w' = this w
    ∧ ∃ evs, trace w' = trace w ++ evs
             ∧ gapTagged best cur evs
             ∧ cur' = lastLIB cur evs.
Proof.
  induction n as [|n IH]; intros i cur left w w' cur' H; simpl in H; [done|].
  destruct (i <=? left).
  2:{ injection H as <- <-. split; [done|]. exists []. by rewrite app_nil_r. }
  apply bind_Done in H as (s & w0 & Hs & H). injection Hs as <- <-.
  apply bind_Done in H as (allHeights & w0 & Hn & H).
  destruct (newArrayMap _ _) as [e|hs]; [done|]. injection Hn as <- <-.
  apply bind_Done in H as (r & w1 & Hq & H).
  apply queryBlockAndTxs_Done in Hq as [Hth1 (ev1 & Ht1 & Hq1)].
  apply bind_Done in H as ([] & w2 & Hi & H).
  apply insert_Done in Hi as [Hth2 Ht2].
  apply bind_Done in H as ([b l] & w3 & Hg & H).
  apply getHeight_Done in Hg as (st & _ & _ & -> & Hth3 & Ht3).
  apply bind_Done in H as (s' & w4 & Hs' & H). injection Hs' as <- <-.
  apply IH in H as [Hth4 (ev4 & Ht4 & Htag4 & ->)]. simpl in *.
  split; [congruence|].
  exists (ev1 ++ [EvInsert (tagHeights cur best r)] ++ [EvChainStatus st] ++ ev4).
  destruct (queryEvents_untagged best cur ev1 Hq1) as [Hu1 Hl1].
  split; [|split].
  - rewrite Ht4, Ht3, Ht2, Ht1. by rewrite <- !app_assoc.
  - apply gapTagged_app. split; [done|]. rewrite Hl1. simpl.
    split; [apply tagsOf_tagHeights|done].
  - rewrite lastLIB_app, Hl1. done.
Qed.

(** C5 (as the code has it).  When [queryGapHeight] runs to completion,
    its first act is a status read; if that read shows a non-empty gap,
    every inserted result carries the LIB height of the latest status read
    before it and the best height of the *first* status read of the phase,
    and at completion [currentQueries] is the LIB height of the final
    status read while [lastBestHeight] is the best height of the first
    one. *)
Theorem queryGapHeight_tags (env : Env) (fuel : nat) (w w' : World) :
  queryGapHeight env fuel w = Done tt w' →
  ∃ (st0 : ChainStatus) (evs : list Event),
    chainStatus env (clock w) = inr st0
    ∧ trace w' = trace w ++ EvChainStatus st0 :: evs
    ∧ (startHeight (config (this w)) < libOf st0 →
       gapTagged (BestChainHeight st0) (libOf st0) evs
       ∧ currentQueries (this w') = lastLIB (libOf st0) evs
       ∧ lastBestHeight (this w') = Some (BestChainHeight st0)).
Proof.
  intros H. unfold queryGapHeight in H.
  apply bind_Done in H as ([b l] & w1 & Hg & H).
  apply getHeight_Done in Hg as (st0 & Hst & -> & -> & Hth1 & Ht1).
  apply bind_Done in H as (s & w0 & Hs & H). injection Hs as <- <-. simpl in H.
  exists st0. rewrite Hth1 in H.
  destruct (Z.leb_spec (libOf st0) (startHeight (config (this w)))) as [Hle|Hgt].
  - injection H as <-. exists []. rewrite Ht1. split; [done|]. split; [done|]. lia.
  - apply bind_Done in H as (cur' & w2 & Hl & H).
    apply gapLoop_Done in Hl as [Hth2 (evs & Ht2 & Htag & ->)].
    unfold bind, setThis in H. injection H as <-. simpl.
    exists evs. rewrite Ht2, Ht1, <- app_assoc. by repeat split.
Qed.

(** ** Gap backfill while the LIB height stands still *)

Lemma heightRange_cons (a : Z) (n : nat) :
  heightRange a (S n) = a :: heightRange (a + 1) n.
Proof.
  unfold heightRange. simpl. f_equal; [lia|].
  rewrite <- seq_shift, map_map. apply map_ext. intros k. lia.
Qed.

Lemma heightRange_app (a : Z) (n1 n2 : nat) :
  heightRange a n1 ++ heightRange (a + Z.of_nat n1) n2 = heightRange a (n1 + n2).
Proof.
  revert a. induction n1 as [|n1 IH]; intros a.
  - simpl. f_equal. lia.
  - change (S n1 + n2)%nat with (S (n1 + n2)). rewrite !heightRange_cons. simpl.
    f_equal. rewrite <- IH. do 2 f_equal. lia.
Qed.

Lemma heightRange_filter (L a : Z) (n : nat) :
  filter (fun v => v ≤ L) (heightRange a n)
  = heightRange a (Nat.min n (Z.to_nat (L - a + 1))).
Proof.
  revert a. induction n as [|n IH]; intros a; [done|].
  rewrite heightRange_cons, filter_cons, IH.
  destruct (decide (a ≤ L)) as [Hle|Hgt].
  - replace (Nat.min (S n) (Z.to_nat (L - a + 1)))
      with (S (Nat.min n (Z.to_nat (L - (a + 1) + 1)))) by lia.
    by rewrite heightRange_cons.
  - replace (Z.to_nat (L - (a + 1) + 1)) with O by lia.
    replace (Z.to_nat (L - a + 1)) with O by lia.
    by rewrite !Nat.min_0_r.
Qed.

Lemma heightRange_elem (a : Z) (n : nat) (h : Z) :
  h ∈ heightRange a n ↔ a ≤ h < a + Z.of_nat n.
Proof.
  unfold heightRange. rewrite list_elem_of_fmap. split.
  - intros (k & -> & Hk). apply list_elem_of_In, in_seq in Hk. lia.
  - intros Hh. exists (Z.to_nat (h - a)). split; [lia|].
    apply list_elem_of_In, in_seq. lia.
Qed.

Lemma heightRange_NoDup (a : Z) (n : nat) : NoDup (heightRange a n).
Proof.
  revert a. induction n as [|n IH]; intros a; [constructor|].
  rewrite heightRange_cons. constructor; [|apply IH].
  rewrite heightRange_elem. lia.
Qed.

Lemma gapChunks_concat (start m L : Z) :
  0 < m →
  ∀ (k : nat) (i : Z),
    0 ≤ i →
    (i ≤ L - start → k = (Z.to_nat ((L - start - i) / m) + 1)%nat) →
    (L - start < i → k = O) →
    concat (gapChunks k start m i L)
    = heightRange (start + i) (Z.to_nat (L - start - i + 1)).
Proof.
  intros Hm. induction k as [|k IH]; intros i Hi Hk1 Hk2; simpl.
  - destruct (Z.le_gt_cases i (L - start)) as [Hle|Hgt]; [specialize (Hk1 Hle); lia|].
    by replace (Z.to_nat (L - start - i + 1)) with O by lia.
  - destruct (Z.le_gt_cases i (L - start)) as [Hle|Hgt]; [|specialize (Hk2 Hgt); lia].
    specialize (Hk1 Hle). rewrite IH; [|lia|..].
    + destruct (Z.le_gt_cases (i + m) (L - start)) as [Hle'|Hgt'].
      * replace (Z.min m (L - start - i + 1)) with m by lia.
        replace (start + (i + m)) with (start + i + Z.of_nat (Z.to_nat m)) by lia.
        rewrite heightRange_app. f_equal. lia.
      * replace (Z.to_nat (L - start - (i + m) + 1)) with O by lia.
        simpl. rewrite app_nil_r. f_equal. lia.
    + intros Hle'. replace (L - start - (i + m)) with ((L - start - i) + (-1) * m) by lia.
      rewrite Z.div_add by lia.
      assert (1 ≤ (L - start - i) / m) by (apply Z.div_le_lower_bound; lia). lia.
    + intros Hgt'. rewrite Z.div_small in Hk1 by lia. simpl in Hk1. lia.
Qed.

Lemma gapLoop_steady (env : Env) (fuel : nat) (s : Scanner) (L best : Z) :
  let c := config s in
  let m := maxInsert c in
  0 < m ≤ 4294967295 →
  0 < concurrentQueryLimit c →
  validScanMode c →
  (∀ hs, chainAnswers env c hs) →
  sinkAccepts env →
  steadyLIB env L →
  (Z.to_nat m < fuel)%nat →
  ∀ (k n : nat) (i : Z) (w : World),
    this w = s →
    0 ≤ i →
    (i ≤ L - startHeight c → k = (Z.to_nat ((L - startHeight c - i) / m) + 1)%nat) →
    (L - startHeight c < i → k = O) →
    (k < n)%nat →
    ∃ (w' : World) (segs : list (list Event)),
      gapLoop env n fuel best i L (L - startHeight c) w = Done L w'
      ∧ this w' = s
      ∧ trace w' = trace w ++ concat segs
      ∧ Forall2 (gapRound env c L best) (gapChunks k (startHeight c) m i L) segs.
Proof.
  intros c m Hm Hlimit Hmode Hchain Hsink Hlib Hfuel.
  induction k as [|k IH]; intros n i w Hs Hi Hk1 Hk2 Hn;
    (destruct n as [|n]; [lia|]); simpl.
  - destruct (Z.leb_spec i (L - startHeight c)) as [Hle|Hgt]; [specialize (Hk1 Hle); lia|].
    exists w, []. simpl. rewrite app_nil_r. repeat split; done.
  - destruct (Z.leb_spec i (L - startHeight c)) as [Hle|Hgt]; [|specialize (Hk2 Hgt); lia].
    specialize (Hk1 Hle).
    unfold bind at 1, getThis at 1. rewrite Hs. fold c m.
    unfold newArrayMap.
    destruct (Z.ltb_spec m 0) as [?|_]; [lia|].
    destruct (Z.ltb_spec 4294967295 m) as [?|_]; [lia|].
    change (map (fun index => startHeight c + i + Z.of_nat index) (seq 0 (Z.to_nat m)))
      with (heightRange (startHeight c + i) (Z.to_nat m)).
    unfold bind at 1, liftResult at 1, ret at 1. cbv beta iota delta [orb].
    rewrite heightRange_filter.
    replace (Nat.min (Z.to_nat m) (Z.to_nat (L - (startHeight c + i) + 1)))
      with (Z.to_nat (Z.min m (L - startHeight c - i + 1))) by lia.
    set (chunk := heightRange _ _).
    destruct (queryBlockAndTxs_ok env fuel chunk GAP w)
      as (batches & r & w1 & Hrun & Hth & Hcl & Htr & Hcat & _ & Hres);
      try (rewrite Hs; done).
    { subst chunk. unfold heightRange. rewrite length_map, length_seq. lia. }
    unfold bind at 1. rewrite Hrun.
    unfold bind at 1. unfold dbOperator_insert, bind, callClock, logEvent. simpl.
    rewrite Hsink. simpl.
    destruct (Hlib (S (clock w1))) as (st & Hst & HL).
    unfold getHeight, bind, callClock, liftResult, logEvent. simpl. rewrite Hst. simpl.
    unfold getThis. simpl. rewrite Hth, Hs. fold c m. fold (libOf st). rewrite HL.
    match goal with
    | |- context [gapLoop env n fuel best (i + m) L (L - startHeight c) ?w2] =>
        destruct (IH n (i + m) w2) as (w' & segs & Hloop & Hth' & Htr' & Hall)
    end.
    { simpl. congruence. }
    { lia. }
    { intros Hle'. replace (L - startHeight c - (i + m))
        with ((L - startHeight c - i) + (-1) * m) by lia.
      rewrite Z.div_add by lia.
      assert (1 ≤ (L - startHeight c - i) / m) by (apply Z.div_le_lower_bound; lia). lia. }
    { intros Hgt'. rewrite Z.div_small in Hk1 by lia. simpl in Hk1. lia. }
    { lia. }
    rewrite Hloop.
    exists w', ((EvFetch chunk :: map EvQueryBatch batches
                 ++ [EvInsert (tagHeights L best r); EvChainStatus st]) :: segs).
    split; [reflexivity|]. split; [exact Hth'|]. split.
    + rewrite Htr'. simpl. rewrite Htr. rewrite <- !app_assoc. simpl.
      reflexivity.
    + constructor; [|exact Hall]. exists batches, r, st. rewrite Hs in Hres.
      split; [reflexivity|]. split; [exact Hres|exact HL].
Qed.

Lemma gapRounds_fetches env c L best (chunks : list (list Z)) (segs : list (list Event)) :
  Forall2 (gapRound env c L best) chunks segs →
  fetches (concat segs) = chunks
  ∧ length (inserts (concat segs)) = length chunks.
Proof.
  induction 1 as [|chunk seg chunks segs (batches & r & st & -> & _ & _) _ [IHf IHi]];
    cbn [concat].
  - done.
  - rewrite fetches_app, inserts_app, length_app, IHf, IHi. cbn [fetches inserts].
    rewrite fetches_app, inserts_app, fetches_batches, inserts_batches. done.
Qed.

(** X16. While the LIB height stands still at [L > startHeight], the gap
    backfill returns, and the heights it fetches and inserts are, in
    order and each exactly once, the heights from [startHeight] to [L];
    [currentQueries] ends at [L].  (Coverage holds in this case; it is
    lost when the LIB height advances during the phase.) *)
Lemma queryGapHeight_steady_covers (env : Env) (fuel : nat) (w : World) (L : Z) :
  let c := config (this w) in
  0 < maxInsert c ≤ 4294967295 →
  0 < concurrentQueryLimit c →
  validScanMode c →
  (∀ hs, chainAnswers env c hs) →
  sinkAccepts env →
  steadyLIB env L →
  startHeight c < L →
  (Z.to_nat (maxInsert c) < fuel)%nat →
  (Z.to_nat (L - startHeight c) + 1 < fuel)%nat →
  ∃ (w' : World) (evs : list Event),
    queryGapHeight env fuel w = Done tt w'
    ∧ trace w' = trace w ++ evs
    ∧ concat (fetches evs) = heightRange (startHeight c) (Z.to_nat (L - startHeight c + 1))
    ∧ length (inserts evs) = length (fetches evs)
    ∧ NoDup (concat (fetches evs))
    ∧ (∀ h, h ∈ concat (fetches evs) ↔ startHeight c ≤ h ≤ L)
    ∧ currentQueries (this w') = L.
Proof.
  intros c Hm Hlimit Hmode Hchain Hsink Hlib Hgap Hfuel1 Hfuel2.
  destruct (Hlib (clock w)) as (st & Hst & HL).
  unfold queryGapHeight, getHeight, bind, callClock, liftResult, logEvent. simpl.
  rewrite Hst. simpl. unfold getThis. simpl. fold c. fold (libOf st). rewrite HL.
  destruct (Z.leb_spec L (startHeight c)) as [?|_]; [lia|].
  set (w1 := {| this := this w; clock := S (clock w);
                trace := trace w ++ [EvChainStatus st] |}).
  assert (Hdiv : 0 ≤ (L - startHeight c) / maxInsert c ≤ L - startHeight c).
  { split; [apply Z.div_pos; lia|]. apply Z.div_le_upper_bound; [lia|]. nia. }
  destruct (gapLoop_steady env fuel (this w) L (BestChainHeight st) Hm Hlimit Hmode Hchain
              Hsink Hlib Hfuel1
              (Z.to_nat ((L - startHeight c) / maxInsert c) + 1)%nat fuel 0 w1 eq_refl
              ltac:(lia))
    as (w' & segs & Hrun & Hth & Htr & Hall).
  { intros _. fold c. by rewrite Z.sub_0_r. }
  { fold c. lia. }
  { lia. }
  fold c in Hrun. rewrite Hrun. unfold setThis. simpl.
  destruct (gapRounds_fetches _ _ _ _ _ _ Hall) as [Hf Hi].
  assert (Hcat : concat (fetches (EvChainStatus st :: concat segs))
                 = heightRange (startHeight c) (Z.to_nat (L - startHeight c + 1))).
  { simpl. rewrite Hf. fold c. rewrite gapChunks_concat; [|lia|lia|..].
    - f_equal; [lia|]. f_equal. lia.
    - intros _. by rewrite Z.sub_0_r.
    - lia. }
  eexists. exists (EvChainStatus st :: concat segs). split; [reflexivity|]. simpl.
  split; [rewrite Htr; subst w1; simpl; by rewrite <- app_assoc|]. split; [exact Hcat|]. split; [by rewrite Hi, Hf|].
  simpl in Hcat. rewrite Hcat. split; [apply heightRange_NoDup|]. split; [|done].
  intros h. rewrite heightRange_elem. lia.
Qed.

(** ** The error path of [start] *)

Lemma countEvent_app p e1 e2 :
  countEvent p (e1 ++ e2) = (countEvent p e1 + countEvent p e2)%nat.
Proof. induction e1 as [|e e1 IH]; simpl; [done|]. rewrite IH. lia. Qed.

Lemma notCleanup_count evs :
  Forall notCleanup evs → countEvent isEndTimer evs = O ∧ countEvent isDestroy evs = O.
Proof. induction 1 as [|[] evs He _ [IH1 IH2]]; simpl in *; try done. Qed.

Lemma quiet_start_body env fuel :
  preserves notCleanup sameConfig
    (dbOperator_init env ;;
     setThis (set_currentPhase MISSING) ;;
     queryMissingHeight env fuel ;;
     setThis (set_currentPhase GAP) ;;
     queryGapHeight env fuel ;;
     setThis (set_currentPhase LOOP) ;;
     queryInLoop).
Proof.
  assert (Hset : ∀ p, preserves notCleanup sameConfig (setThis (set_currentPhase p))).
  { intros p. apply preserves_setThis. intros s. reflexivity. }
  assert (Hweak : ∀ A (m : M A), preserves notCleanup samePhase m →
                                 preserves notCleanup sameConfig m).
  { intros A m Hm. eapply preserves_weaken; [| |exact Hm]; [tauto|].
    intros s s' [_ H]. exact H. }
  apply preserves_bind; [apply _| |intros ?].
  { unfold dbOperator_init.
    apply preserves_bind; [apply _|apply preserves_callClock; apply _|intros t].
    apply preserves_bind; [apply _|apply preserves_logEvent; first [exact I|apply _]|intros ?].
    destruct (dbInit _ _); [apply preserves_throw; apply _|apply preserves_ret; apply _]. }
  apply preserves_bind; [apply _|apply Hset|intros ?].
  unfold queryMissingHeight.
  apply preserves_bind; [apply _|apply Hweak; apply quiet_missingLoop|intros ?].
  apply preserves_bind; [apply _|apply Hset|intros ?].
  apply preserves_bind; [apply _|apply Hweak; apply quiet_queryGapHeight|intros ?].
  apply preserves_bind; [apply _|apply Hset|intros ?].
  unfold queryInLoop, scheduler_setCallback, scheduler_startTimer.
  apply preserves_bind; [apply _|apply preserves_logEvent; first [exact I|apply _]|intros ?].
  apply preserves_logEvent; first [exact I|apply _].
Qed.

(** X17. A failure that [start] catches (in INIT, MISSING or GAP, or in
    installing the loop): the error that [start] throws to its caller is
    the error that its [try] block threw, and between the two the handler
    has set the phase to ERROR and called [endTimer] and [destroy], each
    once in the whole run, last and in that order. *)
Lemma start_Thrown (env : Env) (fuel : nat) (w w' : World) (e : JsError) :
  start env fuel w = Thrown e w' →
  (∃ w1, tryBlock env fuel w = Thrown e w1
         ∧ this w' = set_currentPhase ERROR (this w1)
         ∧ trace w' = trace w1 ++ [EvEndTimer; EvDestroy])
  ∧ scanPhase w' = ERROR
  ∧ ∃ evs, trace w' = trace w ++ evs ++ [EvEndTimer; EvDestroy]
           ∧ countEvent isEndTimer (evs ++ [EvEndTimer; EvDestroy]) = 1%nat
           ∧ countEvent isDestroy (evs ++ [EvEndTimer; EvDestroy]) = 1%nat.
Proof.
  unfold start, tryCatch. fold (tryBlock env fuel).
  pose proof (quiet_start_body env fuel w) as Hq. fold (tryBlock env fuel) in Hq.
  destruct (tryBlock env fuel w) as [a w1|e1 w1|]; [done| |done].
  destruct Hq as [_ (evs & Ht & Hev)].
  unfold scheduler_endTimer, dbOperator_destroy. run_step. intros [= <- <-].
  split.
  { exists w1. simpl. split; [reflexivity|]. split; [reflexivity|].
    by rewrite <- app_assoc. }
  split; [done|]. exists evs. simpl. rewrite Ht, <- !app_assoc.
  destruct (notCleanup_count evs Hev) as [H1 H2].
  rewrite !countEvent_app, H1, H2. by repeat split.
Qed.

(** A failure inside a tick: the scanner's phase is what it was and
    neither [endTimer] nor [destroy] is called. *)
Lemma tick_Thrown (env : Env) (fuel : nat) (w w' : World) (e : JsError) :
  tick env fuel w = Thrown e w' →
  scanPhase w' = scanPhase w
  ∧ ∃ evs, trace w' = trace w ++ evs
           ∧ countEvent isEndTimer evs = O ∧ countEvent isDestroy evs = O.
Proof.
  intros H. pose proof (quiet_tick env fuel w) as Hq. rewrite H in Hq.
  destruct Hq as [[Hp _] (evs & Ht & Hev)]. split; [done|].
  exists evs. split; [done|]. by apply notCleanup_count.
Qed.

(** ** Construction *)

Lemma arrayFromSet_length_le (seen values : list string) :
  (length (arrayFromSet seen values) ≤ length values)%nat.
Proof.
  revert seen. induction values as [|v rest IH]; intros seen; simpl; [done|].
  case_bool_decide; simpl; [specialize (IH seen) | specialize (IH (v :: seen))]; lia.
Qed.

Lemma arrayFromSet_length_eq (seen values : list string) :
  length (arrayFromSet seen values) = length values
  ↔ NoDup values ∧ ∀ x, x ∈ values → x ∉ seen.
Proof.
  revert seen. induction values as [|v rest IH]; intros seen; simpl.
  - split; [|done]. intros _. split; [constructor|]. by intros x ?%elem_of_nil.
  - case_bool_decide as Hv; simpl.
    + pose proof (arrayFromSet_length_le seen rest). split; [lia|].
      intros [_ Hx]. exfalso. apply (Hx v); [by left|done].
    + rewrite NoDup_cons. split.
      * intros Hlen. apply (inj S), IH in Hlen as [Hnd Hx]. split; [split; [|done]|].
        -- intros Hin. apply (Hx v Hin). by left.
        -- intros x [->|Hin]%elem_of_cons; [done|].
           intros Hs. apply (Hx x Hin). by right.
      * intros [[Hv' Hnd] Hx]. f_equal. apply IH. split; [done|].
        intros x Hin [->|Hs]%elem_of_cons; [done|].
        apply (Hx x); [by right|done].
Qed.

Lemma duplicatedListeners_spec (c : Config) :
  duplicatedListeners c = true
  ↔ scanMode c = "listener" ∧ ¬ NoDup (map tag (listeners c)).
Proof.
  unfold duplicatedListeners. rewrite andb_true_iff, String.eqb_eq, Nat.ltb_lt.
  pose proof (arrayFromSet_length_le [] (map tag (listeners c))) as Hle.
  pose proof (arrayFromSet_length_eq [] (map tag (listeners c))) as Heq.
  rewrite length_map in Hle, Heq.
  split; intros [Hm Hd]; (split; [done|]).
  - intros Hnd. assert (length (arrayFromSet [] (map tag (listeners c)))
                        = length (listeners c)); [|lia].
    apply Heq. split; [done|]. intros x _. apply not_elem_of_nil.
  - destruct (decide (length (arrayFromSet [] (map tag (listeners c)))
                      = length (listeners c))) as [He|Hne]; [|lia].
    apply Heq in He as [Hnd _]. done.
Qed.

(** C6 (as the code has it).  [makeConfig], and so the constructor and
    [restart], throws the duplicated-listener error exactly when the
    merged configuration has [scanMode = 'listener'] and two listeners
    with the same tag; in any other scan mode, or with distinct tags, that
    check passes. *)
Theorem makeConfig_duplicated_listeners (thisConfig : Options) (dbOperator : DbOperator)
    (options : Options) (s : Scanner) :
  let merged := fun base => mergeConfig base options in
  (makeConfig thisConfig dbOperator options = inl duplicatedError
   ↔ scanMode (merged thisConfig) = "listener"
     ∧ ¬ NoDup (map tag (listeners (merged thisConfig))))
  ∧ (newScanner dbOperator options = inl duplicatedError
     ↔ scanMode (merged noOptions) = "listener"
       ∧ ¬ NoDup (map tag (listeners (merged noOptions))))
  ∧ (restart s dbOperator options = inl duplicatedError
     ↔ scanMode (merged (optionsOf (config s))) = "listener"
       ∧ ¬ NoDup (map tag (listeners (merged (optionsOf (config s)))))).
Proof.
  intros merged.
  assert (H : ∀ base, makeConfig base dbOperator options = inl duplicatedError
                      ↔ scanMode (merged base) = "listener"
                        ∧ ¬ NoDup (map tag (listeners (merged base)))).
  { intros base. rewrite <- duplicatedListeners_spec. unfold makeConfig. fold (merged base).
    destruct (duplicatedListeners (merged base)); [done|].
    destruct (negb (instanceofDBBaseOperation dbOperator)); split; done. }
  split; [apply H|]. split; apply H.
Qed.

(** C2 (the code at a failing input).  [startHeight = 1], [maxInsert = 10],
    LIB height [5] at entry and [20] from the next status read on: the
    phase completes with [currentQueries = 20] after fetching and
    inserting the heights [1..5] and [11..20]; the heights [6..10] are in
    no fetch and in no inserted result. *)
Theorem queryGapHeight_skips_heights :
  ∃ w',
    queryGapHeight advancingLIB 30 (worldOf (scannerOf smallBatches)) = Done tt w'
    ∧ map libOf (statusReads (trace w')) = [5; 20; 20]
    ∧ currentQueries (this w') = 20
    ∧ fetches (trace w') = [[1; 2; 3; 4; 5]; [11; 12; 13; 14; 15; 16; 17; 18; 19; 20]]
    ∧ (concat (map insertedHeights (inserts (trace w')))
       = [1; 2; 3; 4; 5; 11; 12; 13; 14; 15; 16; 17; 18; 19; 20])
    ∧ (6 ∉ concat (map insertedHeights (inserts (trace w'))))
    ∧ (6 ∉ concat (fetches (trace w'))).
Proof.
  eexists. split; [vm_compute; reflexivity|]. simpl.
  repeat split; try reflexivity;
    intros H; repeat (apply elem_of_cons in H as [H|H]; [discriminate H|]);
    by apply elem_of_nil in H.
Qed.

(** C3 (the code at a failing input).  With the default options [start]
    returns with the phase LOOP; the first tick then fails in its status
    read: the failure stays with the tick, the phase is still LOOP and
    neither [endTimer] nor [destroy] has been called. *)
Theorem tick_failure_not_cleaned_up :
  ∃ w1 w2,
    start failsInLoop 10 (worldOf (scannerOf defaultOptions)) = Done tt w1
    ∧ scanPhase w1 = LOOP
    ∧ tick failsInLoop 10 w1 = Thrown (CollaboratorError "chain unreachable") w2
    ∧ scanPhase w2 = LOOP
    ∧ countEvent isEndTimer (trace w2) = O
    ∧ countEvent isDestroy (trace w2) = O.
Proof.
  eexists. eexists. split; [vm_compute; reflexivity|].
  split; [reflexivity|]. split; [vm_compute; reflexivity|]. by repeat split.
Qed.

(** The sibling path: the same failure in the GAP phase is cleaned up. *)
Example gap_failure_cleaned_up :
  ∃ w',
    start (chainOf (fun _ => inl (CollaboratorError "chain unreachable"))) 10
      (worldOf (scannerOf defaultOptions))
    = Thrown (CollaboratorError "chain unreachable") w'
    ∧ scanPhase w' = ERROR
    ∧ countEvent isEndTimer (trace w') = 1%nat
    ∧ countEvent isDestroy (trace w') = 1%nat.
Proof. eexists. split; [vm_compute; reflexivity|]. by repeat split. Qed.

(** C5, as stated, fails: the second chunk is fetched after a status read
    with best height [40] and is tagged [30], and at completion
    [lastBestHeight] is [30] although the final status read says [40]. *)
Lemma queryGapHeight_best_height_is_stale :
  ∃ w',
    queryGapHeight risingBest 30 (worldOf (scannerOf smallBatches)) = Done tt w'
    ∧ statusReads (trace w') = [status 30 15; status 40 15; status 40 15]
    ∧ map tagsOf (inserts (trace w')) = [(Some 15, Some 30); (Some 15, Some 30)]
    ∧ lastBestHeight (this w') = Some 30
    ∧ lastBestHeight (this w') ≠ Some 40.
Proof. eexists. split; [vm_compute; reflexivity|]. by repeat split. Qed.

(** C4, as stated, fails: [lastBestHeight] is set (to [0]) and the best
    height [3] is within the threshold [5] of it, yet the tick is not
    skipped: it fetches, inserts and moves the cursor. *)
Lemma tick_not_skipped_at_zero :
  lastBestHeight (inLoop defaultOptions 0 (Some 0)) = Some 0
  ∧ leCeil (3 - 0) (skipThreshold defaultOptions) = true
  ∧ ∃ w',
      tick (chainOf (fun _ => inr (status 3 0))) 10
        (worldOf (inLoop defaultOptions 0 (Some 0))) = Done tt w'
      ∧ fetches (trace w') = [[1; 2; 3]]
      ∧ length (inserts (trace w')) = 1%nat
      ∧ lastBestHeight (this w') = Some 3.
Proof.
  split; [reflexivity|]. split; [vm_compute; reflexivity|].
  eexists. split; [vm_compute; reflexivity|]. by repeat split.
Qed.

(** The threshold is what the doubles give, not the exact ceiling.  With
    [interval = 10000], [minedSpeed = 5] and [loopCoef = 1.1] the exact
    value of [interval * minedSpeed * loopCoef / 1000] is [55], the
    threshold of the code is [56], and a tick that sees a best height
    [56] above [lastBestHeight] is skipped. *)
Lemma tick_skipped_above_exact_ceiling :
  Qceiling (interval roundedUp * minedSpeed roundedUp * loopCoef roundedUp / 1000) = 55
  ∧ skipThreshold roundedUp = CeilInt 56
  ∧ ∃ w',
      tick (chainOf (fun _ => inr (status 156 100))) 10
        (worldOf (inLoop roundedUp 100 (Some 100))) = Done tt w'
      ∧ trace w' = [EvChainStatus (status 156 100)]
      ∧ currentQueries (this w') = 100
      ∧ lastBestHeight (this w') = Some 100.
Proof.
  split; [reflexivity|]. split; [vm_compute; reflexivity|].
  eexists. split; [vm_compute; reflexivity|]. by repeat split.
Qed.

(** The state of that tick is reached from construction: on a chain
    without blocks the first tick records [lastBestHeight = 0], and the
    next tick, three blocks later, is not skipped. *)
Example zero_lastBestHeight_reached :
  ∃ w1 w2 w3,
    start youngChain 10 (worldOf (scannerOf defaultOptions)) = Done tt w1
    ∧ tick youngChain 10 w1 = Done tt w2
    ∧ lastBestHeight (this w2) = Some 0
    ∧ tick youngChain 10 w2 = Done tt w3
    ∧ fetches (trace w3) = [[]; []; [1; 2; 3]]
    ∧ lastBestHeight (this w3) = Some 3.
Proof.
  eexists. eexists. eexists. split; [vm_compute; reflexivity|].
  split; [vm_compute; reflexivity|]. split; [reflexivity|].
  split; [vm_compute; reflexivity|]. by repeat split.
Qed.

(** C6, as stated, fails: in the default scan mode [all] two listeners
    with the same tag are accepted by the constructor and by [restart]. *)
Lemma duplicate_tags_accepted_in_all_mode :
  ¬ NoDup (map tag twoListenersOneTag)
  ∧ ∃ s, newScanner theSink (optionsWithListeners None twoListenersOneTag) = inr s
         ∧ scanMode (config s) = "all"
         ∧ listeners (config s) = twoListenersOneTag
         ∧ restart s theSink (optionsWithListeners None twoListenersOneTag) = inr s.
Proof.
  split.
  - intros H. apply NoDup_cons in H as [H _]. apply H. by left.
  - eexists. split; [reflexivity|]. by repeat split.
Qed.

(** ** The theorems at concrete inputs *)

Lemma ascending_cons_cons (x y : Z) (l : list Z) :
  x < y → ascending (y :: l) → ascending (x :: y :: l).
Proof.
  intros Hxy Hl [|i] a b Ha Hb; simpl in *; [congruence|]. exact (Hl i a b Ha Hb).
Qed.

Lemma ascending_short (l : list Z) : (length l ≤ 1)%nat → ascending l.
Proof.
  intros Hl i a b Ha Hb. apply lookup_lt_Some in Hb. lia.
Qed.

Lemma mergeResult_three_segments_witness :
  blocks (lastLoopResult mergingScanner) ≠ []
  ∧ map heightOf (blocks (mergeResult mergingScanner (withTxs [101; 106; 107]) 1 2 101
                            (Some 105)))
    = [101; 102; 104; 105; 106; 107]
  ∧ ascending (map heightOf (blocks (mergeResult mergingScanner (withTxs [101; 106; 107])
                                       1 2 101 (Some 105)))).
Proof.
  assert (Hne : blocks (lastLoopResult mergingScanner) ≠ []) by discriminate.
  split; [exact Hne|]. split; [reflexivity|].
  destruct (mergeResult_three_segments mergingScanner (withTxs [101; 106; 107]) 1 2 101
              (Some 105) Hne) as (_ & _ & _ & Hord).
  apply Hord.
  - apply ascending_short. simpl. lia.
  - repeat constructor. unfold heightOf. simpl. lia.
  - simpl. unfold heightOf. simpl.
    repeat (apply ascending_cons_cons; [lia|]). apply ascending_short. simpl. lia.
  - simpl. unfold heightOf. simpl.
    repeat (apply ascending_cons_cons; [lia|]). apply ascending_short. simpl. lia.
  - repeat constructor; unfold heightOf; simpl; lia.
Defined.

Lemma chainOf_allAnswers statuses hs : allAnswers (chainOf statuses) hs.
Proof. intros t h _. by eexists. Qed.

Lemma chainOf_answersAtHeight statuses : answersAtHeight (chainOf statuses).
Proof. intros t h b ts [= <- <-]. reflexivity. Qed.

Lemma chainOf_sinkAccepts statuses : sinkAccepts (chainOf statuses).
Proof. intros t r. reflexivity. Qed.

Lemma queryAllBlocksAndTxs_chunks_witness :
  ∃ r w',
    queryAllBlocksAndTxs quietChain 10 [1; 2; 3; 4; 5] LOOP (worldOf (scannerOf twoAtATime))
    = Done r w'
    ∧ trace w' = [EvQueryBatch [1; 2]; EvQueryBatch [3; 4]; EvQueryBatch [5]]
    ∧ map heightOf (blocks r) = [1; 2; 3; 4; 5].
Proof.
  destruct (queryAllBlocksAndTxs_chunks quietChain 10 [1; 2; 3; 4; 5] LOOP
              (worldOf (scannerOf twoAtATime)))
    as (chunks & rs & r & w' & Hrun & _ & _ & _ & _ & _ & _ & _ & _ & _ & Hh).
  - reflexivity.
  - apply chainOf_allAnswers.
  - simpl. lia.
  - exists r, w'. split; [exact Hrun|]. split.
    + vm_compute in Hrun. injection Hrun as _ <-. reflexivity.
    + apply Hh. apply chainOf_answersAtHeight.
Defined.

Lemma queryBlockAndTxsWithBloom_buckets_witness :
  ∃ r w' bucketA bucketB,
    queryBlockAndTxsWithBloom taggedChain 10 [7] LOOP (worldOf (scannerOf twoListeners))
    = Done r w'
    ∧ results r !! tagA = Some bucketA
    ∧ results r !! tagB = Some bucketB
    ∧ {| entryBlock := blockAB 7; transactionList := [txOnlyA] |} ∈ bucketA
    ∧ {| entryBlock := blockAB 7; transactionList := [txOnlyB] |} ∈ bucketB.
Proof.
  destruct (queryBlockAndTxsWithBloom_buckets taggedChain 10 [7] LOOP
              (worldOf (scannerOf twoListeners)))
    as (rs & r & w' & Hrun & Hfor & _ & Hab & _).
  - reflexivity.
  - intros t h _. eexists. split; [reflexivity|].
    intros b ts H x Hx. injection H as <- _. exact Hx.
  - simpl. lia.
  - assert (Hin : Some (blockAB 7, [txOnlyA; txOnlyB]) ∈ rs).
    { apply Forall2_cons_inv_l in Hfor as (r0 & rs' & (t & Hr0) & _ & ->).
      injection Hr0 as <-. by left. }
    destruct (Hab (blockAB 7) txOnlyA txOnlyB tagA tagB Hin) as (bA & bB & HA & HB & HeA & HeB).
    + discriminate.
    + intros x. simpl. rewrite elem_of_cons, list_elem_of_singleton. tauto.
    + reflexivity.
    + reflexivity.
    + exists r, w', bA, bB. by repeat split.
Defined.

Lemma queryMissingHeight_rounds_witness :
  ∃ w' evs,
    queryMissingHeight quietChain 10 (worldOf (scannerOf twoAtATime)) = Done tt w'
    ∧ trace w' = [] ++ evs
    ∧ length (inserts evs) = 3%nat
    ∧ fetches evs = [[5; 6]; [7; 8]; []].
Proof.
  destruct (queryMissingHeight_rounds quietChain 10 (worldOf (scannerOf twoAtATime)))
    as (w' & evs & segs & Hrun & _ & Htr & _ & _ & Hlen & Hf & _).
  - reflexivity.
  - reflexivity.
  - by left.
  - split; [intros _; apply chainOf_allAnswers | intros H; discriminate H].
  - apply chainOf_sinkAccepts.
  - simpl. lia.
  - exists w', evs. split; [exact Hrun|]. split; [exact Htr|]. split; [exact Hlen|exact Hf].
Defined.

Lemma tick_empty_plan_witness :
  ∃ r w',
    tick quietChain 10 (worldOf (inLoop defaultOptions 50 None)) = Done tt w'
    ∧ trace w' = [] ++ [EvChainStatus (status 40 30); EvFetch []; EvInsert r]
    ∧ currentQueries (this w') = 30.
Proof.
  destruct (tick_empty_plan quietChain 10 (worldOf (inLoop defaultOptions 50 None))
              (status 40 30))
    as (_ & _ & r & w' & Hrun & Htr & Hq & _).
  - reflexivity.
  - reflexivity.
  - simpl. lia.
  - by left.
  - apply chainOf_sinkAccepts.
  - lia.
  - exists r, w'. split; [exact Hrun|]. split; [exact Htr|exact Hq].
Defined.

Lemma tick_skip_rule_witness :
  (∃ w',
     tick (chainOf (fun _ => inr (status 105 100))) 10
       (worldOf (inLoop defaultOptions 100 (Some 100))) = Done tt w'
     ∧ trace w' = [] ++ [EvChainStatus (status 105 100)]
     ∧ currentQueries (this w') = 100
     ∧ lastBestHeight (this w') = Some 100)
  ∧ tick (chainOf (fun _ => inr (status 106 100))) 10
      (worldOf (inLoop defaultOptions 100 (Some 100)))
    = tickBody (chainOf (fun _ => inr (status 106 100))) 10 106 100
        (afterStatus (worldOf (inLoop defaultOptions 100 (Some 100))) (status 106 100))
  ∧ skipThreshold defaultOptions = CeilInt 5.
Proof.
  destruct (tick_skip_rule (chainOf (fun _ => inr (status 105 100))) 10
              (worldOf (inLoop defaultOptions 100 (Some 100))) (status 105 100) eq_refl)
    as (Hskip & _ & Hthr & _).
  destruct (tick_skip_rule (chainOf (fun _ => inr (status 106 100))) 10
              (worldOf (inLoop defaultOptions 100 (Some 100))) (status 106 100) eq_refl)
    as (_ & Hgo & _).
  assert (H5 : skipThreshold defaultOptions = CeilInt 5) by (apply Hthr; reflexivity).
  split; [|split].
  - destruct Hskip as (w' & Hrun & Htr & Hq & Hl & _).
    + exists 100. split; [reflexivity|]. split; [discriminate|].
      change (leCeil (105 - 100) (skipThreshold defaultOptions) = true). rewrite H5.
      reflexivity.
    + exists w'. split; [exact Hrun|]. split; [exact Htr|]. split; [exact Hq|exact Hl].
  - destruct Hgo as [Heq _]; [|exact Heq].
    right. right. exists 100. split; [reflexivity|].
    change (leCeil (106 - 100) (skipThreshold defaultOptions) = false). rewrite H5.
    reflexivity.
  - exact H5.
Defined.

Lemma queryGapHeight_tags_witness :
  ∃ w' evs,
    queryGapHeight risingBest 30 (worldOf (scannerOf smallBatches)) = Done tt w'
    ∧ trace w' = [] ++ EvChainStatus (status 30 15) :: evs
    ∧ gapTagged 30 15 evs
    ∧ currentQueries (this w') = lastLIB 15 evs
    ∧ lastBestHeight (this w') = Some 30.
Proof.
  assert (Hrun : ∃ w', queryGapHeight risingBest 30 (worldOf (scannerOf smallBatches))
                       = Done tt w')
    by (eexists; vm_compute; reflexivity).
  destruct Hrun as [w' Hrun].
  destruct (queryGapHeight_tags risingBest 30 _ w' Hrun) as (st0 & evs & Hst & Htr & H).
  injection Hst as <-.
  destruct H as (Htag & Hq & Hl); [simpl; lia|].
  exists w', evs. split; [exact Hrun|]. split; [exact Htr|].
  split; [exact Htag|]. split; [exact Hq|exact Hl].
Defined.

(** * Further properties of the scanner *)

(** ** Fetches that return *)

Lemma bind_Thrown {A B} (m : M A) (k : A → M B) (w w' : World) (e : JsError) :
  bind m k w = Thrown e w' →
  m w = Thrown e w' ∨ ∃ a w1, m w = Done a w1 ∧ k a w1 = Thrown e w'.
Proof.
  unfold bind. destruct (m w) as [a w1|e1 w1|]; intros H.
  - right. by exists a, w1.
  - left. by injection H as -> ->.
  - discriminate H.
Qed.

Lemma allSettled_inr {A} (f : Z → JsError + A) (hs : list Z) (rs : list A) :
  allSettled (map f hs) = inr rs → Forall2 (fun h r => f h = inr r) hs rs.
Proof.
  revert rs. induction hs as [|h hs IH]; intros rs; simpl.
  - intros [= <-]. constructor.
  - destruct (f h) as [e|r] eqn:E; [done|].
    destruct (allSettled (map f hs)) as [e|rs']; [done|].
    intros [= <-]. constructor; [done|]. by apply IH.
Qed.

Lemma promiseAll_Done {A} (query : nat → Z → JsError + A) (hs : list Z) (w w' : World)
    (rs : list A) :
  promiseAll query hs w = Done rs w' →
  Forall2 (fun h r => query (clock w) h = inr r) hs rs
  ∧ this w' = this w
  ∧ trace w' = trace w ++ [EvQueryBatch hs].
Proof.
  unfold promiseAll. run_step.
  destruct (allSettled (map (query (clock w)) hs)) as [e|rs'] eqn:E; [done|].
  intros [= <- <-]. split; [apply allSettled_inr; exact E|]. simpl. by split.
Qed.

(** With a step that is not positive the loop index never passes the
    length of a non-empty height list. *)
Lemma queryAllLoop_stuck (env : Env) (limit : Z) (heights : list Z) :
  limit ≤ 0 →
  ∀ (fuel : nat) (i : Z) (results : list (list (Block * list Transaction)))
    (w w' : World) (out : list (list (Block * list Transaction))),
    i < Z.of_nat (length heights) →
    queryAllLoop env fuel limit heights i results w ≠ Done out w'.
Proof.
  intros Hl. induction fuel as [|fuel IH]; intros i results w w' out Hi; simpl; [done|].
  destruct (Z.ltb_spec i (Z.of_nat (length heights))) as [_|?]; [|lia].
  intros H. apply bind_Done in H as (txs & w1 & _ & H). revert H. apply IH. lia.
Qed.

Lemma queryBloomLoop_stuck (env : Env) (limit : Z) (ls : list Listener) (heights : list Z) :
  limit ≤ 0 →
  ∀ (fuel : nat) (i : Z) (results : list (option (TaggedBlock * list TaggedTransaction)))
    (w w' : World) (out : list (option (TaggedBlock * list TaggedTransaction))),
    i < Z.of_nat (length heights) →
    queryBloomLoop env fuel limit ls heights i results w ≠ Done out w'.
Proof.
  intros Hl. induction fuel as [|fuel IH]; intros i results w w' out Hi; simpl; [done|].
  destruct (Z.ltb_spec i (Z.of_nat (length heights))) as [_|?]; [|lia].
  intros H. apply bind_Done in H as (txs & w1 & _ & H). revert H. apply IH. lia.
Qed.

Lemma queryAllLoop_Done (env : Env) (limit : Z) (fuel : nat) :
  ∀ (done rest : list Z) (i : Z) (results out : list (list (Block * list Transaction)))
    (w w' : World),
    queryAllLoop env fuel limit (done ++ rest) i results w = Done out w' →
    Z.of_nat (length done) ≤ i →
    (rest ≠ [] → i = Z.of_nat (length done)) →
    ∃ (chunks : list (list Z)) (rs : list (list (Block * list Transaction))),
      out = results ++ rs
      ∧ concat chunks = rest
      ∧ Forall (fun c => (0 < length c)%nat ∧ Z.of_nat (length c) ≤ limit) chunks
      ∧ trace w' = trace w ++ map EvQueryBatch chunks
      ∧ this w' = this w
      ∧ answersFor env rest (concat rs).
Proof.
  induction fuel as [|fuel IH]; intros done rest i results out w w' H Hi Hne;
    [discriminate H|].
  destruct rest as [|h rest'].
  - simpl in H. rewrite app_nil_r in H.
    destruct (Z.ltb_spec i (Z.of_nat (length done))) as [?|_]; [lia|].
    injection H as <- <-. exists [], []. rewrite !app_nil_r. repeat split; try done; constructor.
  - set (rest := h :: rest') in *.
    destruct (Z.le_gt_cases limit 0) as [Hle|Hlimit].
    { exfalso. revert H. apply queryAllLoop_stuck; [done|].
      rewrite (Hne ltac:(done)), length_app. subst rest. simpl. lia. }
    simpl in H. rewrite (Hne ltac:(done)), length_app in H.
    destruct (Z.ltb_spec (Z.of_nat (length done))
                (Z.of_nat (length done + length rest))) as [_|Hbad];
      [|subst rest; simpl in Hbad; lia].
    rewrite slice_chunk in H by done.
    set (chunk := take (Z.to_nat limit) rest) in *.
    apply bind_Done in H as (answers & w1 & Hp & H).
    apply promiseAll_Done in Hp as (HF2 & Hth1 & Htr1).
    assert (Hsplit : done ++ rest = (done ++ chunk) ++ drop (Z.to_nat limit) rest).
    { rewrite <- app_assoc. f_equal. subst chunk. by rewrite take_drop. }
    assert (Hclen : (0 < length chunk)%nat ∧ Z.of_nat (length chunk) ≤ limit).
    { subst chunk. rewrite length_take. subst rest. simpl. lia. }
    rewrite Hsplit in H.
    apply IH in H as (chunks & rs & -> & Hcat & Hall & Htr & Hth & Hfor).
    + exists (chunk :: chunks), (answers :: rs). rewrite <- app_assoc. simpl.
      repeat split; try done.
      * rewrite Hcat. subst chunk. apply take_drop.
      * by constructor.
      * rewrite Htr, Htr1, <- app_assoc. done.
      * congruence.
      * unfold answersFor. rewrite <- (take_drop (Z.to_nat limit) rest).
        apply Forall2_app; [|exact Hfor].
        eapply Forall2_impl; [exact HF2|]. intros x r Hr. by exists (clock w).
    + rewrite length_app. lia.
    + intros Hd. rewrite length_app. subst chunk. rewrite length_take.
      destruct (decide (Z.to_nat limit < length rest)%nat); [lia|].
      rewrite drop_ge in Hd by lia. done.
Qed.

Lemma queryBloomLoop_Done (env : Env) (ls : list Listener) (limit : Z) (fuel : nat) :
  ∀ (done rest : list Z) (i : Z)
    (results out : list (option (TaggedBlock * list TaggedTransaction))) (w w' : World),
    queryBloomLoop env fuel limit ls (done ++ rest) i results w = Done out w' →
    Z.of_nat (length done) ≤ i →
    (rest ≠ [] → i = Z.of_nat (length done)) →
    ∃ (chunks : list (list Z)) (rs : list (option (TaggedBlock * list TaggedTransaction))),
      out = results ++ rs
      ∧ concat chunks = rest
      ∧ Forall (fun c => (0 < length c)%nat ∧ Z.of_nat (length c) ≤ limit) chunks
      ∧ trace w' = trace w ++ map EvQueryBatch chunks
      ∧ this w' = this w
      ∧ bloomAnswersFor env ls rest rs.
Proof.
  induction fuel as [|fuel IH]; intros done rest i results out w w' H Hi Hne;
    [discriminate H|].
  destruct rest as [|h rest'].
  - simpl in H. rewrite app_nil_r in H.
    destruct (Z.ltb_spec i (Z.of_nat (length done))) as [?|_]; [lia|].
    injection H as <- <-. exists [], []. rewrite !app_nil_r. repeat split; try done; constructor.
  - set (rest := h :: rest') in *.
    destruct (Z.le_gt_cases limit 0) as [Hle|Hlimit].
    { exfalso. revert H. apply queryBloomLoop_stuck; [done|].
      rewrite (Hne ltac:(done)), length_app. subst rest. simpl. lia. }
    simpl in H. rewrite (Hne ltac:(done)), length_app in H.
    destruct (Z.ltb_spec (Z.of_nat (length done))
                (Z.of_nat (length done + length rest))) as [_|Hbad];
      [|subst rest; simpl in Hbad; lia].
    rewrite slice_chunk in H by done.
    set (chunk := take (Z.to_nat limit) rest) in *.
    apply bind_Done in H as (answers & w1 & Hp & H).
    apply promiseAll_Done in Hp as (HF2 & Hth1 & Htr1).
    assert (Hsplit : done ++ rest = (done ++ chunk) ++ drop (Z.to_nat limit) rest).
    { rewrite <- app_assoc. f_equal. subst chunk. by rewrite take_drop. }
    assert (Hclen : (0 < length chunk)%nat ∧ Z.of_nat (length chunk) ≤ limit).
    { subst chunk. rewrite length_take. subst rest. simpl. lia. }
    rewrite Hsplit in H.
    apply IH in H as (chunks & rs & -> & Hcat & Hall & Htr & Hth & Hfor).
    + exists (chunk :: chunks), (answers ++ rs). rewrite <- app_assoc. simpl.
      repeat split; try done.
      * rewrite Hcat. subst chunk. apply take_drop.
      * by constructor.
      * rewrite Htr, Htr1, <- app_assoc. done.
      * congruence.
      * unfold bloomAnswersFor. rewrite <- (take_drop (Z.to_nat limit) rest).
        apply Forall2_app; [|exact Hfor].
        eapply Forall2_impl; [exact HF2|]. intros x r Hr. by exists (clock w).
    + rewrite length_app. lia.
    + intros Hd. rewrite length_app. subst chunk. rewrite length_take.
      destruct (decide (Z.to_nat limit < length rest)%nat); [lia|].
      rewrite drop_ge in Hd by lia. done.
Qed.

Lemma queryBlockAndTxs_inv (env : Env) (fuel : nat) (heights : list Z)
    (ty : QueryType) (w w' : World) (r : FetchResult) :
  queryBlockAndTxs env fuel heights ty w = Done r w' →
  this w' = this w
  ∧ ∃ batches : list (list Z),
      trace w' = trace w ++ EvFetch heights :: map EvQueryBatch batches
      ∧ concat batches = heights
      ∧ Forall (fun c => (0 < length c)%nat
                         ∧ Z.of_nat (length c) ≤ concurrentQueryLimit (config (this w)))
          batches
      ∧ resultFor env (config (this w)) ty heights r.
Proof.
  unfold queryBlockAndTxs. intros H.
  apply bind_Done in H as ([] & w1 & Hlog & H).
  unfold logEvent in Hlog. injection Hlog as <-.
  apply bind_Done in H as (s & w0 & Hs & H). injection Hs as <- <-. simpl in H.
  destruct (String.eqb_spec (scanMode (config (this w))) "all") as [Ha|Hna].
  - apply bind_Done in H as (a & w2 & Hq & H). injection H as <- <-.
    unfold queryAllBlocksAndTxs in Hq.
    apply bind_Done in Hq as (s & w0 & Hs & Hq). injection Hs as <- <-. simpl in Hq.
    apply bind_Done in Hq as (out & w3 & Hloop & Hq). injection Hq as <- <-.
    apply (queryAllLoop_Done env _ fuel [] heights 0 [] out) in Hloop
      as (chunks & rs & -> & Hcat & Hall & Htr & Hth & Hfor); [|simpl; lia|done].
    simpl in *. split; [done|]. exists chunks. rewrite Htr, <- app_assoc.
    repeat split; try done. by exists (concat rs).
  - destruct (String.eqb_spec (scanMode (config (this w))) "listener") as [Hl|Hnl];
      [|discriminate H].
    apply bind_Done in H as (b & w2 & Hq & H). injection H as <- <-.
    unfold queryBlockAndTxsWithBloom in Hq.
    apply bind_Done in Hq as (s & w0 & Hs & Hq). injection Hs as <- <-. simpl in Hq.
    apply bind_Done in Hq as (out & w3 & Hloop & Hq).
    apply bind_Done in Hq as (buckets & w4 & Hb & Hq). injection Hq as <- <-.
    destruct (bucketize _ out) as [e|bk] eqn:Hbk; [discriminate Hb|].
    injection Hb as <- <-.
    apply (queryBloomLoop_Done env _ _ fuel [] heights 0 [] out) in Hloop
      as (chunks & rs & -> & Hcat & Hall & Htr & Hth & Hfor); [|simpl; lia|done].
    simpl in *. split; [done|]. exists chunks. rewrite Htr, <- app_assoc.
    repeat split; try done. exists rs, bk. repeat split; done.
Qed.

(** X1. Whenever [queryBlockAndTxs] returns, whatever the collaborators
    did on other calls: the scanner is untouched, the batches it issued
    are consecutive non-empty chunks of at most [concurrentQueryLimit]
    heights that make up the requested list, and the result is built from
    one answer per requested height, in the order of the list (ALL mode:
    [blocks] and [txs]; LISTENER mode: the buckets of those answers and
    [largestHeight] = the last height, or [startHeight - 1] for no
    height). *)
Theorem queryBlockAndTxs_returns (env : Env) (fuel : nat) (heights : list Z)
    (ty : QueryType) (w w' : World) (r : FetchResult) :
  queryBlockAndTxs env fuel heights ty w = Done r w' →
  this w' = this w
  ∧ ∃ batches : list (list Z),
      trace w' = trace w ++ EvFetch heights :: map EvQueryBatch batches
      ∧ concat batches = heights
      ∧ Forall (fun c => (0 < length c)%nat
                         ∧ Z.of_nat (length c) ≤ concurrentQueryLimit (config (this w)))
          batches
      ∧ resultFor env (config (this w)) ty heights r.
Proof. apply queryBlockAndTxs_inv. Qed.

Lemma queryBlockAndTxs_returns_witness :
  ∃ r w' batches,
    queryBlockAndTxs quietChain 10 [1; 2; 3; 4; 5] LOOP (worldOf (scannerOf twoAtATime))
    = Done r w'
    ∧ trace w' = [] ++ EvFetch [1; 2; 3; 4; 5] :: map EvQueryBatch batches
    ∧ concat batches = [1; 2; 3; 4; 5].
Proof.
  assert (Hrun : ∃ r w', queryBlockAndTxs quietChain 10 [1; 2; 3; 4; 5] LOOP
                           (worldOf (scannerOf twoAtATime)) = Done r w')
    by (eexists; eexists; vm_compute; reflexivity).
  destruct Hrun as (r & w' & Hrun).
  destruct (queryBlockAndTxs_returns _ _ _ _ _ _ _ Hrun) as (_ & batches & Htr & Hcat & _).
  exists r, w', batches. split; [exact Hrun|]. split; [exact Htr|exact Hcat].
Defined.

(** X2. With a [concurrentQueryLimit] that is not positive, a fetch of
    a non-empty height list never returns a result: the loop index does
    not advance past the list, so the fetch goes on until a query fails. *)
Theorem queryBlockAndTxs_never_returns (env : Env) (fuel : nat) (heights : list Z)
    (ty : QueryType) (w w' : World) (r : FetchResult) :
  concurrentQueryLimit (config (this w)) ≤ 0 →
  heights ≠ [] →
  queryBlockAndTxs env fuel heights ty w ≠ Done r w'.
Proof.
  intros Hl Hne H. apply queryBlockAndTxs_inv in H as (_ & batches & _ & Hcat & Hall & _).
  destruct batches as [|c batches]; [by subst heights|].
  apply Forall_cons in Hall as [[Hpos Hle] _]. lia.
Qed.

Lemma queryBlockAndTxs_never_returns_witness :
  queryBlockAndTxs quietChain 5 [1] LOOP (worldOf (scannerOf noConcurrency))
  ≠ Done (AllR (withTxs [1])) (worldOf (scannerOf noConcurrency)).
Proof.
  apply queryBlockAndTxs_never_returns.
  - simpl. lia.
  - discriminate.
Defined.

(** ** Batch sizes that are not positive *)

Lemma insert_inv env r w w' :
  dbOperator_insert env r w = Done tt w' →
  this w' = this w ∧ trace w' = trace w ++ [EvInsert r] ∧ dbInsert env (clock w) r = None.
Proof.
  unfold dbOperator_insert. run_step. destruct (dbInsert env (clock w) r); [done|].
  by intros [= <-].
Qed.

Lemma missingLoop_stuck (env : Env) (c : Config) :
  maxInsert c ≤ 0 →
  ∀ (n fuel : nat) (i : Z) (w w' : World),
    config (this w) = c →
    i ≤ Z.of_nat (length (missingHeightList c)) →
    missingLoop env n fuel i w ≠ Done tt w'.
Proof.
  intros Hm. induction n as [|n IH]; intros fuel i w w' Hc Hi; simpl; [done|].
  intros H. apply bind_Done in H as (s & w0 & Hs & H). injection Hs as <- <-.
  rewrite Hc in H.
  destruct (Z.leb_spec i (Z.of_nat (length (missingHeightList c)))) as [_|?]; [|lia].
  apply bind_Done in H as (r & w1 & Hq & H).
  apply queryBlockAndTxs_inv in Hq as (Hth1 & _).
  apply bind_Done in H as ([] & w2 & Hi2 & H).
  apply insert_inv in Hi2 as (Hth2 & _).
  revert H. apply IH; [congruence|lia].
Qed.

(** X3. With [maxInsert <= 0] the missing-height backfill never
    completes, not even for the default empty list: its loop index never
    passes the length of the list.  So [start] never gets to the GAP
    phase and never returns normally. *)
Theorem start_never_completes (env : Env) (fuel : nat) (w w' : World) :
  maxInsert (config (this w)) ≤ 0 →
  queryMissingHeight env fuel w ≠ Done tt w'
  ∧ start env fuel w ≠ Done tt w'.
Proof.
  intros Hm. split.
  - apply (missingLoop_stuck env (config (this w))); [done|done|lia].
  - unfold start, tryCatch. intros H.
    match type of H with
    | context [match ?m w with _ => _ end] => destruct (m w) as [a w1|e w1|] eqn:E
    end; [|revert H; unfold scheduler_endTimer, dbOperator_destroy; by run_step|done].
    clear H. apply bind_Done in E as ([] & w2 & Hinit & E).
    assert (Hth : this w2 = this w).
    { revert Hinit. unfold dbOperator_init. run_step.
      destruct (dbInit env (clock w)); [done|]. by intros [= <-]. }
    apply bind_Done in E as ([] & w3 & Hset & E). injection Hset as <-.
    apply bind_Done in E as ([] & w4 & Hmiss & _). revert Hmiss.
    apply (missingLoop_stuck env (config (this w))); [done|simpl; by rewrite Hth|lia].
Qed.

Lemma start_never_completes_witness :
  queryMissingHeight quietChain 50 (worldOf (scannerOf noBatch))
  ≠ Done tt (worldOf (scannerOf noBatch))
  ∧ start quietChain 50 (worldOf (scannerOf noBatch)) ≠ Done tt (worldOf (scannerOf noBatch)).
Proof. apply start_never_completes. simpl. lia. Defined.

(** ** An unrecognised scan mode *)

(** X4. With a [scanMode] other than [all] and [listener] and a sink
    whose [init] succeeds, [start] fails in the MISSING phase with the
    invalid-scan-mode error at its first fetch: nothing is queried or
    inserted, the phase ends as ERROR and [endTimer] and [destroy] are
    called. *)
Theorem start_invalid_scan_mode (env : Env) (fuel : nat) (w : World) :
  ¬ validScanMode (config (this w)) →
  dbInit env (clock w) = None →
  (0 < fuel)%nat →
  ∃ w',
    start env fuel w = Thrown InvalidScanMode w'
    ∧ scanPhase w' = ERROR
    ∧ trace w'
      = trace w ++ [EvInit;
                    EvFetch (slice (missingHeightList (config (this w))) 0
                               (0 + maxInsert (config (this w))));
                    EvEndTimer; EvDestroy].
Proof.
  intros Hmode Hinit Hfuel. destruct fuel as [|fuel]; [lia|].
  assert (Ha : String.eqb (scanMode (config (this w))) "all" = false).
  { apply String.eqb_neq. intros E. apply Hmode. by left. }
  assert (Hl : String.eqb (scanMode (config (this w))) "listener" = false).
  { apply String.eqb_neq. intros E. apply Hmode. by right. }
  unfold start, tryCatch, dbOperator_init, queryMissingHeight. run_step.
  rewrite Hinit. simpl.
  unfold queryBlockAndTxs. run_step.
  replace (0 <=? Z.of_nat (length (missingHeightList (config (this w))))) with true
    by (symmetry; apply Z.leb_le; lia).
  simpl. rewrite Ha, Hl.
  unfold scheduler_endTimer, dbOperator_destroy. run_step.
  eexists. split; [reflexivity|]. simpl. split; [done|]. by rewrite <- !app_assoc.
Qed.

Lemma start_invalid_scan_mode_witness :
  ∃ w',
    start quietChain 10 (worldOf (scannerOf unknownMode)) = Thrown InvalidScanMode w'
    ∧ scanPhase w' = ERROR
    ∧ trace w' = [] ++ [EvInit; EvFetch [7; 9]; EvEndTimer; EvDestroy].
Proof.
  destruct (start_invalid_scan_mode quietChain 10 (worldOf (scannerOf unknownMode)))
    as (w' & Hrun & Hph & Htr).
  - intros [H|H]; discriminate H.
  - reflexivity.
  - lia.
  - exists w'. split; [exact Hrun|]. split; [exact Hph|exact Htr].
Defined.

(** ** The heights a tick plans *)

Lemma StronglySorted_lt_filter (P : Z → Prop) `{∀ x, Decision (P x)} (l : list Z) :
  StronglySorted Z.lt l → StronglySorted Z.lt (filter P l).
Proof.
  induction 1 as [|x l Hs IH Hx]; [constructor|].
  rewrite filter_cons. destruct (decide (P x)); [|done].
  constructor; [done|]. rewrite Forall_forall in Hx. apply Forall_forall.
  intros y [_ Hy]%list_elem_of_filter. by apply Hx.
Qed.

Lemma heightRange_sorted (a : Z) (n : nat) : StronglySorted Z.lt (heightRange a n).
Proof.
  revert a. induction n as [|n IH]; intros a; [constructor|].
  rewrite heightRange_cons. constructor; [apply IH|].
  apply Forall_forall. intros y Hy%heightRange_elem. lia.
Qed.

Lemma loopHeights_range (s : Scanner) (cur : Z) :
  cur - currentQueries s ≤ 4294967295 →
  loopHeights s cur
  = inr (heightRange (currentQueries s + 1) (Z.to_nat (cur - currentQueries s))).
Proof.
  intros Hle. unfold loopHeights, heightsLength, newArrayMap, heightRange.
  set (d := cur - currentQueries s) in *.
  assert (E : (if d =? 0 then 0 else d) = d) by (destruct (Z.eqb_spec d 0); lia).
  rewrite E. destruct (Z.ltb_spec d 0) as [Hneg|Hpos].
  - simpl. by replace (Z.to_nat d) with O by lia.
  - replace (d <? 0) with false by (symmetry; apply Z.ltb_ge; lia).
    replace (4294967295 <? d) with false by (symmetry; apply Z.ltb_ge; lia).
    simpl. f_equal. apply map_ext. intros k. lia.
Qed.

(** X5. The plan of a tick.  When the range above the cursor is too
    long for an array (more than [2^32 - 1] heights) the tick throws a
    [RangeError]; otherwise the candidate heights are exactly those with
    [currentQueries < h <= best height], and in ALL mode the heights
    fetched are exactly the candidates that are at most the LIB height or
    above [max(lastBestHeight, LIB)]: ascending, without duplicates, and
    never a height of the window [LIB < h <= lastBestHeight]. *)
Theorem tick_plan (s : Scanner) (cur LIB : Z) :
  (4294967295 < cur - currentQueries s → loopHeights s cur = inl RangeError)
  ∧ (cur - currentQueries s ≤ 4294967295 →
     ∃ hs,
       loopHeights s cur = inr hs
       ∧ (∀ h, h ∈ hs ↔ currentQueries s < h ≤ cur)
       ∧ (∀ h, h ∈ LIBHeights LIB hs ++ bestHeights s LIB hs
               ↔ currentQueries s < h ≤ cur
                 ∧ (h ≤ LIB ∨ Z.max (toNumber (lastBestHeight s)) LIB < h))
       ∧ (∀ h, LIB < h ≤ toNumber (lastBestHeight s) →
               h ∉ LIBHeights LIB hs ++ bestHeights s LIB hs)
       ∧ ascending (LIBHeights LIB hs ++ bestHeights s LIB hs)
       ∧ NoDup (LIBHeights LIB hs ++ bestHeights s LIB hs)).
Proof.
  split.
  - intros Hbig. unfold loopHeights, heightsLength, newArrayMap.
    set (d := cur - currentQueries s) in *.
    assert (E : (if d =? 0 then 0 else d) = d) by (destruct (Z.eqb_spec d 0); lia).
    rewrite E. destruct (Z.ltb_spec d 0); [lia|].
    replace (d <? 0) with false by (symmetry; apply Z.ltb_ge; lia).
    replace (4294967295 <? d) with true by (symmetry; apply Z.ltb_lt; lia).
    reflexivity.
  - intros Hle. eexists. split; [by apply loopHeights_range|].
    set (hs := heightRange _ _).
    assert (Hin : ∀ h, h ∈ hs ↔ currentQueries s < h ≤ cur).
    { intros h. subst hs. rewrite heightRange_elem. lia. }
    assert (Hmem : ∀ h, h ∈ LIBHeights LIB hs ++ bestHeights s LIB hs
               ↔ currentQueries s < h ≤ cur
                 ∧ (h ≤ LIB ∨ Z.max (toNumber (lastBestHeight s)) LIB < h)).
    { intros h. unfold LIBHeights, bestHeights.
      rewrite elem_of_app, !list_elem_of_filter, Hin. lia. }
    assert (Hsorted : StronglySorted Z.lt (LIBHeights LIB hs ++ bestHeights s LIB hs)).
    { apply StronglySorted_app. split; [|split].
      - intros x y [Hx _]%list_elem_of_filter [Hy _]%list_elem_of_filter. lia.
      - apply StronglySorted_lt_filter, heightRange_sorted.
      - apply StronglySorted_lt_filter, heightRange_sorted. }
    split; [exact Hin|]. split; [exact Hmem|]. split; [|split].
    + intros h Hh Hp. apply Hmem in Hp. lia.
    + by apply ascending_StronglySorted.
    + by apply StronglySorted_lt_NoDup.
Qed.

Lemma tick_plan_witness :
  loopHeights midChain 4300000000 = inl RangeError
  ∧ ∃ hs,
      loopHeights midChain 110 = inr hs
      ∧ (107 ∈ LIBHeights 102 hs ++ bestHeights midChain 102 hs)
      ∧ (104 ∉ LIBHeights 102 hs ++ bestHeights midChain 102 hs).
Proof.
  split.
  - apply (tick_plan midChain 4300000000 0). simpl. lia.
  - destruct (tick_plan midChain 110 102) as [_ H].
    destruct H as (hs & Hrun & _ & Hmem & Hwin & _); [simpl; lia|].
    exists hs. split; [exact Hrun|]. split.
    + apply Hmem. simpl. lia.
    + apply Hwin. simpl. lia.
Defined.

(** ** What a tick leaves behind *)

Lemma queryBlockAndTxs_Thrown env fuel heights ty w w' e :
  queryBlockAndTxs env fuel heights ty w = Thrown e w' → this w' = this w.
Proof.
  intros H. pose proof (preserves_queryBlockAndTxs env fuel heights ty w) as Hp.
  rewrite H in Hp. destruct Hp as [Hq _]. by symmetry.
Qed.

Lemma insert_Thrown env r w w' e :
  dbOperator_insert env r w = Thrown e w' →
  this w' = this w ∧ trace w' = trace w ++ [EvInsert r].
Proof.
  unfold dbOperator_insert. run_step. destruct (dbInsert env (clock w) r); [|done].
  by intros [= _ <-].
Qed.

Lemma loopHeights_inr (s : Scanner) (cur : Z) (hs : list Z) :
  loopHeights s cur = inr hs →
  hs = heightRange (currentQueries s + 1) (Z.to_nat (cur - currentQueries s)).
Proof.
  intros H. destruct (Z.le_gt_cases (cur - currentQueries s) 4294967295) as [Hle|Hgt].
  - rewrite loopHeights_range in H by done. by injection H as <-.
  - exfalso. revert H. unfold loopHeights, heightsLength, newArrayMap.
    set (d := cur - currentQueries s) in *.
    assert (E : (if d =? 0 then 0 else d) = d) by (destruct (Z.eqb_spec d 0); lia).
    rewrite E. destruct (Z.ltb_spec d 0); [lia|].
    replace (d <? 0) with false by (symmetry; apply Z.ltb_ge; lia).
    replace (4294967295 <? d) with true by (symmetry; apply Z.ltb_lt; lia).
    done.
Qed.

(** The result a tick inserts after fetching [fetched]. *)
Lemma tickBody_Done (env : Env) (fuel : nat) (cur LIB : Z) (w w' : World) :
  tickBody env fuel cur LIB w = Done tt w' →
  ∃ (hs : list Z) (batches : list (list Z)) (fetched ins : FetchResult),
    loopHeights (this w) cur = inr hs
    ∧ validScanMode (config (this w))
    ∧ resultFor env (config (this w)) LOOP (plannedHeights (this w) LIB hs) fetched
    ∧ trace w' = trace w ++ EvFetch (plannedHeights (this w) LIB hs)
                   :: map EvQueryBatch batches ++ [EvInsert ins]
    ∧ concat batches = plannedHeights (this w) LIB hs
    ∧ config (this w') = config (this w)
    ∧ currentPhase (this w') = currentPhase (this w)
    ∧ loopTimes (this w') = loopTimes (this w)
    ∧ currentQueries (this w') = LIB
    ∧ lastBestHeight (this w') = Some cur
    ∧ match fetched with
      | AllR fresh =>
          ins = AllR (tagAll LIB cur
                        (mergeResult (this w) fresh
                           (length (LIBHeights LIB hs)) (length (bestHeights (this w) LIB hs))
                           LIB (lastBestHeight (this w))))
          ∧ AllR (lastLoopResult (this w')) = ins
      | BloomR b =>
          ins = tagHeights LIB cur (BloomR b)
          ∧ lastLoopResult (this w') = lastLoopResult (this w)
      end.
Proof.
  unfold tickBody, plannedHeights. intros H.
  apply bind_Done in H as (s & w0 & Hs & H). injection Hs as <- <-.
  apply bind_Done in H as (hs & w0 & Hp & H).
  destruct (loopHeights (this w) cur) as [e|hs'] eqn:Hplan; [discriminate Hp|].
  injection Hp as <- <-.
  apply bind_Done in H as ([] & w1 & Hbr & H).
  unfold bind, setThis in H. injection H as <-. simpl.
  destruct (String.eqb_spec (scanMode (config (this w))) "all") as [Ha|Hna].
  - apply bind_Done in Hbr as (r & w2 & Hq & Hbr).
    apply queryBlockAndTxs_inv in Hq as (Hth2 & batches & Htr2 & Hcat & _ & Hres).
    destruct r as [fresh|b]; [|discriminate Hbr].
    apply bind_Done in Hbr as (s1 & w0 & Hs1 & Hbr). injection Hs1 as <- <-.
    apply bind_Done in Hbr as ([] & w3 & Hi & Hbr).
    apply insert_inv in Hi as (Hth3 & Htr3 & _).
    unfold setThis in Hbr. injection Hbr as <-. simpl.
    exists hs', batches, (AllR fresh). eexists.
    split; [done|]. split; [by left|]. split; [exact Hres|].
    split; [rewrite Htr3, Htr2, <- app_assoc; reflexivity|].
    rewrite Hth3, Hth2. by repeat split.
  - destruct (String.eqb_spec (scanMode (config (this w))) "listener") as [Hl|Hnl];
      [|discriminate Hbr].
    apply bind_Done in Hbr as (r & w2 & Hq & Hi).
    apply queryBlockAndTxs_inv in Hq as (Hth2 & batches & Htr2 & Hcat & _ & Hres).
    apply insert_inv in Hi as (Hth3 & Htr3 & _).
    exists hs', batches, r. eexists.
    split; [done|]. split; [by right|]. split; [exact Hres|].
    split; [rewrite Htr3, Htr2, <- app_assoc; reflexivity|].
    rewrite Hth3, Hth2. repeat split; try done.
    destruct r as [a|b]; [|by split].
    destruct Hres as [Hbad _]. congruence.
Qed.

Lemma tickBody_Thrown (env : Env) (fuel : nat) (cur LIB : Z) (w w' : World) (e : JsError) :
  tickBody env fuel cur LIB w = Thrown e w' → this w' = this w.
Proof.
  unfold tickBody. intros H.
  apply bind_Thrown in H as [H|(s & w0 & Hs & H)]; [discriminate H|].
  injection Hs as <- <-.
  apply bind_Thrown in H as [H|(hs & w0 & Hp & H)].
  { destruct (loopHeights (this w) cur); [|discriminate H]. by injection H as _ <-. }
  destruct (loopHeights (this w) cur) as [e0|hs']; [discriminate Hp|].
  injection Hp as <- <-.
  apply bind_Thrown in H as [H|([] & w1 & _ & H)]; [|discriminate H].
  destruct (String.eqb (scanMode (config (this w))) "all").
  - apply bind_Thrown in H as [H|(r & w2 & Hq & H)];
      [by eapply queryBlockAndTxs_Thrown|].
    apply queryBlockAndTxs_inv in Hq as (Hth2 & _).
    destruct r as [fresh|b]; [|by injection H as _ <-].
    apply bind_Thrown in H as [H|(s1 & w0 & Hs1 & H)]; [discriminate H|].
    injection Hs1 as <- <-.
    apply bind_Thrown in H as [H|([] & w3 & _ & H)]; [|discriminate H].
    apply insert_Thrown in H as [Hth3 _]. congruence.
  - destruct (String.eqb (scanMode (config (this w))) "listener");
      [|by injection H as _ <-].
    apply bind_Thrown in H as [H|(r & w2 & Hq & H)];
      [by eapply queryBlockAndTxs_Thrown|].
    apply queryBlockAndTxs_inv in Hq as (Hth2 & _).
    apply insert_Thrown in H as [Hth3 _]. congruence.
Qed.

(** X6. What a tick that returns has done.  [loopTimes] went up by one
    and the phase and the configuration are as before.  Either the tick
    was skipped, and then its one status read is all it did, or its
    calls were exactly: one status read, one fetch of the planned
    heights with its query batches, and one insert, of a result tagged
    with the LIB and best height just read; then [currentQueries] is that
    LIB height (whatever the cursor was before) and [lastBestHeight] that
    best height; in ALL mode [lastLoopResult] is the inserted result, in
    LISTENER mode it is left alone. *)
Theorem tick_returns (env : Env) (fuel : nat) (w w' : World) :
  tick env fuel w = Done tt w' →
  ∃ st,
    chainStatus env (clock w) = inr st
    ∧ config (this w') = config (this w)
    ∧ currentPhase (this w') = currentPhase (this w)
    ∧ loopTimes (this w') = S (loopTimes (this w))
    ∧ ((skipTick (incr_loopTimes (this w)) (BestChainHeight st) = true
        ∧ trace w' = trace w ++ [EvChainStatus st]
        ∧ currentQueries (this w') = currentQueries (this w)
        ∧ lastBestHeight (this w') = lastBestHeight (this w)
        ∧ lastLoopResult (this w') = lastLoopResult (this w))
       ∨ (skipTick (incr_loopTimes (this w)) (BestChainHeight st) = false
          ∧ currentQueries (this w') = libOf st
          ∧ lastBestHeight (this w') = Some (BestChainHeight st)
          ∧ ∃ (batches : list (list Z)) (ins : FetchResult),
              let planned :=
                plannedHeights (incr_loopTimes (this w)) (libOf st)
                  (heightRange (currentQueries (this w) + 1)
                     (Z.to_nat (BestChainHeight st - currentQueries (this w)))) in
              trace w' = trace w ++ EvChainStatus st :: EvFetch planned
                           :: map EvQueryBatch batches ++ [EvInsert ins]
              ∧ concat batches = planned
              ∧ tagsOf ins = (Some (libOf st), Some (BestChainHeight st))
              ∧ (scanMode (config (this w)) = "all"
                 → ins = AllR (lastLoopResult (this w')))
              ∧ (scanMode (config (this w)) ≠ "all"
                 → lastLoopResult (this w') = lastLoopResult (this w)))).
Proof.
  intros H. destruct (chainStatus env (clock w)) as [e|st] eqn:Hst.
  { rewrite (tick_status_fails env fuel w e Hst) in H. discriminate H. }
  rewrite (tick_unfold env fuel w st Hst) in H. exists st. split; [done|].
  destruct (skipTick (incr_loopTimes (this w)) (BestChainHeight st)) eqn:Hskip.
  - injection H as <-. simpl. repeat split; try done. left. by repeat split.
  - apply tickBody_Done in H
      as (hs & batches & fetched & ins & Hplan & Hmode & Hres & Htr & Hcat & Hc & Hp & Hl
          & Hq & Hb & Hfetched).
    simpl in *. apply loopHeights_inr in Hplan. simpl in Hplan. subst hs.
    split; [done|]. split; [done|]. split; [done|]. right.
    split; [done|]. split; [done|]. split; [done|].
    exists batches, ins. cbv zeta.
    split; [rewrite Htr, <- app_assoc; reflexivity|].
    split; [exact Hcat|].
    destruct fetched as [fresh|b]; destruct Hfetched as [-> Hlast].
    + split; [reflexivity|]. split; [by intros _|].
      destruct Hres as [Ha _]. done.
    + split; [reflexivity|]. destruct Hres as [Hl' _].
      split; [intros Ha; congruence|done].
Qed.

Lemma tick_returns_witness :
  ∃ w',
    tick quietChain 10 (worldOf (inLoop defaultOptions 20 None)) = Done tt w'
    ∧ fetches (trace w') = [heightRange 21 20]
    ∧ statusReads (trace w') = [status 40 30]
    ∧ currentQueries (this w') = 30
    ∧ lastBestHeight (this w') = Some 40.
Proof.
  assert (Hrun : ∃ w', tick quietChain 10 (worldOf (inLoop defaultOptions 20 None))
                       = Done tt w'
                       ∧ fetches (trace w') = [heightRange 21 20]
                       ∧ statusReads (trace w') = [status 40 30])
    by (eexists; split; [|split]; vm_compute; reflexivity).
  destruct Hrun as (w' & Hrun & Hf & Hs).
  destruct (tick_returns _ _ _ _ Hrun) as (st & Hst & _ & _ & _ & Hcase).
  injection Hst as <-.
  destruct Hcase as [(Hskip & _)|(_ & Hq & Hb & _)]; [discriminate Hskip|].
  exists w'. split; [exact Hrun|]. split; [exact Hf|]. split; [exact Hs|].
  split; [exact Hq|exact Hb].
Defined.

(** X7. A tick that fails, wherever it fails (status read, planning,
    fetch or insert), leaves the cursor as it was: [currentQueries],
    [lastBestHeight] and [lastLoopResult] are only written after the
    insert has succeeded.  Only [loopTimes] has counted the tick; an
    insert that was refused is not taken back. *)
Theorem tick_failure_keeps_cursor (env : Env) (fuel : nat) (w w' : World) (e : JsError) :
  tick env fuel w = Thrown e w' →
  this w' = incr_loopTimes (this w)
  ∧ ∃ evs, trace w' = trace w ++ evs
           ∧ countEvent isEndTimer evs = O ∧ countEvent isDestroy evs = O.
Proof.
  intros H. split.
  - destruct (chainStatus env (clock w)) as [e0|st] eqn:Hst.
    + rewrite (tick_status_fails env fuel w e0 Hst) in H. by injection H as _ <-.
    + rewrite (tick_unfold env fuel w st Hst) in H.
      destruct (skipTick _ _); [discriminate H|].
      by apply tickBody_Thrown in H.
  - pose proof (quiet_tick env fuel w) as Hq. rewrite H in Hq.
    destruct Hq as [_ (evs & Ht & Hev)]. exists evs. split; [done|].
    by apply notCleanup_count.
Qed.

Lemma tick_failure_keeps_cursor_witness :
  ∃ w',
    tick refusingSink 20 (worldOf (inLoop defaultOptions 30 None))
    = Thrown (CollaboratorError "sink down") w'
    ∧ this w' = incr_loopTimes (inLoop defaultOptions 30 None)
    ∧ length (inserts (trace w')) = 1%nat.
Proof.
  assert (Hrun : ∃ w', tick refusingSink 20 (worldOf (inLoop defaultOptions 30 None))
                       = Thrown (CollaboratorError "sink down") w')
    by (eexists; vm_compute; reflexivity).
  destruct Hrun as [w' Hrun].
  destruct (tick_failure_keeps_cursor _ _ _ _ _ Hrun) as [Hth _].
  exists w'. split; [exact Hrun|]. split; [exact Hth|].
  vm_compute in Hrun. injection Hrun as <-. reflexivity.
Defined.

(** ** More on the merge *)

Lemma retainLast_lengths LIB lastBest index bs lastTxs :
  length (retainLast LIB lastBest index bs lastTxs).1
  = length (retainLast LIB lastBest index bs lastTxs).2.
Proof.
  revert index. induction bs as [|b bs IH]; intros index; simpl; [done|].
  specialize (IH (S index)).
  destruct (retainLast LIB lastBest (S index) bs lastTxs) as [bs' ts'].
  destruct (retained LIB lastBest b); simpl in *; by rewrite ?IH.
Qed.

Lemma mergeResult_empty_prev (s : Scanner) (fresh : AllResult) (pre after : nat)
    (LIB : Z) (lastBest : option Z) :
  blocks (lastLoopResult s) = [] → mergeResult s fresh pre after LIB lastBest = fresh.
Proof. intros H. unfold mergeResult. by rewrite H. Qed.

Lemma mergeResult_nonempty_prev (s : Scanner) (fresh : AllResult) (pre after : nat)
    (LIB : Z) (lastBest : option Z) :
  blocks (lastLoopResult s) ≠ [] →
  let merged := mergeResult s fresh pre after LIB lastBest in
  let kept := retainLast LIB lastBest 0 (blocks (lastLoopResult s))
                (txs (lastLoopResult s)) in
  blocks merged
    = take pre (blocks fresh)
      ++ filter (fun b => LIB < heightOf b ≤ toNumber lastBest) (blocks (lastLoopResult s))
      ++ drop pre (blocks fresh)
  ∧ txs merged = take pre (txs fresh) ++ kept.2 ++ drop pre (txs fresh)
  ∧ length kept.2
    = length (filter (fun b => LIB < heightOf b ≤ toNumber lastBest)
                (blocks (lastLoopResult s)))
  ∧ type merged = type fresh.
Proof.
  intros Hne merged kept. subst merged kept. unfold mergeResult.
  destruct (blocks (lastLoopResult s)) as [|b0 bs0] eqn:Eb; [done|].
  rewrite <- Eb. replace (length (blocks (lastLoopResult s)) =? 0)%nat with false
    by (rewrite Eb; done).
  pose proof (retainLast_blocks LIB lastBest 0 (blocks (lastLoopResult s))
                (txs (lastLoopResult s))) as Hr.
  pose proof (retainLast_lengths LIB lastBest 0 (blocks (lastLoopResult s))
                (txs (lastLoopResult s))) as Hl.
  destruct (retainLast LIB lastBest 0 _ _) as [lb lt]. simpl in *.
  rewrite <- Hr. by repeat split.
Qed.

(** X8. The merge keeps every fresh block, in order, and adds only
    blocks of the previous result whose height is in the window
    [LIB < h <= lastBestHeight]; it keeps [type]; and when the fresh
    result has one [txs] entry per block, so has the merged result,
    whatever the previous result looks like. *)
Theorem mergeResult_keeps_fresh (s : Scanner) (fresh : AllResult) (pre after : nat)
    (LIB : Z) (lastBest : option Z) :
  let merged := mergeResult s fresh pre after LIB lastBest in
  blocks fresh `sublist_of` blocks merged
  ∧ (∀ b, b ∈ blocks merged →
          b ∈ blocks fresh
          ∨ (b ∈ blocks (lastLoopResult s) ∧ LIB < heightOf b ≤ toNumber lastBest))
  ∧ type merged = type fresh
  ∧ (aligned fresh → aligned merged).
Proof.
  intros merged. subst merged.
  destruct (blocks (lastLoopResult s)) as [|b0 bs0] eqn:Eb.
  { rewrite mergeResult_empty_prev by done. repeat split; try done. by left. }
  destruct (mergeResult_nonempty_prev s fresh pre after LIB lastBest)
    as (Hb & Ht & Hk & Hty); [by rewrite Eb|].
  rewrite <- Eb. split; [|split; [|split; [done|]]].
  - rewrite Hb. rewrite <- (take_drop pre (blocks fresh)) at 1.
    apply sublist_app; [done|]. by apply sublist_inserts_l.
  - intros b. rewrite Hb, !elem_of_app, list_elem_of_filter.
    intros [Hin|[[Hk' Hin]|Hin]].
    + left. by eapply subseteq_take.
    + right. by split.
    + left. by eapply subseteq_drop.
  - unfold aligned. intros Hal. rewrite Hb, Ht, !length_app, Hk, !length_take, !length_drop.
    lia.
Qed.

Lemma mergeResult_keeps_fresh_witness :
  aligned (mergeResult mergingScanner (withTxs [101; 106; 107]) 1 2 101 (Some 105)).
Proof.
  apply (mergeResult_keeps_fresh mergingScanner (withTxs [101; 106; 107]) 1 2 101 (Some 105)).
  reflexivity.
Defined.

(** X9. When the LIB height has caught up with [lastBestHeight] (or
    [lastBestHeight] is unset) nothing of the previous result is
    retained: the merged blocks and txs are the fresh ones. *)
Theorem mergeResult_nothing_retained (s : Scanner) (fresh : AllResult) (pre after : nat)
    (LIB : Z) (lastBest : option Z) :
  toNumber lastBest ≤ LIB →
  blocks (mergeResult s fresh pre after LIB lastBest) = blocks fresh
  ∧ txs (mergeResult s fresh pre after LIB lastBest) = txs fresh.
Proof.
  intros Hle. destruct (blocks (lastLoopResult s)) as [|b0 bs0] eqn:Eb.
  { by rewrite mergeResult_empty_prev. }
  destruct (mergeResult_nonempty_prev s fresh pre after LIB lastBest)
    as (Hb & Ht & Hk & _); [by rewrite Eb|].
  assert (Hnone : filter (fun b => LIB < heightOf b ≤ toNumber lastBest)
                    (blocks (lastLoopResult s)) = []).
  { clear -Hle. induction (blocks (lastLoopResult s)) as [|b bs IH]; [done|].
    rewrite filter_cons, decide_False by lia. exact IH. }
  rewrite Hnone in Hb, Hk. apply nil_length_inv in Hk.
  rewrite Hb, Ht, Hk. simpl. by rewrite !take_drop.
Qed.

Lemma mergeResult_nothing_retained_witness :
  map heightOf (blocks (mergeResult mergingScanner (withTxs [101; 106; 107]) 1 2 105
                          (Some 105)))
  = [101; 106; 107].
Proof.
  destruct (mergeResult_nothing_retained mergingScanner (withTxs [101; 106; 107]) 1 2 105
              (Some 105)) as [Hb _].
  - simpl. lia.
  - rewrite Hb. reflexivity.
Defined.

(** ** The result a tick retains *)

Lemma answersFor_heights (env : Env) (hs : list Z) (rs : list (Block * list Transaction)) :
  answersAtHeight env → answersFor env hs rs → map heightOf (map fst rs) = hs.
Proof.
  intros Hat Hfor. unfold answersFor in Hfor.
  induction Hfor as [|h [b ts] hs rs' (t & Ht) _ IH]; simpl; [done|].
  f_equal; [by eapply Hat|exact IH].
Qed.

Lemma heights_filter (P : Z → Prop) `{∀ x, Decision (P x)} (bs : list Block) :
  map heightOf (filter (fun b => P (heightOf b)) bs) = filter P (map heightOf bs).
Proof.
  induction bs as [|b bs IH]; [done|]. simpl. rewrite !filter_cons.
  destruct (decide (P (heightOf b))); simpl; by rewrite IH.
Qed.

Lemma planned_sorted (s : Scanner) (LIB a : Z) (n : nat) :
  StronglySorted Z.lt
    (LIBHeights LIB (heightRange a n) ++ bestHeights s LIB (heightRange a n)).
Proof.
  apply StronglySorted_app. split; [|split].
  - intros x y [Hx _]%list_elem_of_filter [Hy _]%list_elem_of_filter. lia.
  - apply StronglySorted_lt_filter, heightRange_sorted.
  - apply StronglySorted_lt_filter, heightRange_sorted.
Qed.

Lemma mergeResult_aligned (s : Scanner) (fresh : AllResult) (pre after : nat)
    (LIB : Z) (lastBest : option Z) :
  aligned fresh → aligned (mergeResult s fresh pre after LIB lastBest).
Proof.
  intros Hal. destruct (blocks (lastLoopResult s)) as [|b0 bs0] eqn:Eb.
  { by rewrite mergeResult_empty_prev. }
  destruct (mergeResult_nonempty_prev s fresh pre after LIB lastBest)
    as (Hb & Ht & Hk & _); [by rewrite Eb|].
  unfold aligned in *. rewrite Hb, Ht, !length_app, Hk, !length_take, !length_drop. lia.
Qed.

Lemma map_take_heights {A B} (f : A → B) (n : nat) (l : list A) :
  map f (take n l) = take n (map f l).
Proof. revert l. induction n; intros [|x l]; simpl; f_equal; auto. Qed.

Lemma map_drop_heights {A B} (f : A → B) (n : nat) (l : list A) :
  map f (drop n l) = drop n (map f l).
Proof. revert l. induction n; intros [|x l]; simpl; auto. Qed.

(** X10. In ALL mode, with a chain that answers a query for a height
    with the block of that height, a tick keeps [lastLoopResult] well
    formed: if it had one [txs] entry per block and strictly ascending
    block heights before the tick, it has so after it (and what the tick
    inserted is that result). *)
Theorem tick_keeps_result_ordered (env : Env) (fuel : nat) (w w' : World) :
  tick env fuel w = Done tt w' →
  scanMode (config (this w)) = "all" →
  answersAtHeight env →
  aligned (lastLoopResult (this w)) →
  ascending (blockHeights (lastLoopResult (this w))) →
  aligned (lastLoopResult (this w'))
  ∧ ascending (blockHeights (lastLoopResult (this w')))
  ∧ NoDup (blockHeights (lastLoopResult (this w'))).
Proof.
  intros H Ha Hat Hal Hasc.
  assert (Hsorted0 : StronglySorted Z.lt (blockHeights (lastLoopResult (this w))))
    by (by apply ascending_StronglySorted).
  enough (Hgoal : aligned (lastLoopResult (this w'))
                  ∧ StronglySorted Z.lt (blockHeights (lastLoopResult (this w')))).
  { destruct Hgoal as [? Hs]. split; [done|].
    split; [by apply ascending_StronglySorted | by apply StronglySorted_lt_NoDup]. }
  destruct (chainStatus env (clock w)) as [e|st] eqn:Hst.
  { rewrite (tick_status_fails env fuel w e Hst) in H. discriminate H. }
  rewrite (tick_unfold env fuel w st Hst) in H.
  destruct (skipTick (incr_loopTimes (this w)) (BestChainHeight st)).
  { injection H as <-. by split. }
  apply tickBody_Done in H
    as (hs & batches & fetched & ins & Hplan & _ & Hres & _ & _ & _ & _ & _ & _ & _ & Hf).
  simpl in *. apply loopHeights_inr in Hplan. simpl in Hplan.
  unfold plannedHeights in Hres. simpl in Hres. rewrite Ha in Hres. simpl in Hres.
  destruct fetched as [fresh|b]; [|destruct Hres as [Hbad _]; congruence].
  destruct Hf as [-> Hlast]. injection Hlast as ->.
  destruct Hres as (_ & rs & Hfor & ->).
  pose proof (answersFor_heights env _ rs Hat Hfor) as Hh.
  set (LIB := LastIrreversibleBlockHeight st) in *.
  set (s1 := incr_loopTimes (this w)) in *.
  set (fresh := {| blocks := map fst rs; txs := map (fun x => Some (snd x)) rs;
                   type := Some LOOP; LIBHeight := None; bestHeight := None |}) in *.
  assert (Hfal : aligned fresh) by (unfold aligned; simpl; by rewrite !length_map).
  unfold blockHeights, aligned. simpl.
  split.
  { apply (mergeResult_aligned s1 fresh); exact Hfal. }
  destruct (blocks (lastLoopResult (this w))) as [|b0 bs0] eqn:Eb.
  { rewrite mergeResult_empty_prev by (subst s1; simpl; exact Eb).
    simpl. rewrite Hh, Hplan. apply planned_sorted. }
  destruct (mergeResult_nonempty_prev s1 fresh (length (LIBHeights LIB hs))
              (length (bestHeights s1 LIB hs)) LIB (lastBestHeight (this w)))
    as (Hb & _); [subst s1; simpl; by rewrite Eb|].
  rewrite Hb, !map_app. simpl blocks. rewrite map_take_heights, map_drop_heights.
  rewrite Hh, take_app_length, drop_app_length.
  pose proof (heights_filter (fun h => LIB < h ≤ toNumber (lastBestHeight (this w)))
                (blocks (lastLoopResult (this w)))) as Hhf.
  cbv beta in Hhf. rewrite Hhf. clear Hhf.
  subst s1. simpl lastLoopResult. fold (blockHeights (lastLoopResult (this w))).
  pose proof (planned_sorted (incr_loopTimes (this w)) LIB (currentQueries (this w) + 1)
                (Z.to_nat (BestChainHeight st - currentQueries (this w)))) as Hps.
  rewrite <- Hplan in Hps. apply StronglySorted_app in Hps as (_ & Hs1 & Hs2).
  apply StronglySorted_app. split; [|split; [done|]].
  - intros x y [Hx _]%list_elem_of_filter Hy. apply elem_of_app in Hy as [Hy|Hy].
    + apply list_elem_of_filter in Hy as [Hy _]. lia.
    + apply list_elem_of_filter in Hy as [Hy _]. simpl in Hy. lia.
  - apply StronglySorted_app. split; [|split; [|done]].
    + intros x y [Hx _]%list_elem_of_filter [Hy _]%list_elem_of_filter. simpl in Hy. lia.
    + by apply StronglySorted_lt_filter.
Qed.

Lemma tick_keeps_result_ordered_witness :
  ∃ w',
    tick laterChain 20 (worldOf mergingScanner) = Done tt w'
    ∧ blockHeights (lastLoopResult (this w'))
      = [101; 102; 103; 104; 105; 106; 107; 108; 109; 110; 111; 112]
    ∧ ascending (blockHeights (lastLoopResult (this w'))).
Proof.
  assert (Hrun : ∃ w', tick laterChain 20 (worldOf mergingScanner) = Done tt w')
    by (eexists; vm_compute; reflexivity).
  destruct Hrun as [w' Hrun].
  destruct (tick_keeps_result_ordered laterChain 20 _ w' Hrun) as (_ & Hasc & _).
  - reflexivity.
  - apply chainOf_answersAtHeight.
  - reflexivity.
  - unfold blockHeights. simpl. unfold heightOf. simpl.
    repeat (apply ascending_cons_cons; [lia|]). apply ascending_short. simpl. lia.
  - exists w'. split; [exact Hrun|]. split; [|exact Hasc].
    vm_compute in Hrun. injection Hrun as <-. reflexivity.
Defined.

(** ** The gap backfill, whatever the chain does *)

Lemma gapLoop_fetches (env : Env) (fuel : nat) (best : Z) (c : Config) :
  0 < maxInsert c →
  ∀ (n : nat) (i cur left : Z) (w w' : World) (cur' : Z),
    config (this w) = c →
    gapLoop env n fuel best i cur left w = Done cur' w' →
    ∃ evs, trace w' = trace w ++ evs
           ∧ StronglySorted Z.lt (concat (fetches evs))
           ∧ Forall (fun h => startHeight c + i ≤ h) (concat (fetches evs))
           ∧ length (inserts evs) = length (fetches evs).
Proof.
  intros Hm. induction n as [|n IH]; intros i cur left w w' cur' Hc H; simpl in H; [done|].
  destruct (i <=? left).
  2:{ injection H as <- <-. exists []. rewrite app_nil_r. repeat split; try done; constructor. }
  apply bind_Done in H as (s & w0 & Hs & H). injection Hs as <- <-. rewrite Hc in H.
  apply bind_Done in H as (allHeights & w0 & Hn & H).
  unfold newArrayMap in Hn.
  destruct ((maxInsert c <? 0) || (4294967295 <? maxInsert c)); [discriminate Hn|].
  injection Hn as <- <-.
  change (map (fun index => startHeight c + i + Z.of_nat index) (seq 0 (Z.to_nat (maxInsert c))))
    with (heightRange (startHeight c + i) (Z.to_nat (maxInsert c))) in H.
  set (chunk := filter (fun v => v ≤ cur) (heightRange (startHeight c + i)
                                            (Z.to_nat (maxInsert c)))) in *.
  apply bind_Done in H as (r & w1 & Hq & H).
  apply queryBlockAndTxs_inv in Hq as (Hth1 & batches & Htr1 & _).
  apply bind_Done in H as ([] & w2 & Hi & H).
  apply insert_inv in Hi as (Hth2 & Htr2 & _).
  apply bind_Done in H as ([b l] & w3 & Hg & H).
  apply getHeight_Done in Hg as (st & _ & _ & -> & Hth3 & Htr3).
  apply bind_Done in H as (s' & w4 & Hs' & H). injection Hs' as <- <-.
  assert (Hc3 : config (this w3) = c) by congruence. rewrite Hc3 in H.
  apply IH in H as (evs & Htr4 & Hsort & Hge & Hlen); [|exact Hc3].
  exists ((EvFetch chunk :: map EvQueryBatch batches)
          ++ [EvInsert (tagHeights cur best r)] ++ [EvChainStatus st] ++ evs).
  split; [rewrite Htr4, Htr3, Htr2, Htr1; by rewrite <- !app_assoc|].
  rewrite fetches_app, inserts_app. cbn [fetches inserts app].
  rewrite fetches_batches, inserts_batches. simpl.
  assert (Hchunk : ∀ h, h ∈ chunk → startHeight c + i ≤ h < startHeight c + i + maxInsert c).
  { intros h [_ Hh%heightRange_elem]%list_elem_of_filter. lia. }
  split; [|split].
  - apply StronglySorted_app. split; [|split; [|done]].
    + intros x y Hx Hy. apply Hchunk in Hx. rewrite Forall_forall in Hge.
      apply Hge in Hy. lia.
    + apply StronglySorted_lt_filter, heightRange_sorted.
  - apply Forall_app. split.
    + apply Forall_forall. intros h Hh. apply Hchunk in Hh. lia.
    + eapply Forall_impl; [exact Hge|]. simpl. intros h Hh. lia.
  - by rewrite Hlen.
Qed.

(** X11. Whatever the status reads say, a gap backfill that completes
    with [maxInsert > 0] has fetched strictly ascending heights, none
    below [startHeight] and none twice, and has inserted one result per
    fetch. *)
Theorem queryGapHeight_fetches_once (env : Env) (fuel : nat) (w w' : World) :
  queryGapHeight env fuel w = Done tt w' →
  0 < maxInsert (config (this w)) →
  ∃ evs, trace w' = trace w ++ evs
         ∧ ascending (concat (fetches evs))
         ∧ NoDup (concat (fetches evs))
         ∧ Forall (fun h => startHeight (config (this w)) ≤ h) (concat (fetches evs))
         ∧ length (inserts evs) = length (fetches evs).
Proof.
  intros H Hm. unfold queryGapHeight in H.
  apply bind_Done in H as ([b l] & w1 & Hg & H).
  apply getHeight_Done in Hg as (st0 & Hst & -> & -> & Hth1 & Htr1).
  apply bind_Done in H as (s & w0 & Hs & H). injection Hs as <- <-. simpl in H.
  rewrite Hth1 in H.
  destruct (libOf st0 <=? startHeight (config (this w))).
  - injection H as <-. exists [EvChainStatus st0]. split; [done|]. simpl.
    repeat split; try constructor. by intros i x y ?.
  - apply bind_Done in H as (cur' & w2 & Hl & H).
    apply (gapLoop_fetches env fuel _ (config (this w)) Hm) in Hl
      as (evs & Htr2 & Hsort & Hge & Hlen); [|by rewrite Hth1].
    unfold bind, setThis in H. injection H as <-. simpl.
    exists (EvChainStatus st0 :: evs). split; [rewrite Htr2, Htr1; by rewrite <- app_assoc|].
    simpl. split; [by apply ascending_StronglySorted|].
    split; [by apply StronglySorted_lt_NoDup|]. split; [|done].
    eapply Forall_impl; [exact Hge|]. simpl. intros h Hh. lia.
Qed.

Lemma queryGapHeight_fetches_once_witness :
  ∃ w' evs,
    queryGapHeight advancingLIB 30 (worldOf (scannerOf smallBatches)) = Done tt w'
    ∧ trace w' = [] ++ evs
    ∧ NoDup (concat (fetches evs))
    ∧ length (inserts evs) = length (fetches evs).
Proof.
  assert (Hrun : ∃ w', queryGapHeight advancingLIB 30 (worldOf (scannerOf smallBatches))
                       = Done tt w')
    by (eexists; vm_compute; reflexivity).
  destruct Hrun as [w' Hrun].
  destruct (queryGapHeight_fetches_once _ _ _ _ Hrun) as (evs & Htr & _ & Hnd & _ & Hlen).
  - simpl. lia.
  - exists w', evs. split; [exact Hrun|]. split; [exact Htr|]. split; [exact Hnd|exact Hlen].
Defined.

Lemma quietChain_steady : steadyLIB quietChain 30.
Proof. intros t. by eexists. Qed.

Lemma chainOf_chainAnswers statuses (c : Config) (hs : list Z) :
  scanMode c = "all" → chainAnswers (chainOf statuses) c hs.
Proof.
  intros Ha. split; [intros _; apply chainOf_allAnswers|].
  intros Hl. rewrite Ha in Hl. discriminate Hl.
Qed.

Lemma queryGapHeight_steady_covers_witness :
  ∃ w' evs,
    queryGapHeight quietChain 50 (worldOf (scannerOf smallBatches)) = Done tt w'
    ∧ trace w' = [] ++ evs
    ∧ concat (fetches evs) = heightRange 1 30
    ∧ currentQueries (this w') = 30.
Proof.
  destruct (queryGapHeight_steady_covers quietChain 50 (worldOf (scannerOf smallBatches)) 30)
    as (w' & evs & Hrun & Htr & Hcat & _ & _ & _ & Hq).
  - simpl. lia.
  - reflexivity.
  - by left.
  - intros hs. by apply chainOf_chainAnswers.
  - apply chainOf_sinkAccepts.
  - apply quietChain_steady.
  - simpl. lia.
  - simpl. lia.
  - simpl. lia.
  - exists w', evs. split; [exact Hrun|]. split; [exact Htr|]. split; [exact Hcat|exact Hq].
Defined.

Lemma start_Thrown_witness :
  ∃ w' w1,
    start (chainOf (fun _ => inl (CollaboratorError "chain unreachable"))) 10
      (worldOf (scannerOf defaultOptions))
    = Thrown (CollaboratorError "chain unreachable") w'
    ∧ tryBlock (chainOf (fun _ => inl (CollaboratorError "chain unreachable"))) 10
        (worldOf (scannerOf defaultOptions))
      = Thrown (CollaboratorError "chain unreachable") w1
    ∧ scanPhase w' = ERROR.
Proof.
  assert (Hrun : ∃ w', start (chainOf (fun _ => inl (CollaboratorError "chain unreachable")))
                         10 (worldOf (scannerOf defaultOptions))
                       = Thrown (CollaboratorError "chain unreachable") w')
    by (eexists; vm_compute; reflexivity).
  destruct Hrun as [w' Hrun].
  destruct (start_Thrown _ _ _ _ _ Hrun) as ((w1 & Hbody & _) & Hph & _).
  exists w', w1. split; [exact Hrun|]. split; [exact Hbody|exact Hph].
Defined.

(** ** [start] that returns *)

Lemma isQueryEvent_isPhaseEvent e : isQueryEvent e → isPhaseEvent e.
Proof. by destruct e. Qed.

Lemma backfill_queryBlockAndTxs env fuel heights ty :
  preserves isPhaseEvent eq (queryBlockAndTxs env fuel heights ty).
Proof.
  eapply preserves_weaken; [apply isQueryEvent_isPhaseEvent| |apply preserves_queryBlockAndTxs].
  by intros s s' ->.
Qed.

Lemma backfill_insert env r : preserves isPhaseEvent eq (dbOperator_insert env r).
Proof.
  unfold dbOperator_insert.
  apply preserves_bind; [apply _|apply preserves_callClock; apply _|intros t].
  apply preserves_bind; [apply _|apply preserves_logEvent; first [exact I|apply _]|intros ?].
  destruct (dbInsert _ _ _); [apply preserves_throw; apply _|apply preserves_ret; apply _].
Qed.

Lemma backfill_getHeight env : preserves isPhaseEvent eq (getHeight env).
Proof.
  unfold getHeight.
  apply preserves_bind; [apply _|apply preserves_callClock; apply _|intros t].
  apply preserves_bind; [apply _|apply preserves_liftResult; apply _|intros st].
  apply preserves_bind; [apply _|apply preserves_logEvent; first [exact I|apply _]|intros ?].
  apply preserves_ret; apply _.
Qed.

Lemma backfill_missingLoop env n fuel i : preserves isPhaseEvent eq (missingLoop env n fuel i).
Proof.
  revert i. induction n as [|n IH]; intros i; simpl; [by intros w|].
  apply preserves_bind; [apply _|apply preserves_getThis; apply _|intros s].
  destruct (_ <=? _); [|apply preserves_ret; apply _].
  apply preserves_bind; [apply _|apply backfill_queryBlockAndTxs|intros r].
  apply preserves_bind; [apply _|apply backfill_insert|intros ?]. apply IH.
Qed.

Lemma backfill_gapLoop env n fuel best i cur left :
  preserves isPhaseEvent eq (gapLoop env n fuel best i cur left).
Proof.
  revert i cur left. induction n as [|n IH]; intros i cur left; simpl; [by intros w|].
  destruct (_ <=? _); [|apply preserves_ret; apply _].
  apply preserves_bind; [apply _|apply preserves_getThis; apply _|intros s].
  apply preserves_bind; [apply _|apply preserves_liftResult; apply _|intros hs].
  apply preserves_bind; [apply _|apply backfill_queryBlockAndTxs|intros r].
  apply preserves_bind; [apply _|apply backfill_insert|intros ?].
  apply preserves_bind; [apply _|apply backfill_getHeight|intros st].
  apply preserves_bind; [apply _|apply preserves_getThis; apply _|intros s'].
  apply IH.
Qed.

Lemma missingLoop_first_round env n fuel w w' :
  missingLoop env n fuel 0 w = Done tt w' →
  this w' = this w
  ∧ ∃ evs, trace w' = trace w ++ evs ∧ Forall isPhaseEvent evs ∧ inserts evs ≠ [].
Proof.
  destruct n as [|n]; simpl; [done|]. intros H.
  apply bind_Done in H as (s & w0 & Hs & H). injection Hs as <- <-.
  destruct (Z.leb_spec 0 (Z.of_nat (length (missingHeightList (config (this w))))))
    as [_|?]; [|lia].
  apply bind_Done in H as (r & w1 & Hq & H).
  apply queryBlockAndTxs_inv in Hq as (Hth1 & batches & Htr1 & _).
  apply bind_Done in H as ([] & w2 & Hi & H).
  apply insert_inv in Hi as (Hth2 & Htr2 & _).
  pose proof (backfill_missingLoop env n fuel (0 + maxInsert (config (this w))) w2) as Hp.
  rewrite H in Hp. destruct Hp as [Hq (evs & Htr3 & Hev)].
  split; [congruence|].
  exists ((EvFetch (slice (missingHeightList (config (this w))) 0
                      (0 + maxInsert (config (this w)))) :: map EvQueryBatch batches)
          ++ [EvInsert r] ++ evs).
  split; [rewrite Htr3, Htr2, Htr1; by rewrite <- !app_assoc|]. split.
  - apply Forall_app. split.
    + constructor; [exact I|]. apply Forall_forall.
      intros e (c & -> & _)%list_elem_of_fmap. exact I.
    + constructor; [exact I|exact Hev].
  - rewrite inserts_app. cbn [inserts]. rewrite inserts_batches. simpl. discriminate.
Qed.

Lemma queryGapHeight_first_read env fuel w w' :
  queryGapHeight env fuel w = Done tt w' →
  config (this w') = config (this w)
  ∧ currentPhase (this w') = currentPhase (this w)
  ∧ lastLoopResult (this w') = lastLoopResult (this w)
  ∧ loopTimes (this w') = loopTimes (this w)
  ∧ ∃ evs, trace w' = trace w ++ evs ∧ Forall isPhaseEvent evs ∧ statusReads evs ≠ [].
Proof.
  intros H. unfold queryGapHeight in H.
  apply bind_Done in H as ([b l] & w1 & Hg & H).
  apply getHeight_Done in Hg as (st0 & Hst & -> & -> & Hth1 & Htr1).
  apply bind_Done in H as (s & w0 & Hs & H). injection Hs as <- <-. simpl in H.
  destruct (libOf st0 <=? startHeight (config (this w1))).
  - injection H as <-. rewrite Hth1. repeat split; try done.
    exists [EvChainStatus st0]. split; [done|]. split; [|discriminate].
    constructor; [exact I|constructor].
  - apply bind_Done in H as (cur' & w2 & Hl & H).
    pose proof (backfill_gapLoop env fuel fuel (BestChainHeight st0) 0 (libOf st0)
                  (libOf st0 - startHeight (config (this w1))) w1) as Hp.
    rewrite Hl in Hp. destruct Hp as [Hq (evs & Htr2 & Hev)].
    unfold bind, setThis in H. injection H as <-. simpl. rewrite <- Hq, Hth1.
    repeat split; try done.
    exists (EvChainStatus st0 :: evs). split; [rewrite Htr2, Htr1; by rewrite <- app_assoc|].
    split; [|discriminate]. constructor; [exact I|exact Hev].
Qed.

Lemma statusReads_app (e1 e2 : list Event) :
  statusReads (e1 ++ e2) = statusReads e1 ++ statusReads e2.
Proof. induction e1 as [|[] e1 IH]; simpl; by rewrite ?IH. Qed.

(** X12. A [start] that returns has gone through every phase and left
    the scanner in phase LOOP: its trace is [init], then backfill events
    with at least one insert (the missing-height loop runs once even for
    an empty list) and at least one status read, then [setCallback] and
    [startTimer]; neither [endTimer] nor [destroy] was called, and the
    configuration, [lastLoopResult] and [loopTimes] are as before. *)
Theorem start_returns (env : Env) (fuel : nat) (w w' : World) :
  start env fuel w = Done tt w' →
  scanPhase w' = LOOP
  ∧ config (this w') = config (this w)
  ∧ lastLoopResult (this w') = lastLoopResult (this w)
  ∧ loopTimes (this w') = loopTimes (this w)
  ∧ ∃ evs,
      trace w' = trace w ++ EvInit :: evs ++ [EvSetCallback; EvStartTimer]
      ∧ Forall isPhaseEvent evs
      ∧ inserts evs ≠ []
      ∧ statusReads evs ≠ [].
Proof.
  unfold start, tryCatch. intros H.
  match type of H with
  | context [match ?m w with _ => _ end] => destruct (m w) as [a w1|e w1|] eqn:E
  end; [|revert H; unfold scheduler_endTimer, dbOperator_destroy; by run_step|done].
  destruct a. injection H as <-.
  apply bind_Done in E as ([] & w2 & Hinit & E).
  assert (Hi : this w2 = this w ∧ trace w2 = trace w ++ [EvInit]).
  { revert Hinit. unfold dbOperator_init. run_step.
    destruct (dbInit env (clock w)); [done|]. by intros [= <-]. }
  destruct Hi as [Hth2 Htr2].
  apply bind_Done in E as ([] & w3 & Hset & E). injection Hset as <-.
  apply bind_Done in E as ([] & w4 & Hmiss & E).
  unfold queryMissingHeight in Hmiss.
  apply missingLoop_first_round in Hmiss as (Hth4 & ev1 & Htr4 & Hev1 & Hins).
  apply bind_Done in E as ([] & w5 & Hset & E). injection Hset as <-.
  apply bind_Done in E as ([] & w6 & Hgap & E).
  apply queryGapHeight_first_read in Hgap as (Hc6 & Hp6 & Hr6 & Hl6 & ev2 & Htr6 & Hev2 & Hst).
  apply bind_Done in E as ([] & w7 & Hset & E). injection Hset as <-.
  unfold queryInLoop, scheduler_setCallback, scheduler_startTimer, bind, logEvent in E.
  injection E as <-. simpl in *.
  rewrite Hc6, Hr6, Hl6, Hth4. simpl. rewrite Hth2.
  repeat split; try done.
  exists (ev1 ++ ev2). split; [|split; [by apply Forall_app|split]].
  - rewrite Htr6. simpl. rewrite Htr4. simpl. rewrite Htr2, <- !app_assoc. reflexivity.
  - rewrite inserts_app. destruct (inserts ev1); [done|discriminate].
  - rewrite statusReads_app. destruct (statusReads ev2); [done|].
    by destruct (statusReads ev1).
Qed.

Lemma start_returns_witness :
  ∃ w',
    start quietChain 50 (worldOf (scannerOf smallBatches)) = Done tt w'
    ∧ scanPhase w' = LOOP.
Proof.
  assert (Hrun : ∃ w', start quietChain 50 (worldOf (scannerOf smallBatches)) = Done tt w')
    by (eexists; vm_compute; reflexivity).
  destruct Hrun as [w' Hrun].
  destruct (start_returns _ _ _ _ Hrun) as [Hph _].
  exists w'. split; [exact Hrun|exact Hph].
Defined.

(** ** Errors of a LISTENER-mode fetch *)

Lemma allSettled_inl {A} (f : Z → JsError + A) (hs : list Z) (e : JsError) :
  allSettled (map f hs) = inl e → ∃ h, h ∈ hs ∧ f h = inl e.
Proof.
  induction hs as [|h hs IH]; simpl; [done|].
  destruct (f h) as [e'|r] eqn:E.
  - intros [= <-]. exists h. split; [by left|done].
  - destruct (allSettled (map f hs)) as [e'|rs]; [|done].
    intros [= <-]. destruct IH as (h' & Hh & Hf); [done|].
    exists h'. split; [by right|done].
Qed.

Lemma queryBloomLoop_fails (env : Env) (ls : list Listener) (limit : Z) (fuel : nat) :
  0 < limit →
  ∀ (done rest : list Z) (i : Z)
    (results : list (option (TaggedBlock * list TaggedTransaction))) (w : World),
    (length rest < fuel)%nat →
    Z.of_nat (length done) ≤ i →
    (rest ≠ [] → i = Z.of_nat (length done)) →
    match queryBloomLoop env fuel limit ls (done ++ rest) i results w with
    | Done _ _ => True
    | Thrown e _ => ∃ t h, h ∈ rest ∧ queryBlocksAndTxsByBloom env t h ls = inl e
    | OutOfFuel => False
    end.
Proof.
  intros Hlimit. induction fuel as [|fuel IH]; intros done rest i results w Hfuel Hi Hne;
    [lia|].
  simpl. rewrite length_app.
  destruct rest as [|h rest'].
  - destruct (Z.ltb_spec i (Z.of_nat (length done + length (@nil Z)))) as [Hbad|_];
      [simpl in Hbad; lia|exact I].
  - set (rest := h :: rest') in *. rewrite (Hne ltac:(done)).
    destruct (Z.ltb_spec (Z.of_nat (length done))
                (Z.of_nat (length done + length rest))) as [_|Hbad];
      [|subst rest; simpl in Hbad; lia].
    rewrite slice_chunk by done.
    set (chunk := take (Z.to_nat limit) rest).
    unfold bind at 1. unfold promiseAll, bind, callClock, logEvent, liftResult. simpl.
    destruct (allSettled (map (fun v => queryBlocksAndTxsByBloom env (clock w) v ls) chunk))
      as [e|answers] eqn:Hans; unfold ret, throw; cbv beta iota.
    + apply allSettled_inl in Hans as (x & Hx & Hq).
      exists (clock w), x. split; [|exact Hq]. eapply subseteq_take; exact Hx.
    + assert (Hsplit : done ++ rest = (done ++ chunk) ++ drop (Z.to_nat limit) rest).
      { rewrite <- app_assoc. f_equal. subst chunk. by rewrite take_drop. }
      rewrite Hsplit.
      match goal with
      | |- match queryBloomLoop _ _ _ _ _ ?i' ?r' ?w' with _ => _ end =>
          pose proof (IH (done ++ chunk) (drop (Z.to_nat limit) rest) i' r' w') as Hrec
      end.
      destruct (queryBloomLoop _ _ _ _ _ _ _ _) as [out w1|e w1|]; [exact I| |].
      * destruct Hrec as (t & x & Hx & Hq).
        { rewrite length_drop. subst rest. simpl in *. lia. }
        { rewrite length_app. subst chunk. rewrite length_take. lia. }
        { intros Hd. rewrite length_app. subst chunk. rewrite length_take.
          destruct (decide (Z.to_nat limit < length rest)%nat); [lia|].
          rewrite drop_ge in Hd by lia. done. }
        exists t, x. split; [|exact Hq]. eapply subseteq_drop; exact Hx.
      * apply Hrec.
        { rewrite length_drop. subst rest. simpl in *. lia. }
        { rewrite length_app. subst chunk. rewrite length_take. lia. }
        { intros Hd. rewrite length_app. subst chunk. rewrite length_take.
          destruct (decide (Z.to_nat limit < length rest)%nat); [lia|].
          rewrite drop_ge in Hd by lia. done. }
Qed.

Lemma pushBlock_domain (b : TaggedBlock) (ts : list TaggedTransaction) (tags : list string) :
  ∀ acc acc' : gmap string (list BucketEntry),
    pushBlock acc b ts tags = inr acc' → ∀ x, acc' !! x = None ↔ acc !! x = None.
Proof.
  induction tags as [|t tags IH]; intros acc acc'; simpl.
  - by intros [= <-].
  - destruct (acc !! t) as [bucket|] eqn:Ht; [|done]. intros H x.
    rewrite (IH _ _ H x). destruct (decide (t = x)) as [<-|Hne].
    + rewrite lookup_insert_eq, Ht. done.
    + by rewrite lookup_insert_ne.
Qed.

Lemma pushBlock_inl (b : TaggedBlock) (ts : list TaggedTransaction) (tags : list string) :
  ∀ (acc : gmap string (list BucketEntry)) (e : JsError),
    pushBlock acc b ts tags = inl e → e = TypeError ∧ ∃ x, x ∈ tags ∧ acc !! x = None.
Proof.
  induction tags as [|t tags IH]; intros acc e; simpl; [done|].
  destruct (acc !! t) as [bucket|] eqn:Ht.
  - intros H. destruct (IH _ _ H) as (-> & x & Hx & Hl). split; [done|].
    exists x. split; [by right|]. destruct (decide (t = x)) as [<-|Hne].
    + by rewrite lookup_insert_eq in Hl.
    + by rewrite lookup_insert_ne in Hl.
  - intros [= <-]. split; [done|]. exists t. split; [by left|done].
Qed.

Lemma pushBlock_missing (b : TaggedBlock) (ts : list TaggedTransaction) (tags : list string)
    (x : string) :
  x ∈ tags →
  ∀ acc : gmap string (list BucketEntry),
    acc !! x = None → pushBlock acc b ts tags = inl TypeError.
Proof.
  induction tags as [|t tags IH]; intros Hx acc Hl; [by apply elem_of_nil in Hx|].
  simpl. destruct (acc !! t) as [bucket|] eqn:Ht; [|done].
  apply IH.
  - apply elem_of_cons in Hx as [->|Hx]; [congruence|done].
  - rewrite lookup_insert_ne; [done|]. intros ->. congruence.
Qed.

Lemma bucketize_inl (rs : list (option (TaggedBlock * list TaggedTransaction))) :
  ∀ (acc : gmap string (list BucketEntry)) (e : JsError),
    bucketize acc rs = inl e →
    e = TypeError ∧ ∃ b ts x, Some (b, ts) ∈ rs ∧ x ∈ scanTags b ∧ acc !! x = None.
Proof.
  induction rs as [|[[b ts]|] rs IH]; intros acc e; simpl; [done| |].
  - destruct (pushBlock acc b ts (scanTags b)) as [e'|acc'] eqn:Hp.
    + intros [= <-]. destruct (pushBlock_inl _ _ _ _ _ Hp) as (-> & x & Hx & Hl).
      split; [done|]. exists b, ts, x. split; [by left|done].
    + intros H. destruct (IH _ _ H) as (-> & b' & ts' & x & Hin & Hx & Hl).
      split; [done|]. exists b', ts', x. split; [by right|]. split; [done|].
      by apply (pushBlock_domain _ _ _ _ _ Hp).
  - intros H. destruct (IH _ _ H) as (-> & b' & ts' & x & Hin & Hx & Hl).
    split; [done|]. exists b', ts', x. split; [by right|done].
Qed.

Lemma bucketize_inr (rs : list (option (TaggedBlock * list TaggedTransaction))) :
  ∀ (acc acc' : gmap string (list BucketEntry)),
    bucketize acc rs = inr acc' →
    ∀ b ts x, Some (b, ts) ∈ rs → x ∈ scanTags b → is_Some (acc !! x).
Proof.
  induction rs as [|[[b ts]|] rs IH]; intros acc acc' H b' ts' x Hin Hx; simpl in H.
  - by apply elem_of_nil in Hin.
  - destruct (pushBlock acc b ts (scanTags b)) as [e'|acc1] eqn:Hp; [done|].
    destruct (acc !! x) as [l|] eqn:Hl; [by eexists|exfalso].
    apply elem_of_cons in Hin as [[= -> ->]|Hin].
    + by rewrite (pushBlock_missing _ _ _ _ Hx _ Hl) in Hp.
    + destruct (IH _ _ H _ _ _ Hin Hx) as [l' Hl'].
      apply (pushBlock_domain _ _ _ _ _ Hp) in Hl. congruence.
  - apply elem_of_cons in Hin as [?|Hin]; [done|]. by eapply IH.
Qed.

(** X13. A LISTENER-mode fetch with a positive [concurrentQueryLimit]
    always ends.  It returns only if no answered block carries a tag
    outside the configured listeners; it throws either the error of a
    rejected query or, when all queries answered, a [TypeError] because
    some answered block carries a tag that no listener has
    ([acc[tag]] is [undefined]).  The scanner is untouched either way. *)
Theorem queryBlockAndTxsWithBloom_outcome (env : Env) (fuel : nat) (heights : list Z)
    (ty : QueryType) (w : World) :
  0 < concurrentQueryLimit (config (this w)) →
  (length heights < fuel)%nat →
  match queryBlockAndTxsWithBloom env fuel heights ty w with
  | Done r w' =>
      this w' = this w
      ∧ ∃ rs, bloomAnswersFor env (listeners (config (this w))) heights rs
              ∧ ¬ foreignTag (listeners (config (this w))) rs
              ∧ bucketize (tagsObj (map tag (listeners (config (this w))))) rs
                = inr (results r)
  | Thrown e w' =>
      this w' = this w
      ∧ ((∃ t h, h ∈ heights
                 ∧ queryBlocksAndTxsByBloom env t h (listeners (config (this w))) = inl e)
         ∨ (e = TypeError
            ∧ ∃ rs, bloomAnswersFor env (listeners (config (this w))) heights rs
                    ∧ foreignTag (listeners (config (this w))) rs))
  | OutOfFuel => False
  end.
Proof.
  intros Hlimit Hfuel.
  set (ls := listeners (config (this w))).
  pose proof (queryBloomLoop_fails env ls (concurrentQueryLimit (config (this w))) fuel
                Hlimit [] heights 0 [] w Hfuel) as Hf.
  pose proof (queryBloomLoop_Done env ls (concurrentQueryLimit (config (this w))) fuel
                [] heights 0 [] ) as Hd.
  pose proof (preserves_queryBloomLoop env fuel (concurrentQueryLimit (config (this w))) ls
                heights 0 [] w) as Hp.
  simpl in Hf, Hd.
  unfold queryBlockAndTxsWithBloom, bind, getThis, liftResult. simpl. fold ls.
  destruct (queryBloomLoop env fuel _ ls heights 0 [] w) as [out w1|e w1|] eqn:Hrun.
  - destruct (Hd out w w1 Hrun) as (chunks & rs & -> & _ & _ & _ & Hth & Hfor);
      [simpl; lia|done|]. simpl.
    destruct (bucketize (tagsObj (map tag ls)) rs) as [e|buckets] eqn:Hb; simpl.
    + split; [exact Hth|]. right.
      destruct (bucketize_inl _ _ _ Hb) as (-> & b & ts & x & Hin & Hx & Hl).
      split; [done|]. exists rs. split; [exact Hfor|]. exists b, ts, x.
      split; [done|]. split; [done|]. intros Hm.
      rewrite tagsObj_lookup, decide_True in Hl by done. done.
    + split; [exact Hth|]. exists rs. split; [exact Hfor|]. split; [|done].
      intros (b & ts & x & Hin & Hx & Hm).
      destruct (bucketize_inr _ _ _ Hb _ _ _ Hin Hx) as [l Hl].
      rewrite tagsObj_lookup, decide_False in Hl by done. done.
  - destruct Hp as [Hq _]. split; [by symmetry|]. left.
    destruct Hf as (t & h & Hh & Hq'); [simpl; lia|done|]. by exists t, h.
  - apply Hf; [simpl; lia|done].
Qed.

Lemma queryBlockAndTxsWithBloom_outcome_witness :
  ∃ w',
    queryBlockAndTxsWithBloom taggedChain 10 [1; 2; 3] LOOP (worldOf (scannerOf onlyListenerA))
    = Thrown TypeError w'
    ∧ this w' = scannerOf onlyListenerA.
Proof.
  assert (Hrun : ∃ w',
    queryBlockAndTxsWithBloom taggedChain 10 [1; 2; 3] LOOP (worldOf (scannerOf onlyListenerA))
    = Thrown TypeError w') by (eexists; vm_compute; reflexivity).
  destruct Hrun as [w' Hrun].
  pose proof (queryBlockAndTxsWithBloom_outcome taggedChain 10 [1; 2; 3] LOOP
                (worldOf (scannerOf onlyListenerA)) ltac:(simpl; lia) ltac:(simpl; lia)) as H.
  rewrite Hrun in H. destruct H as [Hth _].
  exists w'. split; [exact Hrun|exact Hth].
Defined.

(** ** The gap phase when the LIB height is not above [startHeight] *)

Lemma planned_subseteq (s : Scanner) (LIB : Z) (hs : list Z) : plannedHeights s LIB hs ⊆ hs.
Proof.
  unfold plannedHeights, LIBHeights, bestHeights. intros h.
  destruct (String.eqb _ _); [|done].
  by intros [[_ ?]%list_elem_of_filter|[_ ?]%list_elem_of_filter]%elem_of_app.
Qed.

Lemma above_promiseAll {A} c (query : nat → Z → JsError + A) (hs : list Z) :
  preserves (fetchAbove c) sameConfig (promiseAll query hs).
Proof. unfold promiseAll. repeat frame_step. Qed.

Lemma above_queryAllLoop c env fuel limit heights i results :
  preserves (fetchAbove c) sameConfig (queryAllLoop env fuel limit heights i results).
Proof.
  revert i results. induction fuel as [|fuel IH]; intros i results; simpl; [by intros w|].
  destruct (i <? Z.of_nat (length heights)); [|frame_step].
  frame_step; [apply above_promiseAll | apply IH].
Qed.

Lemma above_queryBloomLoop c env fuel limit ls heights i results :
  preserves (fetchAbove c) sameConfig (queryBloomLoop env fuel limit ls heights i results).
Proof.
  revert i results. induction fuel as [|fuel IH]; intros i results; simpl; [by intros w|].
  destruct (i <? Z.of_nat (length heights)); [|frame_step].
  frame_step; [apply above_promiseAll | apply IH].
Qed.

Lemma above_queryBlockAndTxs c env fuel heights ty :
  Forall (fun h => c < h) heights →
  preserves (fetchAbove c) sameConfig (queryBlockAndTxs env fuel heights ty).
Proof.
  intros Hall. unfold queryBlockAndTxs.
  apply preserves_bind; [apply _|apply preserves_logEvent; first [exact Hall|apply _]|intros ?].
  apply preserves_bind; [apply _|apply preserves_getThis; apply _|intros s].
  destruct (String.eqb _ "all").
  { unfold queryAllBlocksAndTxs. repeat frame_step. apply above_queryAllLoop. }
  destruct (String.eqb _ "listener"); [|frame_step].
  unfold queryBlockAndTxsWithBloom. repeat frame_step. apply above_queryBloomLoop.
Qed.

Lemma above_insert c env r : preserves (fetchAbove c) sameConfig (dbOperator_insert env r).
Proof. unfold dbOperator_insert. repeat frame_step. destruct (dbInsert _ _ _); frame_step. Qed.

Lemma above_setThis c (f : Scanner → Scanner) :
  (∀ s, sameConfig s (f s)) → preserves (fetchAbove c) sameConfig (setThis f).
Proof. apply preserves_setThis. Qed.

(** Whether it returns or fails, the body of a tick fetches only heights
    above the cursor it started from. *)
Lemma tickBody_above (env : Env) (fuel : nat) (cur LIB : Z) (w : World) :
  match tickBody env fuel cur LIB w with
  | Done _ w' | Thrown _ w' =>
      ∃ evs, trace w' = trace w ++ evs
             ∧ Forall (fetchAbove (currentQueries (this w))) evs
  | OutOfFuel => True
  end.
Proof.
  set (c := currentQueries (this w)).
  pose (K := fun hs : list Z =>
      ((if String.eqb (scanMode (config (this w))) "all" then
          r <- queryBlockAndTxs env fuel
                 (LIBHeights LIB hs ++ bestHeights (this w) LIB hs) LOOP ;;
          match r with
          | AllR loopHeightsResult =>
              s1 <- getThis ;;
              dbOperator_insert env
                (AllR (tagAll LIB cur
                         (mergeResult s1 loopHeightsResult (length (LIBHeights LIB hs))
                            (length (bestHeights (this w) LIB hs)) LIB (lastBestHeight s1)))) ;;
              setThis
                (set_lastLoopResult
                   (tagAll LIB cur
                      (mergeResult s1 loopHeightsResult (length (LIBHeights LIB hs))
                         (length (bestHeights (this w) LIB hs)) LIB (lastBestHeight s1))))
          | BloomR _ => throw TypeError
          end
        else if String.eqb (scanMode (config (this w))) "listener" then
          loopHeightsResult <- queryBlockAndTxs env fuel hs LOOP ;;
          dbOperator_insert env (tagHeights LIB cur loopHeightsResult)
        else throw InvalidScanMode) ;;
       setThis (set_currentQueries LIB) ;;
       setThis (set_lastBestHeight (Some cur)))%js).
  assert (Hk : ∀ hs, Forall (fun h => c < h) hs →
                     preserves (fetchAbove c) sameConfig (K hs)).
  { intros hs Hall. unfold K.
    apply preserves_bind; [apply _| |intros ?].
    2:{ apply preserves_bind; [apply _| |intros ?]; apply above_setThis; intros s;
          reflexivity. }
    destruct (String.eqb _ "all").
    - apply preserves_bind; [apply _| |intros r].
      + apply above_queryBlockAndTxs. apply Forall_forall. intros h Hh.
        rewrite Forall_forall in Hall. apply Hall.
        unfold LIBHeights, bestHeights in Hh.
        by apply elem_of_app in Hh as [[_ ?]%list_elem_of_filter|[_ ?]%list_elem_of_filter].
      + destruct r; [|apply preserves_throw; apply _].
        apply preserves_bind; [apply _|apply preserves_getThis; apply _|intros s1].
        apply preserves_bind; [apply _|apply above_insert|intros ?].
        apply above_setThis. intros s. reflexivity.
    - destruct (String.eqb _ "listener"); [|apply preserves_throw; apply _].
      apply preserves_bind; [apply _|by apply above_queryBlockAndTxs|intros r].
      apply above_insert. }
  unfold tickBody. unfold bind at 1, getThis at 1. cbv beta iota.
  destruct (loopHeights (this w) cur) as [e|hs] eqn:Hplan.
  - unfold bind, liftResult, throw. exists []. by rewrite app_nil_r.
  - apply loopHeights_inr in Hplan.
    assert (Hall : Forall (fun h => c < h) hs).
    { apply Forall_forall. intros h Hh. rewrite Hplan in Hh.
      apply heightRange_elem in Hh. subst c. lia. }
    specialize (Hk hs Hall w).
    change (match K hs w with
            | Done _ w' | Thrown _ w' =>
                ∃ evs, trace w' = trace w ++ evs ∧ Forall (fetchAbove c) evs
            | OutOfFuel => True
            end).
    destruct (K hs w) as [a w'|e w'|]; [| |done]; destruct Hk as [_ Hk]; exact Hk.
Qed.

Lemma fetchAbove_fetches (c : Z) (evs : list Event) :
  Forall (fetchAbove c) evs → Forall (fun h => c < h) (concat (fetches evs)).
Proof.
  induction 1 as [|[] evs He _ IH]; simpl; try done. by apply Forall_app.
Qed.

(** A tick, whether it returns or fails, fetches only heights above the
    cursor, and leaves the cursor where it was or at the LIB height it
    read. *)
Lemma tick_above_cursor (env : Env) (fuel : nat) (w w' : World) :
  (tick env fuel w = Done tt w' ∨ ∃ e, tick env fuel w = Thrown e w') →
  ∃ evs,
    trace w' = trace w ++ evs
    ∧ (currentQueries (this w') = currentQueries (this w)
       ∨ ∃ st, chainStatus env (clock w) = inr st ∧ currentQueries (this w') = libOf st)
    ∧ Forall (fun h => currentQueries (this w) < h) (concat (fetches evs)).
Proof.
  intros H. destruct (chainStatus env (clock w)) as [e|st] eqn:Hst.
  { rewrite (tick_status_fails env fuel w e Hst) in H.
    destruct H as [H|[e' H]]; [discriminate H|]. injection H as _ <-.
    exists []. simpl. rewrite app_nil_r. repeat split; [by left|constructor]. }
  rewrite (tick_unfold env fuel w st Hst) in H.
  destruct (skipTick (incr_loopTimes (this w)) (BestChainHeight st)) eqn:Hskip.
  { destruct H as [H|[e' H]]; [|discriminate H]. injection H as <-.
    exists [EvChainStatus st]. simpl. repeat split; [by left|constructor]. }
  pose proof (tickBody_above env fuel (BestChainHeight st) (LastIrreversibleBlockHeight st)
                (afterStatus w st)) as Hab.
  assert (Hev : ∃ evs, trace w' = trace w ++ evs
                       ∧ Forall (fun h => currentQueries (this w) < h)
                           (concat (fetches evs))).
  { destruct H as [H|[e' H]]; rewrite H in Hab; destruct Hab as (evs & Htr & Hall);
      exists (EvChainStatus st :: evs); simpl in *;
      (split; [by rewrite Htr, <- app_assoc|by apply fetchAbove_fetches]). }
  destruct Hev as (evs & Htr & Hall). exists evs. split; [exact Htr|]. split; [|exact Hall].
  destruct H as [H|[e' H]].
  - apply tickBody_Done in H as (_ & _ & _ & _ & _ & _ & _ & _ & _ & _ & _ & _ & Hq & _).
    right. exists st. by split.
  - apply tickBody_Thrown in H. left. by rewrite H.
Qed.

Lemma afterTicks_above_cursor (env : Env) (fuel : nat) (floor : Z) (w w' : World) :
  (∀ t st, chainStatus env t = inr st → floor ≤ libOf st) →
  afterTicks env fuel w w' →
  floor ≤ currentQueries (this w) →
  ∃ evs, trace w' = trace w ++ evs ∧ Forall (fun h => floor < h) (concat (fetches evs)).
Proof.
  intros Hlib.
  assert (Hstep : ∀ w w1 w2 : World,
    (tick env fuel w = Done tt w1 ∨ ∃ e, tick env fuel w = Thrown e w1) →
    (floor ≤ currentQueries (this w1) →
     ∃ evs, trace w2 = trace w1 ++ evs ∧ Forall (fun h => floor < h) (concat (fetches evs))) →
    floor ≤ currentQueries (this w) →
    ∃ evs, trace w2 = trace w ++ evs ∧ Forall (fun h => floor < h) (concat (fetches evs))).
  { intros w0 w1 w2 Htick IH Hcur.
    apply tick_above_cursor in Htick as (evs & Htr & Hq & Hall).
    destruct IH as (evs' & Htr' & Hall').
    { destruct Hq as [->|(st & Hst & ->)]; [done|]. by eapply Hlib. }
    exists (evs ++ evs'). split; [by rewrite Htr', Htr, <- app_assoc|].
    rewrite fetches_app, concat_app. apply Forall_app. split; [|done].
    eapply Forall_impl; [exact Hall|]. simpl. intros h Hh. lia. }
  induction 1 as [w|w w1 w2 Htick _ IH|w w1 w2 e Htick _ IH]; intros Hcur.
  - exists []. by rewrite app_nil_r.
  - eapply Hstep; [by left|exact IH|exact Hcur].
  - eapply Hstep; [right; by exists e|exact IH|exact Hcur].
Qed.

(** X14. When the LIB height that the gap phase reads first is not above
    [startHeight] ([currentHeight <= startHeight]), [queryGapHeight]
    returns at once, whatever the fuel: that status read is its only
    call, nothing is fetched or inserted and the scanner is untouched, so
    the cursor stays where the constructor put it, at [startHeight].
    When moreover the LIB height never falls below [startHeight] (so that
    it was [startHeight] at that read), no later tick fetches the block
    at [startHeight]: over any run of ticks, each returning or failing,
    only heights above [startHeight] are fetched. *)
Theorem queryGapHeight_misses_startHeight (env : Env) (fuel : nat) (w : World)
    (st : ChainStatus) :
  chainStatus env (clock w) = inr st →
  libOf st ≤ startHeight (config (this w)) →
  let w1 := {| this := this w; clock := S (clock w);
               trace := trace w ++ [EvChainStatus st] |} in
  queryGapHeight env fuel w = Done tt w1
  ∧ (currentQueries (this w) = startHeight (config (this w)) →
     (∀ t st', chainStatus env t = inr st' → startHeight (config (this w)) ≤ libOf st') →
     ∀ w2, afterTicks env fuel w1 w2 →
           ∃ evs, trace w2 = trace w1 ++ evs
                  ∧ Forall (fun h => startHeight (config (this w)) < h)
                      (concat (fetches evs))).
Proof.
  intros Hst Hle w1. split.
  - unfold queryGapHeight, getHeight. run_step. rewrite Hst. simpl.
    unfold libOf in Hle.
    destruct (Z.leb_spec (LastIrreversibleBlockHeight st) (startHeight (config (this w))))
      as [_|?]; [reflexivity|lia].
  - intros Hcur Hlib w2 Hticks.
    apply (afterTicks_above_cursor env fuel (startHeight (config (this w))) _ _ Hlib Hticks).
    simpl. lia.
Qed.

Lemma queryGapHeight_misses_startHeight_witness :
  ∃ w1 w2 w3 evs,
    queryGapHeight failsOnce 10 (worldOf (scannerOf smallBatches)) = Done tt w1
    ∧ tick failsOnce 10 w1 = Thrown (CollaboratorError "chain unreachable") w2
    ∧ tick failsOnce 10 w2 = Done tt w3
    ∧ fetches (trace w3) = [[2; 3; 4; 5]]
    ∧ trace w3 = trace w1 ++ evs
    ∧ Forall (fun h => 1 < h) (concat (fetches evs)).
Proof.
  destruct (queryGapHeight_misses_startHeight failsOnce 10
              (worldOf (scannerOf smallBatches)) (status 5 1) eq_refl)
    as [Hgap Hticks]; [simpl; lia|].
  set (w1 := {| this := this (worldOf (scannerOf smallBatches));
                clock := S (clock (worldOf (scannerOf smallBatches)));
                trace := trace (worldOf (scannerOf smallBatches))
                         ++ [EvChainStatus (status 5 1)] |}) in *.
  assert (Hrun : ∃ w2 w3,
            tick failsOnce 10 w1 = Thrown (CollaboratorError "chain unreachable") w2
            ∧ tick failsOnce 10 w2 = Done tt w3
            ∧ fetches (trace w3) = [[2; 3; 4; 5]])
    by (eexists _, _; split; [vm_compute; reflexivity|];
        split; [vm_compute; reflexivity|vm_compute; reflexivity]).
  destruct Hrun as (w2 & w3 & Hfail & Hret & Hf).
  destruct (Hticks eq_refl) with (w2 := w3) as (evs & Htr & Hall).
  - intros t st'. simpl. destruct (t =? 1)%nat; [discriminate|].
    intros [= <-]. simpl. lia.
  - eapply afterTicks_fails; [exact Hfail|].
    eapply afterTicks_returns; [exact Hret|apply afterTicks_refl].
  - exists w1, w2, w3, evs. split; [exact Hgap|]. split; [exact Hfail|].
    split; [exact Hret|]. split; [exact Hf|]. split; [exact Htr|exact Hall].
Defined.

(** ** [restart] *)

Lemma mergeConfig_optionsOf (c : Config) : mergeConfig (optionsOf c) noOptions = c.
Proof. destruct c. reflexivity. Qed.

(** X15. [restart] without options remembers the configuration and
    forgets the progress: for a scanner that [makeConfig] once built,
    wherever its phase, cursor, loop result and tick counter have moved
    since, the [makeConfig] call of [restart(dbOperator)] succeeds and
    leaves exactly the scanner as first built, with [currentQueries] back
    at [startHeight] and [lastBestHeight] back at [null]. *)
Theorem restart_resets (thisConfig options : Options) (dbOperator : DbOperator)
    (s0 s : Scanner) :
  makeConfig thisConfig dbOperator options = inr s0 →
  config s = config s0 →
  restart s dbOperator noOptions = inr s0
  ∧ currentQueries s0 = startHeight (config s)
  ∧ lastBestHeight s0 = None.
Proof.
  unfold restart, makeConfig. intros H Hc.
  rewrite mergeConfig_optionsOf, Hc.
  destruct (duplicatedListeners (mergeConfig thisConfig options)) eqn:Hd; [discriminate H|].
  destruct (instanceofDBBaseOperation dbOperator); [|discriminate H].
  simpl in H. injection H as <-. simpl in *. rewrite Hd. simpl.
  split; [reflexivity|]. split; reflexivity.
Qed.

Lemma restart_resets_witness :
  restart mergingScanner theSink noOptions = inr (scannerOf defaultOptions)
  ∧ currentQueries (scannerOf defaultOptions) = startHeight (config mergingScanner)
  ∧ lastBestHeight (scannerOf defaultOptions) = None.
Proof.
  apply (restart_resets noOptions noOptions theSink (scannerOf defaultOptions) mergingScanner).
  - reflexivity.
  - reflexivity.
Defined.
